(** * compgraph: a shallow embedding of the computational-graph engine

    The development embeds [compgraph/operations.py] and [compgraph/graph.py]
    and states the properties of the engine over that embedding.

    Conventions of the embedding:
    - a row ([TRow], a Python [dict] from column names to values) is a finite
      map; dictionaries compare by content, so insertion order is not kept;
    - values are integers and strings; floating-point arithmetic is outside
      the model, so the mappers and reducers that compute floats are not
      embedded, except [Divide], whose quotient is left as a parameter;
    - a generator that is driven to its end is the sequence of rows it yields,
      closed either by normal exhaustion or by the exception that escapes it
      ([TRowsGenerator]); a consumer that stops pulling simply ignores the
      rest of that sequence, which is how laziness shows in the model. *)

From Stdlib Require Import ZArith Lia.
From stdpp Require Import gmap strings list fin_maps sorting.

#[local] Set Warnings "-clear-no-such-hyp".

Open Scope string_scope.
Open Scope list_scope.
Open Scope stdpp_scope.

(** ** Values, rows, exceptions *)

Inductive value :=
  | VInt (z : Z)
  | VStr (s : string).

#[global] Instance value_eq_dec : EqDecision value.
Proof. solve_decision. Defined.

Abbreviation TRow := (gmap string value).

(** The exceptions that the embedded code can raise. [KeyError] carries the
    key that was looked up, as in Python. *)
Inductive exn :=
  | KeyError (k : value)
  | TypeError
  | AssertionError
  | IndexError.

#[global] Instance exn_eq_dec : EqDecision exn.
Proof. solve_decision. Defined.

Inductive result (A : Type) :=
  | Ok (a : A)
  | Err (e : exn).
Arguments Ok {A} a.
Arguments Err {A} e.

#[global] Instance result_bind : MBind result := λ A B k r,
  match r with
  | Ok a => k a
  | Err e => Err e
  end.

(** [row[col]] *)
Definition getitem (row : TRow) (col : string) : result value :=
  match row !! col with
  | Some v => Ok v
  | None => Err (KeyError (VStr col))
  end.

(** ** Generators *)

Inductive TRowsGenerator :=
  | Done
  | Yield (row : TRow) (rest : TRowsGenerator)
  | Raise (e : exn).

(** [yield from g1] followed by the rest of the body, [g2]. *)
Fixpoint yield_from (g1 g2 : TRowsGenerator) : TRowsGenerator :=
  match g1 with
  | Done => g2
  | Yield row rest => Yield row (yield_from rest g2)
  | Raise e => Raise e
  end.

(** [iter(rows)] for a list of rows. *)
Fixpoint from_list (rows : list TRow) : TRowsGenerator :=
  match rows with
  | [] => Done
  | row :: rest => Yield row (from_list rest)
  end.

(** The rows a generator yields before it ends, and the exception that ends
    it, if any. *)
Fixpoint emitted (g : TRowsGenerator) : list TRow :=
  match g with
  | Done => []
  | Yield row rest => row :: emitted rest
  | Raise _ => []
  end.

Fixpoint raised (g : TRowsGenerator) : option exn :=
  match g with
  | Done => None
  | Yield _ rest => raised rest
  | Raise e => Some e
  end.

(** Running several generators one after the other. *)
Fixpoint chain (gs : list TRowsGenerator) : TRowsGenerator :=
  match gs with
  | [] => Done
  | g :: rest => yield_from g (chain rest)
  end.

(** A computation that either fails or yields nothing. *)
Definition lift {A} (r : result A) (k : A → TRowsGenerator) : TRowsGenerator :=
  match r with
  | Ok a => k a
  | Err e => Raise e
  end.

(** ** Map *)

Definition Mapper := TRow → TRowsGenerator.

(** [Map.__call__]:
    for row in rows: yield from self.mapper(row) *)
Fixpoint Map (mapper : Mapper) (rows : TRowsGenerator) : TRowsGenerator :=
  match rows with
  | Done => Done
  | Yield row rest => yield_from (mapper row) (Map mapper rest)
  | Raise e => Raise e
  end.

(** [DummyMapper] *)
Definition DummyMapper : Mapper := fun row => Yield row Done.

(** [Filter] *)
Definition Filter (condition : TRow → bool) : Mapper :=
  fun row => if condition row then Yield row Done else Done.

(** [Project]: [{col: row[col] for col in self.columns}] *)
Fixpoint project_row (columns : list string) (row : TRow) : result TRow :=
  match columns with
  | [] => Ok ∅
  | col :: cols =>
      v ← getitem row col;
      new_row ← project_row cols row;
      Ok (<[col := v]> new_row)
  end.

Definition Project (columns : list string) : Mapper :=
  fun row => lift (project_row columns row) (fun new_row => Yield new_row Done).

(** Python's [*] on the modelled values: integer product, or repetition of a
    string by an integer (empty for a count below one). *)
Fixpoint str_repeat (n : nat) (s : string) : string :=
  match n with
  | O => ""
  | S n' => s +:+ str_repeat n' s
  end.

Definition py_mul (x y : value) : result value :=
  match x, y with
  | VInt a, VInt b => Ok (VInt (a * b)%Z)
  | VInt a, VStr s => Ok (VStr (str_repeat (Z.to_nat a) s))
  | VStr s, VInt b => Ok (VStr (str_repeat (Z.to_nat b) s))
  | VStr _, VStr _ => Err TypeError
  end.

(** [Product]: prod = 1; for col in columns: prod *= row[col] *)
Fixpoint product_loop (columns : list string) (row : TRow) (prod : value) : result value :=
  match columns with
  | [] => Ok prod
  | col :: cols =>
      v ← getitem row col;
      prod' ← py_mul prod v;
      product_loop cols row prod'
  end.

Definition Product (columns : list string) (result_column : string) : Mapper :=
  fun row =>
    lift (product_loop columns row (VInt 1))
         (fun prod => Yield (<[result_column := prod]> row) Done).

(** ** Reduce *)

(** The key function of [groupby]: [tuple(row[col] for col in self.keys)] *)
Fixpoint key_tuple (keys : list string) (row : TRow) : result (list value) :=
  match keys with
  | [] => Ok []
  | col :: cols =>
      v ← getitem row col;
      vs ← key_tuple cols row;
      Ok (v :: vs)
  end.

(** What [itertools.groupby] produces when it is driven to its end: the
    successive groups with their keys. [GRaise e] stands for a pull that
    raises: the first pull of all when it heads the sequence, otherwise the
    pull that looks for the row after the last row of the preceding group
    (that pull happens while the preceding group is iterated or skipped). *)
Inductive groups :=
  | GEnd
  | GGroup (key : list value) (rows : list TRow) (next : groups)
  | GRaise (e : exn).

Fixpoint groupby (keys : list string) (rows : TRowsGenerator) : groups :=
  match rows with
  | Done => GEnd
  | Raise e => GRaise e
  | Yield row rest =>
      match key_tuple keys row with
      | Err e => GRaise e
      | Ok k =>
          match groupby keys rest with
          | GGroup k' g next =>
              if decide (k = k') then GGroup k (row :: g) next
              else GGroup k [row] (GGroup k' g next)
          | next => GGroup k [row] next
          end
      end
  end.

(** The iterator over one group that [groupby] hands out: the rows of
    the group, then the exception of the pull behind them, if that pull
    raises. *)
Definition grouper (rows : list TRow) (next : groups) : TRowsGenerator :=
  yield_from (from_list rows)
             (match next with GRaise e => Raise e | _ => Done end).

(** A reducer receives [group_key] (a tuple) and the rows of the group. It is
    modelled by what it yields for what the group gives it: rows, and maybe
    the exception of a pull that fails. As all reducers of the library, a
    reducer has no [try] around its pulls, so an exception of its input that
    reaches it ends it with that exception; a reducer that ends normally
    after a failing input has stopped pulling before the failure. *)
Definition Reducer := list value → TRowsGenerator → TRowsGenerator.

(** The [for key, group in groupby(...)] loop of [Reduce.__call__]; after the
    reducer returns, [groupby] skips what the reducer left of the group, and
    raises the exception of the input if the reducer stopped before it. (For
    a reducer that caught the exception of its input, which no reducer of the
    library does, [groupby] would find the input exhausted and end; such a
    reducer is not a [Reducer] of this model.) *)
Fixpoint reduce_groups (reducer : Reducer) (group_key : list value) (gs : groups)
  : TRowsGenerator :=
  match gs with
  | GEnd => Done
  | GRaise e => Raise e
  | GGroup _ rows next =>
      yield_from (reducer group_key (grouper rows next))
                 (reduce_groups reducer group_key next)
  end.

(** [Reduce.__call__] *)
Definition Reduce (reducer : Reducer) (keys : list string) (rows : TRowsGenerator)
  : TRowsGenerator :=
  match keys with
  | [] => reducer [] rows
  | _ => reduce_groups reducer (VStr <$> keys) (groupby keys rows)
  end.

(** [row[col]] where [col] is any value: rows only have string keys. *)
Definition getitem_value (row : TRow) (col : value) : result value :=
  match col with
  | VStr c => getitem row c
  | _ => Err (KeyError col)
  end.

(** [{col: row[col] for col in group_key}] *)
Fixpoint key_columns (group_key : list value) (row : TRow) : result TRow :=
  match group_key with
  | [] => Ok ∅
  | VStr c :: cols =>
      v ← getitem row c;
      new_row ← key_columns cols row;
      Ok (<[c := v]> new_row)
  | col :: _ => Err (KeyError col)
  end.

(** [FirstReducer]: for row in rows: yield row; break *)
Definition FirstReducer : Reducer := fun _ rows =>
  match rows with
  | Done => Done
  | Yield row _ => Yield row Done
  | Raise e => Raise e
  end.

(** [Count]: the loop, then [new_row[self.column] = count; yield new_row] *)
Fixpoint count_loop (group_key : list value) (rows : TRowsGenerator)
    (new_row : TRow) (count : Z) : result (TRow * Z) :=
  match rows with
  | Done => Ok (new_row, count)
  | Raise e => Err e
  | Yield row rest =>
      new_row' ← (if decide (new_row = ∅) then key_columns group_key row
                   else Ok new_row);
      count_loop group_key rest new_row' (count + 1)%Z
  end.

Definition Count (column : string) : Reducer := fun group_key rows =>
  lift (count_loop group_key rows ∅ 0%Z)
       (fun '(new_row, count) => Yield (<[column := VInt count]> new_row) Done).

(** Python's [+] on the modelled values. *)
Definition py_add (x y : value) : result value :=
  match x, y with
  | VInt a, VInt b => Ok (VInt (a + b)%Z)
  | VStr s, VStr t => Ok (VStr (s +:+ t))
  | _, _ => Err TypeError
  end.

(** [Sum] *)
Fixpoint sum_loop (column : string) (group_key : list value) (rows : TRowsGenerator)
    (new_row : TRow) (s : value) : result (TRow * value) :=
  match rows with
  | Done => Ok (new_row, s)
  | Raise e => Err e
  | Yield row rest =>
      new_row' ← (if decide (new_row = ∅) then key_columns group_key row
                   else Ok new_row);
      v ← getitem row column;
      s' ← py_add s v;
      sum_loop column group_key rest new_row' s'
  end.

Definition Sum (column : string) : Reducer := fun group_key rows =>
  lift (sum_loop column group_key rows ∅ (VInt 0))
       (fun '(new_row, s) => Yield (<[column := s]> new_row) Done).

(** ** Comparisons *)

(** Python's [<] on the modelled values: integers by value, strings
    lexicographically by code unit, and [TypeError] across the two. *)
Definition py_lt (x y : value) : result bool :=
  match x, y with
  | VInt a, VInt b => Ok (a <? b)%Z
  | VStr s, VStr t => Ok (String.ltb s t)
  | _, _ => Err TypeError
  end.

(** [<] on tuples: the first position where the two differ decides. *)
Fixpoint tuple_lt (x y : list value) : result bool :=
  match x, y with
  | [], [] => Ok false
  | [], _ :: _ => Ok true
  | _ :: _, [] => Ok false
  | a :: x', b :: y' => if decide (a = b) then tuple_lt x' y' else py_lt a b
  end.

(** ** TopN *)

(** Python's [heapq] (standard library), by its contract: [heap[0]] is the
    smallest item, [heappush] adds an item, [heapreplace] removes the smallest
    item and adds one. The model keeps the items in ascending order, so that
    [heap[0]] is the head. Items are the pairs [(value, index)] that [TopN]
    stores; comparing two of them compares the values first and the indices
    when the values are equal. *)
Module heapq.

Definition item := (value * nat)%type.

Definition item_lt (x y : item) : result bool :=
  if decide (x.1 = y.1) then Ok (x.2 <? y.2)%nat else py_lt x.1 y.1.

Fixpoint insert (x : item) (heap : list item) : result (list item) :=
  match heap with
  | [] => Ok [x]
  | y :: heap' =>
      b ← item_lt x y;
      if b : bool then Ok (x :: y :: heap')
      else (heap'' ← insert x heap'; Ok (y :: heap''))
  end.

Definition heappush (heap : list item) (x : item) : result (list item) :=
  insert x heap.

Definition heapreplace (heap : list item) (x : item) : result (list item) :=
  insert x (tail heap).

(** [heap[0]] *)
Definition top (heap : list item) : result item :=
  match heap with
  | [] => Err IndexError
  | x :: _ => Ok x
  end.

End heapq.

(** [topn[idx] = row] *)
Definition setitem (topn : list TRow) (idx : nat) (row : TRow) : result (list TRow) :=
  if decide (idx < length topn)%nat then Ok (<[idx := row]> topn)
  else Err IndexError.

(** The [for row in rows] loop of [TopN.__call__]. *)
Fixpoint topn_loop (column_max : string) (n : Z) (rows : TRowsGenerator)
    (heap : list heapq.item) (topn : list TRow) : result (list TRow) :=
  match rows with
  | Done => Ok topn
  | Raise e => Err e
  | Yield row rest =>
      if bool_decide (Z.of_nat (length heap) < n)%Z then
        v ← getitem row column_max;
        heap' ← heapq.heappush heap (v, length heap);
        topn_loop column_max n rest heap' (topn ++ [row])
      else
        v ← getitem row column_max;
        least ← heapq.top heap;
        b ← py_lt least.1 v;
        if b : bool then
          heap' ← heapq.heapreplace heap (v, least.2);
          topn' ← setitem topn least.2 row;
          topn_loop column_max n rest heap' topn'
        else topn_loop column_max n rest heap topn
  end.

(** [topn.sort(key=lambda row: row[column], reverse=True)]: a stable sort
    into descending order; rows with equal keys keep their order. *)
Fixpoint insert_desc (column : string) (row : TRow) (sorted : list TRow)
  : result (list TRow) :=
  match sorted with
  | [] => Ok [row]
  | row' :: rest =>
      v ← getitem row column;
      v' ← getitem row' column;
      b ← py_lt v v';
      if b : bool then (rest' ← insert_desc column row rest; Ok (row' :: rest'))
      else Ok (row :: row' :: rest)
  end.

Fixpoint sort_desc (column : string) (rows : list TRow) : result (list TRow) :=
  match rows with
  | [] => Ok []
  | row :: rest =>
      sorted ← sort_desc column rest;
      insert_desc column row sorted
  end.

(** [TopN.__call__] *)
Definition TopN (column : string) (n : Z) : Reducer := fun _ rows =>
  lift (topn ← topn_loop column n rows [] []; sort_desc column topn) from_list.

(** ** Joiners *)

(** [Joiner.separate_columns]; the result is the triple
    [(col_from_left, col_from_right, common_col)]. In Python [-] binds
    tighter than [&], which gives the grouping below. *)
Definition separate_columns (row_a row_b : TRow) (keys : list string)
  : gset string * gset string * gset string :=
  let set_a : gset string := dom row_a in
  let set_b : gset string := dom row_b in
  let set_keys : gset string := list_to_set keys in
  let col_from_right := (set_b ∖ set_a) ∩ set_b in
  let common_col := set_a ∩ (set_b ∖ set_keys) in
  let col_from_left := set_a ∖ common_col in
  (col_from_left, col_from_right, common_col).

(** [for col in cols: new_row[col] = row[col]] *)
Fixpoint copy_columns (cols : list string) (row : TRow) (new_row : TRow)
  : result TRow :=
  match cols with
  | [] => Ok new_row
  | col :: rest =>
      v ← getitem row col;
      copy_columns rest row (<[col := v]> new_row)
  end.

(** [for col in common_col:
       new_row[col + self._a_suffix] = row_a[col]
       new_row[col + self._b_suffix] = row_b[col]] *)
Fixpoint copy_common (cols : list string) (a_suffix b_suffix : string)
    (row_a row_b : TRow) (new_row : TRow) : result TRow :=
  match cols with
  | [] => Ok new_row
  | col :: rest =>
      va ← getitem row_a col;
      vb ← getitem row_b col;
      copy_common rest a_suffix b_suffix row_a row_b
        (<[col +:+ b_suffix := vb]> (<[col +:+ a_suffix := va]> new_row))
  end.

(** The body of the loop of [Joiner.join_row_list]: the row built from
    [row_a] and [row_b]. A Python set is iterated in an order that the
    language leaves open; the model iterates [elements]. *)
Definition join_row (a_suffix b_suffix : string) (row_a row_b : TRow)
    (columns : gset string * gset string * gset string) : result TRow :=
  let '(col_from_left, col_from_right, common_col) := columns in
  new_row ← copy_columns (elements col_from_left) row_a ∅;
  new_row ← copy_columns (elements col_from_right) row_b new_row;
  copy_common (elements common_col) a_suffix b_suffix row_a row_b new_row.

(** [Joiner.join_row_list] *)
Fixpoint join_row_list (a_suffix b_suffix : string) (row_a : TRow)
    (lst_b : list TRow) (columns : gset string * gset string * gset string)
  : TRowsGenerator :=
  match lst_b with
  | [] => Done
  | row_b :: rest =>
      lift (join_row a_suffix b_suffix row_a row_b columns)
           (fun new_row =>
              Yield new_row (join_row_list a_suffix b_suffix row_a rest columns))
  end.

(** The [for row in rows_a] loop of [Joiner.join_both]. *)
Fixpoint join_rest (a_suffix b_suffix : string) (rows_a : TRowsGenerator)
    (list_b : list TRow) (columns : gset string * gset string * gset string)
  : TRowsGenerator :=
  match rows_a with
  | Done => Done
  | Raise e => Raise e
  | Yield row rest =>
      yield_from (join_row_list a_suffix b_suffix row list_b columns)
                 (join_rest a_suffix b_suffix rest list_b columns)
  end.

(** [Joiner.join_both]; [list_b[0]] raises [IndexError] on an empty list. *)
Definition join_both (a_suffix b_suffix : string) (keys : list string)
    (row : TRow) (rows_a : TRowsGenerator) (list_b : list TRow) : TRowsGenerator :=
  match list_b with
  | [] => Raise IndexError
  | row_b :: _ =>
      let columns := separate_columns row row_b keys in
      yield_from (join_row_list a_suffix b_suffix row list_b columns)
                 (join_rest a_suffix b_suffix rows_a list_b columns)
  end.

(** [list(rows)] *)
Fixpoint to_list (rows : TRowsGenerator) : result (list TRow) :=
  match rows with
  | Done => Ok []
  | Yield row rest => l ← to_list rest; Ok (row :: l)
  | Raise e => Err e
  end.

(** A joiner is called with the keys and the iterators over the two groups. *)
Definition Joiner := list string → TRowsGenerator → TRowsGenerator → TRowsGenerator.

(** [InnerJoiner.__call__] *)
Definition InnerJoiner (suffix_a suffix_b : string) : Joiner :=
  fun keys rows_a rows_b =>
    lift (to_list rows_b) (fun list_b =>
      match list_b with
      | [] => Done
      | _ =>
          match rows_a with
          | Done => Done
          | Raise e => Raise e
          | Yield row rest => join_both suffix_a suffix_b keys row rest list_b
          end
      end).

(** [OuterJoiner.__call__] *)
Definition OuterJoiner (suffix_a suffix_b : string) : Joiner :=
  fun keys rows_a rows_b =>
    lift (to_list rows_b) (fun list_b =>
      match list_b with
      | [] => rows_a
      | _ =>
          match rows_a with
          | Done => from_list list_b
          | Raise e => Raise e
          | Yield row rest => join_both suffix_a suffix_b keys row rest list_b
          end
      end).

(** [LeftJoiner.__call__] *)
Definition LeftJoiner (suffix_a suffix_b : string) : Joiner :=
  fun keys rows_a rows_b =>
    lift (to_list rows_b) (fun list_b =>
      match list_b with
      | [] => rows_a
      | _ =>
          match rows_a with
          | Done => Done
          | Raise e => Raise e
          | Yield row rest => join_both suffix_a suffix_b keys row rest list_b
          end
      end).

(** [RightJoiner.__call__]. With an empty [list_a] the body yields from
    [rows_b] and goes on (there is no [return]); [rows_b] is an iterator, so
    it is exhausted by then, [next] gives [None] and the body returns. *)
Definition RightJoiner (suffix_a suffix_b : string) : Joiner :=
  fun keys rows_a rows_b =>
    lift (to_list rows_a) (fun list_a =>
      match list_a with
      | [] => rows_b
      | _ =>
          match rows_b with
          | Done => Done
          | Raise e => Raise e
          | Yield row rest => join_both suffix_a suffix_b keys row rest list_a
          end
      end).

Inductive strategy := Inner | Left | Right | Outer.

Definition joiner_of (s : strategy) (suffix_a suffix_b : string) : Joiner :=
  match s with
  | Inner => InnerJoiner suffix_a suffix_b
  | Left => LeftJoiner suffix_a suffix_b
  | Right => RightJoiner suffix_a suffix_b
  | Outer => OuterJoiner suffix_a suffix_b
  end.

(** ** Join *)

(** The three [while] loops of [Join.__call__] over the two sequences of
    groups. A group sequence that starts with [GRaise] is a [next(groupby)]
    that raises; the left one is asked first. *)
Fixpoint join_groups (joiner : Joiner) (keys : list string) (group_one : groups)
  : groups → TRowsGenerator :=
  fix advance_two (group_two : groups) : TRowsGenerator :=
    match group_one with
    | GRaise e => Raise e
    | GEnd =>
        match group_two with
        | GRaise e => Raise e
        | GEnd => Done
        | GGroup _ rows_b next_b =>
            yield_from (joiner keys Done (grouper rows_b next_b))
                       (advance_two next_b)
        end
    | GGroup key_a rows_a next_a =>
        match group_two with
        | GRaise e => Raise e
        | GEnd =>
            yield_from (joiner keys (grouper rows_a next_a) Done)
                       (join_groups joiner keys next_a GEnd)
        | GGroup key_b rows_b next_b =>
            lift (tuple_lt key_a key_b) (fun a_less : bool =>
              if a_less then
                yield_from (joiner keys (grouper rows_a next_a) Done)
                           (join_groups joiner keys next_a group_two)
              else
                lift (tuple_lt key_b key_a) (fun b_less : bool =>
                  if b_less then
                    yield_from (joiner keys Done (grouper rows_b next_b))
                               (advance_two next_b)
                  else
                    yield_from
                      (joiner keys (grouper rows_a next_a) (grouper rows_b next_b))
                      (join_groups joiner keys next_a next_b)))
        end
    end.

(** [Join.__call__] *)
Definition Join (joiner : Joiner) (keys : list string)
    (rows_a rows_b : TRowsGenerator) : TRowsGenerator :=
  join_groups joiner keys (groupby keys rows_a) (groupby keys rows_b).

(** ** Contiguous groups, as lists

    The vocabulary in which the properties of [Reduce] and [Join] are stated:
    a grouping of a list of rows is a list of keyed, non-empty blocks whose
    concatenation is the list, each block holding rows of one key tuple, and
    neighbouring blocks having different key tuples (so each block is a
    maximal run). *)

Definition is_ok {A} (r : result A) : Prop :=
  match r with
  | Ok _ => True
  | Err _ => False
  end.

Definition has_keys (keys : list string) (row : TRow) : Prop :=
  is_ok (key_tuple keys row).

Definition key_of (keys : list string) (row : TRow) : list value :=
  match key_tuple keys row with
  | Ok k => k
  | Err _ => []
  end.

Abbreviation keyed_groups := (list (list value * list TRow)).

Fixpoint groups_of (gs : keyed_groups) : groups :=
  match gs with
  | [] => GEnd
  | (k, g) :: rest => GGroup k g (groups_of rest)
  end.

Definition rows_of (gs : keyed_groups) : list TRow := concat (snd <$> gs).

Fixpoint adjacent_differ (gs : keyed_groups) : Prop :=
  match gs with
  | (k1, _) :: rest =>
      match rest with
      | (k2, _) :: _ => k1 ≠ k2
      | [] => True
      end ∧ adjacent_differ rest
  | [] => True
  end.

Definition contiguous_groups (keys : list string) (rows : list TRow)
    (gs : keyed_groups) : Prop :=
  rows_of gs = rows
  ∧ Forall (fun kg => kg.2 ≠ [] ∧ Forall (fun row => key_tuple keys row = Ok kg.1) kg.2) gs
  ∧ adjacent_differ gs.

(** The maximal runs of a list of rows, computed directly. *)
Fixpoint runs (keys : list string) (rows : list TRow) : keyed_groups :=
  match rows with
  | [] => []
  | row :: rest =>
      match runs keys rest with
      | (k', g) :: gs =>
          if decide (key_of keys row = k') then (k', row :: g) :: gs
          else (key_of keys row, [row]) :: (k', g) :: gs
      | [] => [(key_of keys row, [row])]
      end
  end.

(** ** The order behind [<]

    [value_ltb] extends Python's [<] to a total order on the modelled values
    (integers before strings); the two agree wherever Python's comparison is
    defined, that is on two values of the same kind. *)

Definition value_ltb (x y : value) : bool :=
  match x, y with
  | VInt a, VInt b => (a <? b)%Z
  | VStr s, VStr t => String.ltb s t
  | VInt _, VStr _ => true
  | VStr _, VInt _ => false
  end.

Definition same_kind (x y : value) : bool :=
  match x, y with
  | VInt _, VInt _ => true
  | VStr _, VStr _ => true
  | _, _ => false
  end.

(** [x <= y] in the total order. *)
Definition value_le (x y : value) : Prop := value_ltb y x = false.

(** ** Vocabulary for [TopN] *)

(** The value of [column] in a row that has it. *)
Definition column_value (column : string) (row : TRow) : value :=
  default (VInt 0) (row !! column).

(** Every row has a value of the kind of [w] (an integer, or a string) in
    [column]. *)
Definition kind_rows (column : string) (w : value) (rows : list TRow) : Prop :=
  Forall (fun row => ∃ v, row !! column = Some v ∧ same_kind w v = true) rows.

(** The total order on heap items that [heapq.item_lt] computes. *)
Definition item_ltb (x y : heapq.item) : bool :=
  if decide (x.1 = y.1) then (x.2 <? y.2)%nat else value_ltb x.1 y.1.

Definition item_le (x y : heapq.item) : Prop := item_ltb y x = false.

(** The items of the heap that belongs to the rows kept in [topn]. *)
Definition heap_items (column : string) (topn : list TRow) : list heapq.item :=
  imap (fun i row => (column_value column row, i)) topn.

(** Every row of [low] has a value at most that of every row of [high]. *)
Definition all_below (column : string) (low high : list TRow) : Prop :=
  Forall (fun d => Forall (fun r =>
    value_le (column_value column d) (column_value column r)) high) low.

(** Descending order of the column values, ties allowed. *)
Definition descending (column : string) (rows : list TRow) : Prop :=
  StronglySorted (fun r1 r2 =>
    value_le (column_value column r2) (column_value column r1)) rows.

(** ** Vocabulary for the row combination of a join *)

(** Columns that only one of the two rows has keep their name and value. *)
Definition passes_through (a b out : TRow) : Prop :=
  (∀ c, c ∈ dom a → c ∉ dom b → out !! c = a !! c)
  ∧ (∀ c, c ∈ dom b → c ∉ dom a → out !! c = b !! c).

(** Columns that both rows have, join keys apart, appear twice: under the
    name with the left suffix with the value of the left row, and under the
    name with the right suffix with the value of the right row. *)
Definition suffixed (keys : list string) (sa sb : string) (a b out : TRow) : Prop :=
  ∀ c, c ∈ dom a → c ∈ dom b → c ∉ keys →
       out !! (c +:+ sa) = a !! c ∧ out !! (c +:+ sb) = b !! c.

(** The suffixed names are new: they differ from each other and from the
    names of the columns that keep their name. *)
Definition no_clash (sa sb : string) (keys : list string) (DA DB : gset string)
  : Prop :=
  let common : gset string := DA ∩ (DB ∖ list_to_set keys) in
  (∀ c c', c ∈ common → c' ∈ common → c +:+ sa ≠ c' +:+ sb)
  ∧ (∀ c c', c ∈ common → c' ∈ DA ∪ DB → c' ∉ common →
             c +:+ sa ≠ c' ∧ c +:+ sb ≠ c').

(** [[f a b | a <- la, b <- lb]] *)
Definition cross {A B C} (f : A → B → C) (la : list A) (lb : list B) : list C :=
  concat ((fun a => f a <$> lb) <$> la).

(** The row that [join_row] builds, when it builds one. *)
Definition joined (sa sb : string) (keys : list string) (a b : TRow) : TRow :=
  match join_row sa sb a b (separate_columns a b keys) with
  | Ok out => out
  | Err _ => ∅
  end.

(** ** Vocabulary for the merge of a join *)

(** The total order that [tuple_lt] computes where it is defined. *)
Fixpoint tuple_ltb (x y : list value) : bool :=
  match x, y with
  | [], [] => false
  | [], _ :: _ => true
  | _ :: _, [] => false
  | a :: x', b :: y' => if decide (a = b) then tuple_ltb x' y' else value_ltb a b
  end.

(** Python can compare the two key tuples, either way round. *)
Definition comparable (ka kb : list value) : Prop :=
  is_ok (tuple_lt ka kb) ∧ is_ok (tuple_lt kb ka).

(** The rows come in ascending (non-descending) order of their key tuples. *)
Definition key_sorted (keys : list string) (rows : list TRow) : Prop :=
  StronglySorted (fun r1 r2 => tuple_ltb (key_of keys r2) (key_of keys r1) = false)
                 rows.

(** The pairs of a left group and a right group with the same key tuple. *)
Definition matched_pairs (GA GB : keyed_groups) : list (list TRow * list TRow) :=
  concat ((fun A => (fun B => (A.2, B.2)) <$> filter (fun B => B.1 = A.1) GB) <$> GA).

(** The calls of the joiner that [Join] makes, in order. *)
Inductive call :=
  | OnlyLeft (ga : list TRow)
  | OnlyRight (gb : list TRow)
  | Both (ga gb : list TRow).

Fixpoint merge_calls (GA : keyed_groups) : keyed_groups → list call :=
  fix advance_two (GB : keyed_groups) : list call :=
    match GA, GB with
    | [], [] => []
    | [], (_, gb) :: GB' => OnlyRight gb :: advance_two GB'
    | (_, ga) :: GA', [] => OnlyLeft ga :: merge_calls GA' []
    | (ka, ga) :: GA', (kb, gb) :: GB' =>
        if tuple_ltb ka kb then OnlyLeft ga :: merge_calls GA' GB
        else if tuple_ltb kb ka then OnlyRight gb :: advance_two GB'
        else Both ga gb :: merge_calls GA' GB'
    end.

Definition run_call (joiner : Joiner) (keys : list string) (c : call)
  : TRowsGenerator :=
  match c with
  | OnlyLeft ga => joiner keys (from_list ga) Done
  | OnlyRight gb => joiner keys Done (from_list gb)
  | Both ga gb => joiner keys (from_list ga) (from_list gb)
  end.

(** The keys of the successive groups strictly ascend. *)
Definition ascending (GA : keyed_groups) : Prop :=
  StronglySorted (fun A B => tuple_ltb A.1 B.1 = true) GA.

Definition both_of (c : call) : option (list TRow * list TRow) :=
  match c with
  | Both ga gb => Some (ga, gb)
  | _ => None
  end.

(** The rows that [OuterJoiner] yields for a call on groups of uniform rows. *)
Definition outer_rows (sa sb : string) (keys : list string) (c : call) : list TRow :=
  match c with
  | OnlyLeft ga => ga
  | OnlyRight gb => gb
  | Both ga gb => cross (joined sa sb keys) ga gb
  end.

(** The groups of a matched call are non-empty and each side has one set of
    columns. *)
Definition call_uniform (DA DB : gset string) (c : call) : Prop :=
  match c with
  | Both ga gb =>
      ga ≠ [] ∧ gb ≠ []
      ∧ Forall (fun a : TRow => dom a = DA) ga
      ∧ Forall (fun b : TRow => dom b = DB) gb
  | _ => True
  end.

(** The rows that [InnerJoiner] yields for a call on groups of uniform rows. *)
Definition inner_rows (sa sb : string) (keys : list string) (c : call) : list TRow :=
  match c with
  | Both ga gb => cross (joined sa sb keys) ga gb
  | _ => []
  end.

(** ** External sort

    [compgraph/external_sort.py] is imported by [graph.py] and is not part of
    the sources at hand. *)

Module external_sort.
Section algorithm.

Context {A : Type}.

(** [lt a b]: the key tuple of [a] is below the key tuple of [b]. *)
Variable lt : A → A → bool.

(** Modelled from the spec: step 2 of section 4.5, "sort each run in memory
    by the key tuple", with the stability that the contract of the sort
    demands; [external_sort.py] is missing. The model is an insertion sort
    that puts a row in front of the first row that is not below it. *)
Fixpoint insert_row (x : A) (run : list A) : list A :=
  match run with
  | [] => [x]
  | y :: rest => if lt y x then y :: insert_row x rest else x :: y :: rest
  end.

(** Modelled from the spec: step 2 of section 4.5 for a whole run, by
    repeated insertion; [external_sort.py] is missing. *)
Definition sort_run (run : list A) : list A := foldr insert_row [] run.

(** Modelled from the spec: step 1 of section 4.5, "partition the input into
    fixed-size runs"; [external_sort.py] is missing. [fuel] bounds the number
    of runs. *)
Fixpoint partition_runs (fuel run_size : nat) (rows : list A) : list (list A) :=
  match fuel with
  | O => []
  | S fuel' =>
      match rows with
      | [] => []
      | _ => take run_size rows :: partition_runs fuel' run_size (drop run_size rows)
      end
  end.

(** Modelled from the spec: the priority queue of step 4 of section 4.5,
    "keyed by (current head key tuple, run index)", by its contract;
    [external_sort.py] is missing. [pop_least runs] takes the head row with
    the least key tuple off its run, the run of the lowest index among equal
    key tuples; the runs keep their positions, which are their indices. *)
Fixpoint pop_least (runs : list (list A)) : option (A * list (list A)) :=
  match runs with
  | [] => None
  | [] :: rest =>
      match pop_least rest with
      | Some (y, rest') => Some (y, [] :: rest')
      | None => None
      end
  | (x :: run) :: rest =>
      match pop_least rest with
      | Some (y, rest') =>
          if lt y x then Some (y, (x :: run) :: rest') else Some (x, run :: rest)
      | None => Some (x, run :: rest)
      end
  end.

(** Modelled from the spec: step 4 of section 4.5, the k-way merge of the
    sorted runs; [external_sort.py] is missing. [fuel] bounds the number of
    rows to emit. *)
Fixpoint kway_merge (fuel : nat) (runs : list (list A)) : list A :=
  match fuel with
  | O => []
  | S fuel' =>
      match pop_least runs with
      | Some (x, runs') => x :: kway_merge fuel' runs'
      | None => []
      end
  end.

(** Modelled from the spec: the algorithm of section 4.5 (partition into
    runs, sort each run, merge the runs); [external_sort.py] is missing.
    Spilling a run to temporary storage and reading it back keeps the run as
    it is, and is not modelled. *)
Definition sort_rows (run_size : nat) (rows : list A) : list A :=
  kway_merge (length rows)
             (sort_run <$> partition_runs (length rows) run_size rows).

End algorithm.
End external_sort.

(** Modelled from the spec: the [NonOrderableKey] failure of section 7, which
    [external_sort.py], missing here, raises; in Python a comparison of values
    that cannot be ordered raises [TypeError]. *)
Definition NonOrderableKey : exn := TypeError.

(** Modelled from the spec: the key tuples of all rows, which the sort
    compares; [external_sort.py] is missing. *)
Fixpoint key_tuples (keys : list string) (rows : list TRow)
  : result (list (list value)) :=
  match rows with
  | [] => Ok []
  | row :: rest =>
      k ← key_tuple keys row;
      ks ← key_tuples keys rest;
      Ok (k :: ks)
  end.

(** Modelled from the spec: "values of a key column are mutually comparable
    across rows" (section 4.5); [external_sort.py] is missing. Two values are
    comparable when they are of the same kind, so it is enough to compare
    every key tuple with the first one, column by column. *)
Fixpoint same_kinds (k1 k2 : list value) : bool :=
  match k1, k2 with
  | [], [] => true
  | v1 :: k1', v2 :: k2' => same_kind v1 v2 && same_kinds k1' k2'
  | _, _ => false
  end.

(** Modelled from the spec: the key tuples can be ordered, in the sense of
    [same_kinds]; [external_sort.py] is missing. *)
Definition orderable (ks : list (list value)) : bool :=
  match ks with
  | [] => true
  | k0 :: rest => forallb (same_kinds k0) rest
  end.

(** Modelled from the spec: the external sort operation of section 4.5, with
    its contract (ascending, stable, failing on keys that cannot be ordered);
    [external_sort.py] is missing. The input is read to its end before the
    first row comes out. *)
Definition ExternalSort (run_size : nat) (keys : list string)
    (rows : TRowsGenerator) : TRowsGenerator :=
  lift (to_list rows) (fun all_rows =>
    lift (key_tuples keys all_rows) (fun ks =>
      if orderable ks then
        from_list (external_sort.sort_rows
                     (fun r1 r2 => tuple_ltb (key_of keys r1) (key_of keys r2))
                     run_size all_rows)
      else Raise NonOrderableKey)).

(** ** Graph

    A [Graph] only wraps its pipeline ([Graph.run] yields from
    [self.pipeline( **kwargs )]); the model identifies the two. [Read], which
    reads a file, is outside the model. *)

(** The operations that [Graph.map], [Graph.reduce] and [Graph.sort] put in
    front of a pipeline. The run size of the external sort is a setting of
    the missing [external_sort.py]. *)
Inductive stage :=
  | MapStage (mapper : Mapper)
  | ReduceStage (reducer : Reducer) (keys : list string)
  | SortStage (run_size : nat) (keys : list string).

Inductive Operation :=
  | ReadIterFactory (name : string)
  | AppendOperation (op_one : stage) (pipeline : Operation)
  | JoinGraphs (joiner : Joiner) (keys : list string) (graph_one graph_two : Operation).

(** The keyword arguments of [run]: a factory for each source name; a
    factory returns an iterable of rows. Here the rows are values: every
    reader of a source gets rows of its own, as from a factory that makes its
    dicts anew at each call. When a factory hands out the same dicts again
    (to a second reader of the source in a join, or to a later run), what a
    mapper assigns through one reader is seen through the other; the part on
    rows as shared objects, with [run_obj], models that. *)
Abbreviation TSources := (gmap string (list TRow)).

Definition call_stage (op_one : stage) (rows : TRowsGenerator) : TRowsGenerator :=
  match op_one with
  | MapStage mapper => Map mapper rows
  | ReduceStage reducer keys => Reduce reducer keys rows
  | SortStage run_size keys => ExternalSort run_size keys rows
  end.

(** [Operation.__call__] of the three classes, and [Graph.run]:
    - [ReadIterFactory]: for row in kwargs[self.name](): yield row
    - [AppendOperation]: yield from self.op_one(self.pipeline( **kwargs ))
    - [JoinGraphs]: yield from self.join(graph_one.run( **kwargs ),
                                         graph_two.run( **kwargs )) *)
Fixpoint run (graph : Operation) (kwargs : TSources) : TRowsGenerator :=
  match graph with
  | ReadIterFactory name =>
      match kwargs !! name with
      | Some rows => from_list rows
      | None => Raise (KeyError (VStr name))
      end
  | AppendOperation op_one pipeline => call_stage op_one (run pipeline kwargs)
  | JoinGraphs joiner keys graph_one graph_two =>
      Join joiner keys (run graph_one kwargs) (run graph_two kwargs)
  end.

(** The builders of [Graph]. *)
Definition graph_from_iter (name : string) : Operation := ReadIterFactory name.
Definition graph_map (graph : Operation) (mapper : Mapper) : Operation :=
  AppendOperation (MapStage mapper) graph.
Definition graph_reduce (graph : Operation) (reducer : Reducer) (keys : list string)
  : Operation :=
  AppendOperation (ReduceStage reducer keys) graph.
Definition graph_sort (graph : Operation) (run_size : nat) (keys : list string)
  : Operation :=
  AppendOperation (SortStage run_size keys) graph.
Definition graph_join (graph : Operation) (joiner : Joiner) (join_graph : Operation)
    (keys : list string) : Operation :=
  JoinGraphs joiner keys graph join_graph.

(** The source names that a pipeline refers to, and the one it reads first. *)
Fixpoint sources (graph : Operation) : gset string :=
  match graph with
  | ReadIterFactory name => {[ name ]}
  | AppendOperation _ pipeline => sources pipeline
  | JoinGraphs _ _ graph_one graph_two => sources graph_one ∪ sources graph_two
  end.

Fixpoint first_source (graph : Operation) : string :=
  match graph with
  | ReadIterFactory name => name
  | AppendOperation _ pipeline => first_source pipeline
  | JoinGraphs _ _ graph_one _ => first_source graph_one
  end.

(** [subgraph g graph]: the pipeline [g] is [graph] or one of the pipelines
    that [graph] is built from. *)
Fixpoint subgraph (g graph : Operation) : Prop :=
  g = graph
  ∨ match graph with
    | ReadIterFactory _ => False
    | AppendOperation _ pipeline => subgraph g pipeline
    | JoinGraphs _ _ graph_one graph_two =>
        subgraph g graph_one ∨ subgraph g graph_two
    end.

(** Every reducer that is applied to an ungrouped stream (empty key list)
    pulls from its input before it yields, as all reducers of the library do:
    an input that fails on the first pull makes the reducer fail. *)
Fixpoint reducers_pull (graph : Operation) : Prop :=
  match graph with
  | ReadIterFactory _ => True
  | AppendOperation op_one pipeline =>
      match op_one with
      | ReduceStage reducer [] => ∀ e, reducer [] (Raise e) = Raise e
      | _ => True
      end ∧ reducers_pull pipeline
  | JoinGraphs _ _ graph_one graph_two =>
      reducers_pull graph_one ∧ reducers_pull graph_two
  end.

(** ** CountUnique *)

#[global] Instance value_countable : Countable value.
Proof.
  refine (inj_countable'
            (fun v => match v with VInt z => inl z | VStr s => inr s end)
            (fun x => match x with inl z => VInt z | inr s => VStr s end) _).
  by intros [].
Defined.

(** The [for row in rows] loop of [CountUnique.__call__]; [values_set] is a
    Python set. *)
Fixpoint count_unique_loop (column : string) (group_key : list value)
    (rows : TRowsGenerator) (new_row : TRow) (values_set : gset value)
  : result (TRow * gset value) :=
  match rows with
  | Done => Ok (new_row, values_set)
  | Raise e => Err e
  | Yield row rest =>
      new_row' ← (if decide (new_row = ∅) then
                     match group_key with
                     | [] => Ok new_row
                     | _ => key_columns group_key row
                     end
                   else Ok new_row);
      v ← getitem row column;
      if decide (v ∈ values_set) then
        count_unique_loop column group_key rest new_row' values_set
      else
        count_unique_loop column group_key rest new_row' ({[ v ]} ∪ values_set)
  end.

(** [CountUnique.__call__] *)
Definition CountUnique (column result_column : string) : Reducer :=
  fun group_key rows =>
    lift (count_unique_loop column group_key rows ∅ ∅)
         (fun '(new_row, values_set) =>
            Yield (<[result_column := VInt (Z.of_nat (size values_set))]> new_row)
                  Done).

(** ** Vocabulary for the properties of mappers and reducers *)

(** The integer product of a list of integers. *)
Definition product_of (zs : list Z) : Z := foldr Z.mul 1%Z zs.

(** The integer sum of a list of integers. *)
Definition sum_of (zs : list Z) : Z := foldr Z.add 0%Z zs.

(** The row holds the integer [z] in [column]. *)
Definition holds_int (row : TRow) (column : string) (z : Z) : Prop :=
  row !! column = Some (VInt z).

(** ** Vocabulary for the one-sided joins and for failing inputs *)

(** The rows that [LeftJoiner] yields for a call on groups of uniform rows. *)
Definition left_rows (sa sb : string) (keys : list string) (c : call) : list TRow :=
  match c with
  | OnlyLeft ga => ga
  | OnlyRight _ => []
  | Both ga gb => cross (joined sa sb keys) ga gb
  end.

(** The rows that [RightJoiner] yields for a call on groups of uniform rows:
    it combines with the right row in the place of the left one. *)
Definition right_rows (sa sb : string) (keys : list string) (c : call) : list TRow :=
  match c with
  | OnlyLeft _ => []
  | OnlyRight gb => gb
  | Both ga gb => cross (joined sa sb keys) gb ga
  end.

(** The group of [G] whose key tuple is [k], if there is one. *)
Definition partner (k : list value) (G : keyed_groups) : option (list TRow) :=
  snd <$> head (filter (fun B => B.1 = k) G).

(** Group by group of [GA]: the group combined with its partner in [GB], or
    the group as it is when it has none. *)
Definition one_sided_rows (sa sb : string) (keys : list string)
    (GA GB : keyed_groups) : list TRow :=
  concat ((fun A => match partner A.1 GB with
                    | Some gb => cross (joined sa sb keys) A.2 gb
                    | None => A.2
                    end) <$> GA).

(** The sequence of groups ends in an exception. *)
Fixpoint ends_in_raise (gs : groups) : Prop :=
  match gs with
  | GEnd => False
  | GRaise _ => True
  | GGroup _ _ next => ends_in_raise next
  end.

(** ** Rows as shared objects

    The functions above take and give rows by value. In the code a row is a
    dict, an object: [ReadIterFactory] hands out the very dicts of the
    caller, most mappers of the library change the dict that they are given
    ([row[self.result] = ...; yield row]), and every stage is a generator
    that runs only when its consumer pulls. This part models pipelines with
    the rows as objects in a store.

    A generator is modelled by the tree of what it does until it ends: it
    yields a dict, reads a dict, assigns to a dict, makes a dict, returns or
    raises. A consumer of a generator is a function on this tree; what the
    consumer does with a row stands behind the [Emit] of that row and before
    what the producer does next, which is the order of a pull-based run. *)

Inductive ref :=
  | Obj (l : nat)
  | New (i : nat).

(** The dicts of the caller, and the dicts made during the run. *)
Record store := mk_store { data : list TRow; made : list TRow }.

Definition read (st : store) (r : ref) : TRow :=
  default ∅ (match r with
             | Obj l => data st !! l
             | New i => made st !! i
             end).

Definition write (st : store) (r : ref) (row : TRow) : store :=
  match r with
  | Obj l => mk_store (<[l := row]> (data st)) (made st)
  | New i => mk_store (data st) (<[i := row]> (made st))
  end.

Inductive prog (X : Type) : Type :=
  | Ret (x : X)
  | Throw (e : exn)
  | Emit (r : ref) (next : prog X)
  | Get (r : ref) (next : TRow → prog X)
  | Put (r : ref) (row : TRow) (next : prog X)
  | Make (row : TRow) (next : ref → prog X).

Arguments Ret {X} x.
Arguments Throw {X} e.
Arguments Emit {X} r next.
Arguments Get {X} r next.
Arguments Put {X} r row next.
Arguments Make {X} row next.

(** [yield from p], then [f] on what [p] returns. *)
Fixpoint bind {X Y : Type} (p : prog X) (f : X → prog Y) : prog Y :=
  match p with
  | Ret x => f x
  | Throw e => Throw e
  | Emit r next => Emit r (bind next f)
  | Get r next => Get r (fun row => bind (next row) f)
  | Put r row next => Put r row (bind next f)
  | Make row next => Make row (fun l => bind (next l) f)
  end.

(** A generator of rows. *)
Definition TObjGenerator := prog unit.

(** A result of the error monad as a step of a generator. *)
Definition lift_obj {X Y : Type} (r : result X) (f : X → prog Y) : prog Y :=
  match r with
  | Ok x => f x
  | Err e => Throw e
  end.

(** [list(generator)] from the store [st]: the dicts yielded, the store when
    the generator has ended, and how it ended. *)
Fixpoint exec {X : Type} (p : prog X) (st : store) : list ref * store * result X :=
  match p with
  | Ret x => ([], st, Ok x)
  | Throw e => ([], st, Err e)
  | Emit r next => let '(out, st', res) := exec next st in (r :: out, st', res)
  | Get r next => exec (next (read st r)) st
  | Put r row next => exec next (write st r row)
  | Make row next =>
      exec (next (New (length (made st)))) (mk_store (data st) (made st ++ [row]))
  end.

(** *** Mappers *)

(** The generator that a call of a mapper on a dict gives. *)
Definition ObjMapper := ref → TObjGenerator.

(** [DummyMapper]: yield row *)
Definition DummyMapper_obj : ObjMapper := fun row =>
  Emit row (Ret tt).

(** [Filter]: if self.condition(row): yield row *)
Definition Filter_obj (condition : TRow → bool) : ObjMapper := fun row =>
  Get row (fun content =>
    if condition content then Emit row (Ret tt) else Ret tt).

(** [Project]: yield {col: row[col] for col in self.columns} *)
Definition Project_obj (columns : list string) : ObjMapper := fun row =>
  Get row (fun content =>
    lift_obj (project_row columns content) (fun new_row =>
      Make new_row (fun new => Emit new (Ret tt)))).

(** [Product]: the loop, then [row[self.result_column] = prod; yield row] *)
Definition Product_obj (columns : list string) (result_column : string)
  : ObjMapper := fun row =>
  Get row (fun content =>
    lift_obj (product_loop columns content (VInt 1)) (fun prod =>
      Put row (<[result_column := prod]> content) (Emit row (Ret tt)))).

(** [Divide]:
      assert row[self.denominator] != 0
      row[self.result] = row[self.nominator] / row[self.denominator]
      yield row
    The quotient is a float; [truediv] stands for Python's [/]. *)
Definition Divide_obj (truediv : value → value → result value)
    (nominator denominator result_column : string) : ObjMapper := fun row =>
  Get row (fun content =>
    lift_obj (getitem content denominator) (fun d =>
      if decide (d = VInt 0) then Throw AssertionError
      else
        lift_obj (getitem content nominator) (fun n =>
          lift_obj (getitem content denominator) (fun d' =>
            lift_obj (truediv n d') (fun q =>
              Put row (<[result_column := q]> content) (Emit row (Ret tt))))))).

(** [Map.__call__]: for row in rows: yield from self.mapper(row) *)
Fixpoint Map_obj (mapper : ObjMapper) (rows : TObjGenerator) : TObjGenerator :=
  match rows with
  | Ret _ => Ret tt
  | Throw e => Throw e
  | Emit row rest => bind (mapper row) (fun _ => Map_obj mapper rest)
  | Get r next => Get r (fun content => Map_obj mapper (next content))
  | Put r content next => Put r content (Map_obj mapper next)
  | Make content next => Make content (fun l => Map_obj mapper (next l))
  end.

(** *** Reducers *)

(** A reducer of the shape that all reducers of the library have: code
    before the loop, [for row in rows:] with a body that may [break], code
    after the loop, and no [try]. [enter] gives the local variables at the
    start, [body] one turn of the loop ([inl] to go on, [inr] after [break])
    and [leave] the code after the loop. *)
Record ObjReducer := mk_reducer {
  locals : Type;
  enter : list value → locals;
  body : locals → ref → prog (locals + locals);
  leave : locals → TObjGenerator
}.

(** [FirstReducer]: for row in rows: yield row; break *)
Definition FirstReducer_obj : ObjReducer :=
  mk_reducer unit (fun _ => tt) (fun _ row => Emit row (Ret (inr tt)))
             (fun _ => Ret tt).

(** [Count] *)
Definition Count_obj (column : string) : ObjReducer :=
  mk_reducer (list value * TRow * Z)
    (fun group_key => (group_key, ∅, 0%Z))
    (fun '(group_key, new_row, count) row =>
       Get row (fun content =>
         lift_obj (if decide (new_row = ∅) then key_columns group_key content
              else Ok new_row)
             (fun new_row' => Ret (inl (group_key, new_row', (count + 1)%Z)))))
    (fun '(_, new_row, count) =>
       Make (<[column := VInt count]> new_row) (fun new => Emit new (Ret tt))).

(** [Sum] *)
Definition Sum_obj (column : string) : ObjReducer :=
  mk_reducer (list value * TRow * value)
    (fun group_key => (group_key, ∅, VInt 0))
    (fun '(group_key, new_row, s) row =>
       Get row (fun content =>
         lift_obj (if decide (new_row = ∅) then key_columns group_key content
              else Ok new_row)
             (fun new_row' =>
                lift_obj (getitem content column) (fun v =>
                  lift_obj (py_add s v) (fun s' =>
                    Ret (inl (group_key, new_row', s')))))))
    (fun '(_, new_row, s) =>
       Make (<[column := s]> new_row) (fun new => Emit new (Ret tt))).

(** [CountUnique] *)
Definition CountUnique_obj (column result_column : string) : ObjReducer :=
  mk_reducer (list value * TRow * gset value)
    (fun group_key => (group_key, ∅, ∅))
    (fun '(group_key, new_row, values_set) row =>
       Get row (fun content =>
         lift_obj (if decide (new_row = ∅) then
                match group_key with
                | [] => Ok new_row
                | _ => key_columns group_key content
                end
              else Ok new_row)
             (fun new_row' =>
                lift_obj (getitem content column) (fun v =>
                  if decide (v ∈ values_set) then
                    Ret (inl (group_key, new_row', values_set))
                  else
                    Ret (inl (group_key, new_row', {[ v ]} ∪ values_set))))))
    (fun '(_, new_row, values_set) =>
       Make (<[result_column := VInt (Z.of_nat (size values_set))]> new_row)
            (fun new => Emit new (Ret tt))).

(** [topn[idx] = row] on a list of dicts. *)
Definition setitem_obj (topn : list ref) (idx : nat) (row : ref)
  : result (list ref) :=
  if decide (idx < length topn)%nat then Ok (<[idx := row]> topn)
  else Err IndexError.

(** One turn of the loop of [TopN.__call__] on a dict with the content
    [content]. *)
Definition topn_turn (column_max : string) (n : Z) (heap : list heapq.item)
    (topn : list ref) (row : ref) (content : TRow)
  : result (list heapq.item * list ref) :=
  if bool_decide (Z.of_nat (length heap) < n)%Z then
    v ← getitem content column_max;
    heap' ← heapq.heappush heap (v, length heap);
    Ok (heap', topn ++ [row])
  else
    v ← getitem content column_max;
    least ← heapq.top heap;
    b ← py_lt least.1 v;
    if b : bool then
      heap' ← heapq.heapreplace heap (v, least.2);
      topn' ← setitem_obj topn least.2 row;
      Ok (heap', topn')
    else Ok (heap, topn).

(** [topn.sort(key=lambda row: row[column], reverse=True)]: the keys are
    taken first, from the dicts as they are then; the sort is stable. *)
Fixpoint sort_keys (column : string) (topn : list ref)
    (keyed : list (value * ref)) (next : list (value * ref) → TObjGenerator)
  : TObjGenerator :=
  match topn with
  | [] => next keyed
  | row :: rest =>
      Get row (fun content =>
        lift_obj (getitem content column) (fun v =>
          sort_keys column rest (keyed ++ [(v, row)]) next))
  end.

Fixpoint insert_desc_obj (x : value * ref) (sorted : list (value * ref))
  : result (list (value * ref)) :=
  match sorted with
  | [] => Ok [x]
  | y :: rest =>
      b ← py_lt x.1 y.1;
      if b : bool then (rest' ← insert_desc_obj x rest; Ok (y :: rest'))
      else Ok (x :: y :: rest)
  end.

Fixpoint sort_desc_obj (keyed : list (value * ref)) : result (list (value * ref)) :=
  match keyed with
  | [] => Ok []
  | x :: rest =>
      sorted ← sort_desc_obj rest;
      insert_desc_obj x sorted
  end.

(** [yield from lst] for a list of dicts. *)
Fixpoint emit_all {X : Type} (rows : list ref) (next : prog X) : prog X :=
  match rows with
  | [] => next
  | row :: rest => Emit row (emit_all rest next)
  end.

(** [TopN] *)
Definition TopN_obj (column : string) (n : Z) : ObjReducer :=
  mk_reducer (list heapq.item * list ref)
    (fun _ => ([], []))
    (fun '(heap, topn) row =>
       Get row (fun content =>
         lift_obj (topn_turn column n heap topn row content) (fun locals' =>
           Ret (inl locals'))))
    (fun '(_, topn) =>
       sort_keys column topn [] (fun keyed =>
         lift_obj (sort_desc_obj keyed) (fun sorted =>
           emit_all (snd <$> sorted) (Ret tt)))).

(** One turn of the reducer's loop on [row], then [go_on] with the locals of
    the next turn, or, after [break], the code after the loop and
    [stopped]. *)
Definition turn (reducer : ObjReducer) (state : locals reducer) (row : ref)
    (go_on : locals reducer → TObjGenerator) (stopped : TObjGenerator)
  : TObjGenerator :=
  bind (body reducer state row) (fun next =>
    match next with
    | inl state' => go_on state'
    | inr state' => bind (leave reducer state') (fun _ => stopped)
    end).

(** [yield from self.reducer((), rows)]: the call of [Reduce] with an empty
    key list. After a [break] the input is not pulled again. *)
Fixpoint reduce_all (reducer : ObjReducer) (state : locals reducer)
    (rows : TObjGenerator) : TObjGenerator :=
  match rows with
  | Ret _ => leave reducer state
  | Throw e => Throw e
  | Emit row rest =>
      turn reducer state row (fun state' => reduce_all reducer state' rest) (Ret tt)
  | Get r next => Get r (fun content => reduce_all reducer state (next content))
  | Put r content next => Put r content (reduce_all reducer state next)
  | Make content next => Make content (fun l => reduce_all reducer state (next l))
  end.

(** Where the loop [for key, group in groupby(rows, key=...)] of [Reduce]
    stands when it pulls a row: before the first group, inside the loop of
    the reducer over the group of key [k], or skipping the rows of the group
    of key [k] that the reducer has left. *)
Inductive reducing (reducer : ObjReducer) :=
  | BeforeGroups
  | InGroup (k : list value) (state : locals reducer)
  | SkipGroup (k : list value).

Arguments BeforeGroups {reducer}.
Arguments InGroup {reducer} k state.
Arguments SkipGroup {reducer} k.

(** The loop of [Reduce.__call__] with a non-empty key list. [groupby] takes
    the key of a row when it pulls the row; a row with another key ends the
    group, so the reducer runs the code after its loop, and opens the next
    group, in which it is the first row. *)
Fixpoint reduce_groups_obj (reducer : ObjReducer) (keys : list string)
    (at_row : reducing reducer) (rows : TObjGenerator) : TObjGenerator :=
  match rows with
  | Ret _ =>
      match at_row with
      | InGroup _ state => leave reducer state
      | _ => Ret tt
      end
  | Throw e => Throw e
  | Emit row rest =>
      Get row (fun content =>
        lift_obj (key_tuple keys content) (fun k' =>
          let new_group :=
            turn reducer (enter reducer (VStr <$> keys)) row
                 (fun state' => reduce_groups_obj reducer keys (InGroup k' state') rest)
                 (reduce_groups_obj reducer keys (SkipGroup k') rest) in
          match at_row with
          | BeforeGroups => new_group
          | InGroup k state =>
              if decide (k' = k) then
                turn reducer state row
                     (fun state' =>
                        reduce_groups_obj reducer keys (InGroup k state') rest)
                     (reduce_groups_obj reducer keys (SkipGroup k) rest)
              else bind (leave reducer state) (fun _ => new_group)
          | SkipGroup k =>
              if decide (k' = k) then
                reduce_groups_obj reducer keys (SkipGroup k) rest
              else new_group
          end))
  | Get r next =>
      Get r (fun content => reduce_groups_obj reducer keys at_row (next content))
  | Put r content next => Put r content (reduce_groups_obj reducer keys at_row next)
  | Make content next =>
      Make content (fun l => reduce_groups_obj reducer keys at_row (next l))
  end.

(** [Reduce.__call__] *)
Definition Reduce_obj (reducer : ObjReducer) (keys : list string)
    (rows : TObjGenerator) : TObjGenerator :=
  match keys with
  | [] => reduce_all reducer (enter reducer []) rows
  | _ => reduce_groups_obj reducer keys BeforeGroups rows
  end.

(** *** External sort *)

(** The rows of a generator by value, as new dicts. *)
Fixpoint emit_new (rows : TRowsGenerator) : TObjGenerator :=
  match rows with
  | Done => Ret tt
  | Raise e => Throw e
  | Yield row rest => Make row (fun new => Emit new (emit_new rest))
  end.

(** Modelled from the spec: the external sort of section 4.5 on dicts;
    [external_sort.py] is missing. The rows are read as they are pulled, the
    input is pulled to its end before the first row comes out, and, the runs
    being spilled to storage, the rows that come out are new dicts. *)
Fixpoint ExternalSort_obj (run_size : nat) (keys : list string)
    (seen : list TRow) (rows : TObjGenerator) : TObjGenerator :=
  match rows with
  | Ret _ => emit_new (ExternalSort run_size keys (from_list seen))
  | Throw e => Throw e
  | Emit row rest =>
      Get row (fun content => ExternalSort_obj run_size keys (seen ++ [content]) rest)
  | Get r next =>
      Get r (fun content => ExternalSort_obj run_size keys seen (next content))
  | Put r content next => Put r content (ExternalSort_obj run_size keys seen next)
  | Make content next =>
      Make content (fun l => ExternalSort_obj run_size keys seen (next l))
  end.

(** *** Join *)

Inductive input := InputA | InputB.

#[global] Instance input_eq_dec : EqDecision input.
Proof. solve_decision. Defined.

(** What a [groupby] object holds between two pulls: nothing yet; the first
    row [r] of the group of key [k], which its group iterator has not given
    out yet; the group of key [k], with nothing held; the row [r'] of key
    [k'] that ended the group of key [k]; or the end of its input. *)
Inductive grouping :=
  | Unopened
  | Held (k : list value) (r : ref)
  | Mid (k : list value)
  | Pending (k k' : list value) (r' : ref)
  | Over.

(** The loop that pulls from an input of [Join]:
    - [Opening]: [next(groupby)] for the first group;
    - [Skipping]: [next(groupby)] over the rows of a group that the joiner
      has not pulled;
    - [Passing]: [yield from rows] in a joiner;
    - [Collecting acc matched]: [list(rows)] in a joiner, [acc] the rows so
      far, [matched] when the other group is not empty;
    - [Joining lst columns]: [for row in rows_a] in [join_both]. *)
Inductive pulling :=
  | Opening
  | Skipping
  | Passing
  | Collecting (acc : list ref) (matched : bool)
  | Joining (lst : list ref) (columns : gset string * gset string * gset string).

(** Where [Join.__call__] stands when it pulls a row: the input, the loop
    that pulls, and what the two [groupby] objects hold. *)
Inductive joining :=
  | Pull (side : input) (what : pulling) (ga gb : grouping)
  | Finished.

Definition the_other (side : input) : input :=
  match side with
  | InputA => InputB
  | InputB => InputA
  end.

Definition grouping_of (side : input) (ga gb : grouping) : grouping :=
  match side with
  | InputA => ga
  | InputB => gb
  end.

Definition with_grouping (side : input) (g : grouping) (ga gb : grouping)
  : grouping * grouping :=
  match side with
  | InputA => (g, gb)
  | InputB => (ga, g)
  end.

Definition pull_from (side : input) (what : pulling) (gs : grouping * grouping)
  : joining :=
  Pull side what gs.1 gs.2.

(** [next(groupby)] when the group before has been pulled to its end: the row
    that ended it opens the next group. *)
Definition opened (g : grouping) : grouping :=
  match g with
  | Pending _ k' r' => Held k' r'
  | _ => g
  end.

Section join.

Context (strategy_ : strategy) (a_suffix b_suffix : string) (keys : list string).

(** [Joiner.join_row_list] on dicts: the rows are read for every new row. *)
Fixpoint join_row_list_obj {X : Type} (row : ref) (lst : list ref)
    (columns : gset string * gset string * gset string) (next : prog X) : prog X :=
  match lst with
  | [] => next
  | row_b :: rest =>
      Get row (fun content_a =>
        Get row_b (fun content_b =>
          lift_obj (join_row a_suffix b_suffix content_a content_b columns)
              (fun new_row =>
                 Make new_row (fun new =>
                   Emit new (join_row_list_obj row rest columns next)))))
  end.

(** The call of the joiner on a group without a partner, up to its first
    pull: [joiner(keys, group, iter([]))] for a group of the left input,
    [joiner(keys, iter([]), group)] for a group of the right input. The group
    has the key [k] and [groupby] holds its first row [r].
    - [InnerJoiner]: [list(rows_b)], then nothing; a left group is not
      pulled at all, and [next(groupby_a)] skips it;
    - [OuterJoiner]: [yield from rows_a] for a left group; [list(rows_b)],
      then [yield from list_b] for a right group;
    - [LeftJoiner]: [yield from rows_a] for a left group; [list(rows_b)],
      then nothing, for a right group;
    - [RightJoiner]: [list(rows_a)], then nothing, for a left group;
      [yield from rows_b] for a right group. *)
Definition unmatched (side : input) (k : list value) (r : ref)
    (ga gb : grouping) : prog joining :=
  match strategy_, side with
  | Inner, InputA => Ret (Pull InputA Skipping ga gb)
  | Outer, InputA | Left, InputA =>
      Emit r (Ret (pull_from InputA Passing (with_grouping InputA (Mid k) ga gb)))
  | Right, InputA | Inner, InputB | Outer, InputB | Left, InputB =>
      Ret (pull_from side (Collecting [r] false) (with_grouping side (Mid k) ga gb))
  | Right, InputB =>
      Emit r (Ret (pull_from InputB Passing (with_grouping InputB (Mid k) ga gb)))
  end.

(** The head of the loops of [Join.__call__], with the groups that the two
    [next(groupby)] have given, or [None] at the end of an input: the
    comparison of the two keys and the call of the joiner up to its first
    pull. For two groups with the same key the joiner starts with
    [list(rows_b)], [RightJoiner] with [list(rows_a)]. *)
Definition at_head (ga gb : grouping) : prog joining :=
  match opened ga, opened gb with
  | Held ka a, Held kb b =>
      lift_obj (tuple_lt ka kb) (fun a_less : bool =>
        if a_less then unmatched InputA ka a (Held ka a) (Held kb b)
        else
          lift_obj (tuple_lt kb ka) (fun b_less : bool =>
            if b_less then unmatched InputB kb b (Held ka a) (Held kb b)
            else
              match strategy_ with
              | Right => Ret (Pull InputA (Collecting [a] true) (Mid ka) (Held kb b))
              | _ => Ret (Pull InputB (Collecting [b] true) (Held ka a) (Mid kb))
              end))
  | Held ka a, Over => unmatched InputA ka a (Held ka a) Over
  | Over, Held kb b => unmatched InputB kb b Over (Held kb b)
  | _, _ => Ret Finished
  end.

(** The group that [side] was pulled for is over ([ga] and [gb] say so
    already): the rest of the call of the joiner, and the head of the loop.
    After [list(rows)] of a matched group, [join_both] takes the columns from
    the first row of the other group and the first row of the list, combines
    that first row with the list, and goes on with the loop over the other
    group. *)
Definition group_over (side : input) (what : pulling) (ga gb : grouping)
  : prog joining :=
  match what with
  | Opening =>
      match side with
      | InputA => Ret (Pull InputB Opening ga gb)
      | InputB => at_head ga gb
      end
  | Skipping | Passing | Joining _ _ => at_head ga gb
  | Collecting acc false =>
      match strategy_, side with
      | Outer, InputB => emit_all acc (at_head ga gb)
      | _, _ => at_head ga gb
      end
  | Collecting acc true =>
      match grouping_of (the_other side) ga gb, acc with
      | Held k row, first :: _ =>
          Get row (fun content =>
            Get first (fun content_first =>
              let columns := separate_columns content content_first keys in
              join_row_list_obj row acc columns
                (Ret (pull_from (the_other side) (Joining acc columns)
                        (with_grouping (the_other side) (Mid k) ga gb)))))
      | _, _ => Ret Finished
      end
  end.

(** The input [side] has given the row [r], whose key is [k']. *)
Definition on_row (side : input) (what : pulling) (ga gb : grouping)
    (k' : list value) (r : ref) : prog joining :=
  match what, grouping_of side ga gb with
  | Opening, _ =>
      group_over side Opening (with_grouping side (Held k' r) ga gb).1
                 (with_grouping side (Held k' r) ga gb).2
  | _, Held k _ | _, Mid k =>
      if decide (k' = k) then
        match what with
        | Passing => Emit r (Ret (Pull side what ga gb))
        | Collecting acc matched =>
            Ret (Pull side (Collecting (acc ++ [r]) matched) ga gb)
        | Joining lst columns =>
            join_row_list_obj r lst columns (Ret (Pull side what ga gb))
        | _ => Ret (Pull side what ga gb)
        end
      else
        group_over side what (with_grouping side (Pending k k' r) ga gb).1
                   (with_grouping side (Pending k k' r) ga gb).2
  | _, _ => Ret Finished
  end.

(** The input [side] has ended. *)
Definition on_end (side : input) (what : pulling) (ga gb : grouping)
  : prog joining :=
  group_over side what (with_grouping side Over ga gb).1
             (with_grouping side Over ga gb).2.

(** [Join.__call__] when one input has ended: only [side] is pulled. *)
Fixpoint join_tail (side : input) (at_row : joining) (rows : TObjGenerator)
  : TObjGenerator :=
  match at_row with
  | Finished => Ret tt
  | Pull side' what ga gb =>
      if negb (bool_decide (side' = side)) then Ret tt
      else
      match rows with
      | Ret _ => bind (on_end side what ga gb) (fun _ => Ret tt)
      | Throw e => Throw e
      | Emit row rest =>
          Get row (fun content =>
            lift_obj (key_tuple keys content) (fun k' =>
              bind (on_row side what ga gb k' row) (fun at_row' =>
                join_tail side at_row' rest)))
      | Get r next => Get r (fun content => join_tail side at_row (next content))
      | Put r content next => Put r content (join_tail side at_row next)
      | Make content next => Make content (fun l => join_tail side at_row (next l))
      end
  end.

(** [Join.__call__]: the key of a row is taken when the row is pulled, and
    each input is pulled only when the loops of [Join] and of the joiner ask
    for its next row. *)
Fixpoint join_loop (rows_a : TObjGenerator)
  : joining → TObjGenerator → TObjGenerator :=
  fix pull_b (at_row : joining) (rows_b : TObjGenerator) : TObjGenerator :=
    match at_row with
    | Finished => Ret tt
    | Pull InputA what ga gb =>
        match rows_a with
        | Ret _ =>
            bind (on_end InputA what ga gb) (fun at_row' =>
              join_tail InputB at_row' rows_b)
        | Throw e => Throw e
        | Emit row rest =>
            Get row (fun content =>
              lift_obj (key_tuple keys content) (fun k' =>
                bind (on_row InputA what ga gb k' row) (fun at_row' =>
                  join_loop rest at_row' rows_b)))
        | Get r next => Get r (fun content => join_loop (next content) at_row rows_b)
        | Put r content next => Put r content (join_loop next at_row rows_b)
        | Make content next => Make content (fun l => join_loop (next l) at_row rows_b)
        end
    | Pull InputB what ga gb =>
        match rows_b with
        | Ret _ =>
            bind (on_end InputB what ga gb) (fun at_row' =>
              join_tail InputA at_row' rows_a)
        | Throw e => Throw e
        | Emit row rest =>
            Get row (fun content =>
              lift_obj (key_tuple keys content) (fun k' =>
                bind (on_row InputB what ga gb k' row) (fun at_row' =>
                  pull_b at_row' rest)))
        | Get r next => Get r (fun content => pull_b at_row (next content))
        | Put r content next => Put r content (pull_b at_row next)
        | Make content next => Make content (fun l => pull_b at_row (next l))
        end
    end.

(** [Join.__call__] with one of the four joiners of the library. *)
Definition Join_obj (rows_a rows_b : TObjGenerator) : TObjGenerator :=
  join_loop rows_a (Pull InputA Opening Unopened Unopened) rows_b.

End join.

(** *** Graph *)

Inductive ObjOperation :=
  | ObjRead (name : string)
  | ObjMap (mapper : ObjMapper) (pipeline : ObjOperation)
  | ObjReduce (reducer : ObjReducer) (keys : list string) (pipeline : ObjOperation)
  | ObjSort (run_size : nat) (keys : list string) (pipeline : ObjOperation)
  | ObjJoin (joiner : strategy) (a_suffix b_suffix : string) (keys : list string)
            (graph_one graph_two : ObjOperation).

(** The keyword arguments of [run]: for each source name the dicts that its
    factory hands out, as places in [data]; the same dict may be handed out
    more than once. *)
Abbreviation TObjSources := (gmap string (list nat)).

(** The generator that [Graph.run( **kwargs )] returns. *)
Fixpoint pipeline_obj (graph : ObjOperation) (kwargs : TObjSources) : TObjGenerator :=
  match graph with
  | ObjRead name =>
      match kwargs !! name with
      | Some rows => emit_all (Obj <$> rows) (Ret tt)
      | None => Throw (KeyError (VStr name))
      end
  | ObjMap mapper pipeline => Map_obj mapper (pipeline_obj pipeline kwargs)
  | ObjReduce reducer keys pipeline =>
      Reduce_obj reducer keys (pipeline_obj pipeline kwargs)
  | ObjSort run_size keys pipeline =>
      ExternalSort_obj run_size keys [] (pipeline_obj pipeline kwargs)
  | ObjJoin joiner a_suffix b_suffix keys graph_one graph_two =>
      Join_obj joiner a_suffix b_suffix keys
               (pipeline_obj graph_one kwargs) (pipeline_obj graph_two kwargs)
  end.

(** The outcome of [list(graph.run( **kwargs ))] on the caller's dicts
    [rows]: the dicts of the result list (those yielded before an exception,
    if the run raises), the store after the run, and the exception. *)
Record outcome := mk_outcome {
  yielded : list ref;
  store_after : store;
  failure : option exn
}.

Definition run_obj (graph : ObjOperation) (kwargs : TObjSources) (rows : list TRow)
  : outcome :=
  let '(out, st, res) := exec (pipeline_obj graph kwargs) (mk_store rows []) in
  mk_outcome out st (match res with Ok _ => None | Err e => Some e end).

(** The rows that the caller sees in the result list, read after the run,
    and the exception, if any. *)
Definition results (o : outcome) : list TRow * option exn :=
  (read (store_after o) <$> yielded o, failure o).

(** The caller's dicts after the run. *)
Definition data_after (o : outcome) : list TRow := data (store_after o).

(** A generator that assigns to no dict. *)
Inductive reads_only {X : Type} : prog X → Prop :=
  | reads_only_Ret x : reads_only (Ret x)
  | reads_only_Throw e : reads_only (Throw e)
  | reads_only_Emit r next : reads_only next → reads_only (Emit r next)
  | reads_only_Get r next : (∀ content, reads_only (next content)) →
                            reads_only (Get r next)
  | reads_only_Make row next : (∀ l, reads_only (next l)) →
                               reads_only (Make row next).

(** A reducer that assigns to no dict. *)
Definition reducer_reads_only (reducer : ObjReducer) : Prop :=
  (∀ state row, reads_only (body reducer state row))
  ∧ (∀ state, reads_only (leave reducer state)).

(** No mapper and no reducer of the pipeline assigns to a dict. *)
Fixpoint never_assigns (graph : ObjOperation) : Prop :=
  match graph with
  | ObjRead _ => True
  | ObjMap mapper pipeline =>
      (∀ row, reads_only (mapper row)) ∧ never_assigns pipeline
  | ObjReduce reducer _ pipeline =>
      reducer_reads_only reducer ∧ never_assigns pipeline
  | ObjSort _ _ pipeline => never_assigns pipeline
  | ObjJoin _ _ _ _ graph_one graph_two =>
      never_assigns graph_one ∧ never_assigns graph_two
  end.

(** * Properties *)

(** ** Generators *)

Lemma yield_from_Done g : yield_from g Done = g.
Proof. induction g; simpl; congruence. Qed.

Lemma yield_from_assoc g1 g2 g3 :
  yield_from (yield_from g1 g2) g3 = yield_from g1 (yield_from g2 g3).
Proof. induction g1; simpl; congruence. Qed.

Lemma from_list_app l1 l2 :
  from_list (l1 ++ l2) = yield_from (from_list l1) (from_list l2).
Proof. induction l1; simpl; congruence. Qed.

Lemma emitted_from_list l : emitted (from_list l) = l.
Proof. induction l; simpl; congruence. Qed.

Lemma raised_from_list l : raised (from_list l) = None.
Proof. induction l; simpl; congruence. Qed.

Lemma chain_app gs1 gs2 : chain (gs1 ++ gs2) = yield_from (chain gs1) (chain gs2).
Proof.
  induction gs1 as [|g gs1 IH]; simpl; [done|].
  by rewrite IH, yield_from_assoc.
Qed.

(** ** Map *)

Lemma Map_yield_from mapper g1 g2 :
  Map mapper (yield_from g1 g2) = yield_from (Map mapper g1) (Map mapper g2).
Proof.
  induction g1 as [|row rest IH|e]; simpl; [done| |done].
  by rewrite IH, yield_from_assoc.
Qed.

Lemma Map_from_list mapper rows :
  Map mapper (from_list rows) = chain (mapper <$> rows).
Proof. induction rows as [|row rows IH]; csimpl; congruence. Qed.

(** C9: [Map] runs the mapper on each input row on its own, in input order,
    and yields the rows of the successive calls one call after the other
    (what it does on a sequence is what it does on its parts); with a mapper
    that yields exactly one row [f row] for each input row, the output is
    [f] applied along the input, so it has the length and the order of the
    input. *)
Theorem Map_row_by_row (mapper : Mapper) (rows : list TRow) :
  Map mapper (from_list rows) = chain (mapper <$> rows)
  ∧ (∀ rows1 rows2, rows = rows1 ++ rows2 →
       Map mapper (from_list rows)
       = yield_from (Map mapper (from_list rows1)) (Map mapper (from_list rows2)))
  ∧ (∀ f : TRow → TRow,
       (∀ row, row ∈ rows → mapper row = Yield (f row) Done) →
       Map mapper (from_list rows) = from_list (f <$> rows)
       ∧ length (emitted (Map mapper (from_list rows))) = length rows
       ∧ ∀ i row, rows !! i = Some row →
           emitted (Map mapper (from_list rows)) !! i = Some (f row)).
Proof.
  split; [apply Map_from_list|]. split.
  - intros rows1 rows2 ->. by rewrite from_list_app, Map_yield_from.
  - intros f Hone.
    assert (Map mapper (from_list rows) = from_list (f <$> rows)) as Heq.
    { induction rows as [|row rows IH]; csimpl; [done|].
      rewrite Hone by apply list_elem_of_here. simpl.
      f_equal. apply IH. intros row' Hin. apply Hone. by apply list_elem_of_further. }
    rewrite Heq, emitted_from_list. split; [done|]. split.
    + by rewrite length_fmap.
    + intros i row Hi. by rewrite list_lookup_fmap, Hi.
Qed.

Lemma Map_row_by_row_witness :
  let rows : list TRow := [{["one" := VInt 1]}; {["three" := VInt 3]}] in
  Map DummyMapper (from_list rows) = from_list (id <$> rows).
Proof.
  intros rows.
  apply (proj2 (proj2 (Map_row_by_row DummyMapper rows)) id).
  intros row _. reflexivity.
Defined.

(** ** Grouping *)

Lemma key_of_ok keys row k : key_tuple keys row = Ok k → key_of keys row = k.
Proof. unfold key_of. by intros ->. Qed.

Lemma has_keys_key_of keys row :
  has_keys keys row → key_tuple keys row = Ok (key_of keys row).
Proof. unfold has_keys, key_of. by destruct (key_tuple keys row). Qed.

Lemma runs_head keys rows k g gs :
  runs keys rows = (k, g) :: gs →
  ∃ row rest, rows = row :: rest ∧ k = key_of keys row.
Proof.
  destruct rows as [|row rest]; simpl; [done|].
  intros H. exists row, rest. split; [done|].
  destruct (runs keys rest) as [|[k' g'] gs']; [congruence|].
  case_decide; congruence.
Qed.

Lemma runs_nil keys rows : runs keys rows = [] → rows = [].
Proof.
  destruct rows as [|row rest]; simpl; [done|].
  destruct (runs keys rest) as [|[k' g'] gs']; [done|]. by case_decide.
Qed.

Lemma groupby_from_list keys rows :
  Forall (has_keys keys) rows →
  groupby keys (from_list rows) = groups_of (runs keys rows).
Proof.
  induction 1 as [|row rows Hrow _ IH]; simpl; [done|].
  rewrite (has_keys_key_of _ _ Hrow), IH.
  destruct (runs keys rows) as [|[k' g'] gs']; simpl; [done|].
  case_decide; simpl; congruence.
Qed.

Lemma rows_of_app gs1 gs2 : rows_of (gs1 ++ gs2) = rows_of gs1 ++ rows_of gs2.
Proof. unfold rows_of. by rewrite fmap_app, concat_app. Qed.

Lemma rows_of_runs keys rows : rows_of (runs keys rows) = rows.
Proof.
  induction rows as [|row rows IH]; simpl; [done|].
  destruct (runs keys rows) as [|[k' g'] gs'] eqn:E.
  - apply runs_nil in E. by subst.
  - case_decide; unfold rows_of in *; simpl in *; congruence.
Qed.

Lemma runs_contiguous keys rows :
  Forall (has_keys keys) rows → contiguous_groups keys rows (runs keys rows).
Proof.
  intros Hk. split; [apply rows_of_runs|].
  induction Hk as [|row rows Hrow _ [IH1 IH2]]; simpl; [by split|].
  pose proof (has_keys_key_of _ _ Hrow) as Hkey.
  destruct (runs keys rows) as [|[k' g'] gs'] eqn:E; simpl.
  - split; [|done]. constructor; [|done]. simpl. split; [done|]. by constructor.
  - inversion IH1 as [|? ? [Hne Hall] Hrest]; subst. simpl in *.
    case_decide as Hd; simpl.
    + split; [|done]. constructor; [|done]. simpl. split; [done|].
      constructor; [congruence|done].
    + split; [|done]. constructor; [|by constructor]. simpl. split; [done|].
      by constructor.
Qed.

Lemma runs_block keys k g rest :
  g ≠ [] →
  Forall (fun row => key_tuple keys row = Ok k) g →
  match runs keys rest with (k2, _) :: _ => k ≠ k2 | [] => True end →
  runs keys (g ++ rest) = (k, g) :: runs keys rest.
Proof.
  intros Hne Hg Hk. induction g as [|row g IHg]; [done|].
  inversion Hg as [|? ? Hrow Hg']; subst. apply key_of_ok in Hrow.
  destruct g as [|row' g].
  - simpl. rewrite Hrow. destruct (runs keys rest) as [|[k2 g2] gs2]; [done|].
    by case_decide.
  - change ((row :: row' :: g) ++ rest) with (row :: ((row' :: g) ++ rest)).
    cbn [runs]. rewrite (IHg ltac:(done) Hg'), Hrow. by case_decide.
Qed.

Lemma contiguous_groups_unique keys rows gs :
  contiguous_groups keys rows gs → gs = runs keys rows.
Proof.
  intros (Hrows & Hall & Hadj). subst rows.
  induction gs as [|[k g] gs IH]; [done|].
  inversion Hall as [|? ? [Hne Hg] Hrest]; subst. simpl in *.
  destruct Hadj as [Hk Hadj]. specialize (IH Hrest Hadj).
  change (rows_of ((k, g) :: gs)) with (g ++ rows_of gs).
  rewrite (runs_block keys k); [congruence|done|done|].
  rewrite <- IH. by destruct gs as [|[k2 g2] gs2].
Qed.

Lemma grouper_groups_of g gs : grouper g (groups_of gs) = from_list g.
Proof.
  unfold grouper. destruct gs as [|[k' g'] gs]; simpl; apply yield_from_Done.
Qed.

Lemma reduce_groups_of reducer group_key gs :
  reduce_groups reducer group_key (groups_of gs)
  = chain ((fun kg => reducer group_key (from_list kg.2)) <$> gs).
Proof.
  induction gs as [|[k g] gs IH]; csimpl; [done|].
  by rewrite grouper_groups_of, IH.
Qed.

(** C3 (as the code has it): over a stream of rows that all carry the key
    columns, [Reduce] with a non-empty key list calls the reducer exactly once
    for each contiguous group, in order; the first argument of every call is
    the tuple of the key column names, the second the rows of the group. The
    groups are the unique division of the input into maximal runs. *)
Theorem Reduce_once_per_group (reducer : Reducer) (keys : list string)
    (rows : list TRow) :
  keys ≠ [] →
  Forall (has_keys keys) rows →
  ∃ gs, contiguous_groups keys rows gs
        ∧ (∀ gs', contiguous_groups keys rows gs' → gs' = gs)
        ∧ Reduce reducer keys (from_list rows)
          = chain ((fun kg => reducer (VStr <$> keys) (from_list kg.2)) <$> gs).
Proof.
  intros Hne Hk. exists (runs keys rows).
  split; [by apply runs_contiguous|]. split; [apply contiguous_groups_unique|].
  unfold Reduce. destruct keys as [|col cols]; [done|].
  by rewrite groupby_from_list, reduce_groups_of.
Qed.

Lemma Reduce_once_per_group_witness :
  ∃ gs, contiguous_groups ["a"] [{["a" := VInt 1]}; {["a" := VInt 2]}] gs
        ∧ Reduce FirstReducer ["a"] (from_list [{["a" := VInt 1]}; {["a" := VInt 2]}])
          = chain ((fun kg => FirstReducer [VStr "a"] (from_list kg.2)) <$> gs).
Proof.
  destruct (Reduce_once_per_group FirstReducer ["a"]
              [{["a" := VInt 1]}; {["a" := VInt 2]}]) as (gs & H1 & _ & H2).
  - discriminate.
  - repeat constructor.
  - exists gs. split; assumption.
Defined.

(** C3 (as stated) fails: the reducer does not receive the values of the key
    columns. On the one-row stream [{a: 1}] grouped by [a], whose key tuple is
    [(1,)], [Reduce] behaves as the call [Count('n')(('a',), group)] and not
    as the call [Count('n')((1,), group)]. *)
Lemma Reduce_group_key_not_values :
  let row : TRow := {["a" := VInt 1]} in
  key_tuple ["a"] row = Ok [VInt 1]
  ∧ Reduce (Count "n") ["a"] (from_list [row]) = Count "n" [VStr "a"] (from_list [row])
  ∧ Reduce (Count "n") ["a"] (from_list [row]) ≠ Count "n" [VInt 1] (from_list [row])
  ∧ ¬ (∀ reducer : Reducer,
         Reduce reducer ["a"] (from_list [row]) = reducer [VInt 1] (from_list [row])).
Proof.
  intros row. split; [reflexivity|]. split; [reflexivity|]. split.
  - vm_compute. discriminate.
  - intros H. specialize (H (Count "n")). vm_compute in H. discriminate.
Qed.

Lemma runs_app keys l1 l2 :
  (∀ x y, last l1 = Some x → head l2 = Some y → key_of keys x ≠ key_of keys y) →
  runs keys (l1 ++ l2) = runs keys l1 ++ runs keys l2.
Proof.
  induction l1 as [|row l1 IH]; intros Hb; [done|].
  destruct (decide (l1 = [])) as [->|Hne].
  - simpl. destruct (runs keys l2) as [|[k' g] gs] eqn:E; [done|].
    apply runs_head in E as (y & rest & -> & ->).
    case_decide as Hd; [|done]. exfalso. by apply (Hb row y).
  - simpl. rewrite IH.
    2: { intros x y Hx. apply Hb. destruct l1; [done|]. by rewrite last_cons, Hx. }
    destruct (runs keys l1) as [|[k' g] gs] eqn:E.
    { by apply runs_nil in E. }
    simpl. by case_decide.
Qed.

Lemma split_key_suffix keys K (l : list TRow) :
  ∃ l1 g, l = l1 ++ g
          ∧ Forall (fun row => key_of keys row = K) g
          ∧ ∀ x, last l1 = Some x → key_of keys x ≠ K.
Proof.
  induction l as [|x l IH] using rev_ind.
  - exists [], []. by repeat split.
  - destruct (decide (key_of keys x = K)) as [Hx|Hx].
    + destruct IH as (l1 & g & -> & Hg & Hl). exists l1, (g ++ [x]).
      split; [by rewrite app_assoc|]. split; [|done].
      apply Forall_app. split; [done|]. by constructor.
    + exists (l ++ [x]), []. split; [by rewrite app_nil_r|]. split; [done|].
      intros y. rewrite last_snoc. congruence.
Qed.

Lemma split_key_prefix keys K (l : list TRow) :
  ∃ g l2, l = g ++ l2
          ∧ Forall (fun row => key_of keys row = K) g
          ∧ ∀ y, head l2 = Some y → key_of keys y ≠ K.
Proof.
  induction l as [|x l IH].
  - exists [], []. by repeat split.
  - destruct (decide (key_of keys x = K)) as [Hx|Hx].
    + destruct IH as (g & l2 & -> & Hg & Hl). exists (x :: g), l2.
      split; [done|]. split; [by constructor|done].
    + exists [], (x :: l). split; [done|]. split; [done|].
      simpl. congruence.
Qed.

Lemma head_block {A} (P : A → Prop) (g r : list A) y :
  Forall P g → g ≠ [] → head (g ++ r) = Some y → P y.
Proof.
  destruct g as [|x g]; [done|]. intros Hg _ [= <-]. by inversion Hg.
Qed.

Lemma last_block {A} (P : A → Prop) (g : list A) x :
  Forall P g → last g = Some x → P x.
Proof.
  intros Hg Hl. apply last_Some in Hl as [l' ->].
  apply Forall_app in Hg as [_ Hg]. by inversion Hg.
Qed.

Lemma Forall_key_of keys K g :
  Forall (has_keys keys) g →
  Forall (fun row => key_of keys row = K) g →
  Forall (fun row => key_tuple keys row = Ok K) g.
Proof.
  intros H1 H2. induction H1 as [|row g Hrow _ IH]; [done|].
  inversion H2; subst. constructor; [|by apply IH].
  by apply has_keys_key_of.
Qed.

(** The division of a stream around two rows with the same key tuple that a
    row with another key tuple separates. *)
Lemma runs_separated keys pre a mid b post K c :
  key_of keys a = K → key_of keys b = K →
  c ∈ mid → key_of keys c ≠ K →
  ∃ gs1 ga1 ga2 gs2 gb1 gb2 gs3,
    runs keys (pre ++ a :: mid ++ b :: post)
    = gs1 ++ (K, ga1 ++ a :: ga2) :: gs2 ++ (K, gb1 ++ b :: gb2) :: gs3
    ∧ pre = rows_of gs1 ++ ga1
    ∧ mid = ga2 ++ rows_of gs2 ++ gb1
    ∧ post = gb2 ++ rows_of gs3
    ∧ gs2 ≠ []
    ∧ Forall (fun row => key_of keys row = K) (ga1 ++ a :: ga2)
    ∧ Forall (fun row => key_of keys row = K) (gb1 ++ b :: gb2).
Proof.
  intros Ha Hb Hc HcK.
  destruct (split_key_suffix keys K pre) as (p1 & ga1 & -> & Hga1 & Hp1).
  destruct (split_key_prefix keys K mid) as (ga2 & m2 & -> & Hga2 & Hm2).
  destruct (split_key_suffix keys K m2) as (m2' & gb1 & -> & Hgb1 & Hm2').
  destruct (split_key_prefix keys K post) as (gb2 & s3 & -> & Hgb2 & Hs3).
  assert (c ∈ m2') as Hcm.
  { apply elem_of_app in Hc as [Hc|Hc].
    - by apply (proj1 (Forall_forall _ _) Hga2) in Hc.
    - apply elem_of_app in Hc as [Hc|Hc]; [done|].
      by apply (proj1 (Forall_forall _ _) Hgb1) in Hc. }
  assert (m2' ≠ []) as Hne by (intros ->; by apply not_elem_of_nil in Hcm).
  set (Ga := ga1 ++ a :: ga2). set (Gb := gb1 ++ b :: gb2).
  assert (Forall (fun row => key_of keys row = K) Ga) as HGa.
  { apply Forall_app. split; [done|]. by constructor. }
  assert (Forall (fun row => key_of keys row = K) Gb) as HGb.
  { apply Forall_app. split; [done|]. by constructor. }
  assert (Ga ≠ []) as HGane by (unfold Ga; by destruct ga1).
  assert (Gb ≠ []) as HGbne by (unfold Gb; by destruct gb1).
  exists (runs keys p1), ga1, ga2, (runs keys m2'), gb1, gb2, (runs keys s3).
  rewrite !rows_of_runs.
  split; [|split; [done|split; [done|split; [done|split; [|done]]]]].
  2: { intros E. by apply runs_nil in E. }
  replace ((p1 ++ ga1) ++ a :: (ga2 ++ m2' ++ gb1) ++ b :: gb2 ++ s3)
    with (p1 ++ (Ga ++ (m2' ++ (Gb ++ s3)))).
  2: { unfold Ga, Gb. by rewrite <- !app_assoc. }
  assert (∀ g rest, Forall (fun row => key_of keys row = K) g → g ≠ [] →
            (∀ y, head rest = Some y → key_of keys y ≠ K) →
            runs keys (g ++ rest) = (K, g) :: runs keys rest) as Hblock.
  { intros g rest Hg Hgne Hrest.
    induction g as [|row g IHg]; [done|]. inversion Hg as [|? ? Hrow Hg']; subst.
    destruct (decide (g = [])) as [->|Hgne'].
    - simpl. destruct (runs keys rest) as [|[k2 g2] gs2] eqn:E; [by rewrite Hrow|].
      apply runs_head in E as (y & rest' & -> & ->).
      case_decide as Hd; [|by rewrite Hrow]. exfalso. apply (Hrest y); [done|congruence].
    - simpl. rewrite (IHg Hg' Hgne'). by case_decide. }
  rewrite runs_app.
  2: { intros x y Hx Hy. apply Hp1 in Hx.
       apply (head_block _ _ _ _ HGa HGane) in Hy. congruence. }
  f_equal. rewrite Hblock; [|done|done|].
  2: { intros y Hy. apply Hm2. by destruct m2'. }
  f_equal. rewrite runs_app.
  2: { intros x y Hx Hy. apply Hm2' in Hx.
       apply (head_block _ _ _ _ HGb HGbne) in Hy. congruence. }
  f_equal. by rewrite Hblock.
Qed.

Lemma chain_one_row (reducer : Reducer) group_key (f : list TRow → TRow)
    (gs : keyed_groups) :
  Forall (fun kg => reducer group_key (from_list kg.2) = Yield (f kg.2) Done) gs →
  chain ((fun kg => reducer group_key (from_list kg.2)) <$> gs)
  = from_list ((fun kg => f kg.2) <$> gs).
Proof.
  induction 1 as [|kg gs Hkg _ IH]; csimpl; [done|].
  by rewrite Hkg, IH.
Qed.

(** C7: grouping in [Reduce] is positional. When two rows [a] and [b] with the
    same key tuple [K] are separated in the input by a row with another key
    tuple, the groups that [groupby] forms are the division of the input into
    its maximal runs (every group is a non-empty run of consecutive rows with
    one key tuple, two neighbouring groups differ in their key tuple, and no
    other division has these properties), and in it [a] and [b] lie in two
    different groups of key [K], with at least one group between them; the
    reducer is called once for each group, on all the rows of that maximal
    run and on no others, and a reducer that yields one row per call yields
    two separate rows for [K], one computed from the run of [a] and one from
    the run of [b]. *)
Theorem Reduce_groups_are_positional (reducer : Reducer) (keys : list string)
    (pre mid post : list TRow) (a b c : TRow) (K : list value) :
  keys ≠ [] →
  Forall (has_keys keys) (pre ++ a :: mid ++ b :: post) →
  key_tuple keys a = Ok K →
  key_tuple keys b = Ok K →
  c ∈ mid →
  key_tuple keys c ≠ Ok K →
  ∃ gs1 ga gs2 gb gs3,
    groupby keys (from_list (pre ++ a :: mid ++ b :: post))
    = groups_of (gs1 ++ (K, ga) :: gs2 ++ (K, gb) :: gs3)
    ∧ (∃ ga1 ga2 gb1 gb2,
         ga = ga1 ++ a :: ga2 ∧ gb = gb1 ++ b :: gb2
         ∧ pre = rows_of gs1 ++ ga1
         ∧ mid = ga2 ++ rows_of gs2 ++ gb1
         ∧ post = gb2 ++ rows_of gs3)
    ∧ gs2 ≠ []
    ∧ contiguous_groups keys (pre ++ a :: mid ++ b :: post)
        (gs1 ++ (K, ga) :: gs2 ++ (K, gb) :: gs3)
    ∧ (∀ gs', contiguous_groups keys (pre ++ a :: mid ++ b :: post) gs' →
              gs' = gs1 ++ (K, ga) :: gs2 ++ (K, gb) :: gs3)
    ∧ Reduce reducer keys (from_list (pre ++ a :: mid ++ b :: post))
      = chain ((fun kg => reducer (VStr <$> keys) (from_list kg.2))
                 <$> (gs1 ++ (K, ga) :: gs2 ++ (K, gb) :: gs3))
    ∧ ∀ f : list TRow → TRow,
        (∀ g, g ≠ [] → Forall (has_keys keys) g →
              reducer (VStr <$> keys) (from_list g) = Yield (f g) Done) →
        Reduce reducer keys (from_list (pre ++ a :: mid ++ b :: post))
        = from_list (((fun kg => f kg.2) <$> gs1) ++ f ga
                       :: ((fun kg => f kg.2) <$> gs2) ++ f gb
                       :: ((fun kg => f kg.2) <$> gs3)).
Proof.
  intros Hne Hk Ha Hb Hc HcK.
  pose proof (runs_contiguous _ _ Hk) as Hcontiguous.
  pose proof Hcontiguous as (_ & Hgroups & _).
  destruct (runs_separated keys pre a mid b post K c)
    as (gs1 & ga1 & ga2 & gs2 & gb1 & gb2 & gs3 & Hruns & Hpre & Hmid & Hpost & Hgs2 & _ & _).
  { by apply key_of_ok. }
  { by apply key_of_ok. }
  { done. }
  { intros E. apply HcK. rewrite <- E. apply has_keys_key_of.
    apply (proj1 (Forall_forall _ _) Hk). set_solver. }
  rewrite Hruns in Hgroups, Hcontiguous.
  assert (Reduce reducer keys (from_list (pre ++ a :: mid ++ b :: post))
          = chain ((fun kg => reducer (VStr <$> keys) (from_list kg.2))
                     <$> (gs1 ++ (K, ga1 ++ a :: ga2) :: gs2
                              ++ (K, gb1 ++ b :: gb2) :: gs3))) as HR.
  { unfold Reduce. destruct keys as [|col cols]; [done|].
    by rewrite groupby_from_list, reduce_groups_of, Hruns. }
  exists gs1, (ga1 ++ a :: ga2), gs2, (gb1 ++ b :: gb2), gs3.
  split; [by rewrite groupby_from_list, Hruns|].
  split; [by exists ga1, ga2, gb1, gb2|].
  split; [done|]. split; [done|].
  split; [intros gs' Hgs'; rewrite <- Hruns; by apply contiguous_groups_unique|].
  split; [done|].
  intros f Hf. rewrite HR, (chain_one_row reducer _ f).
  - by rewrite fmap_app, fmap_cons, fmap_app, fmap_cons.
  - eapply Forall_impl; [exact Hgroups|]. intros [k g] [Hg1 Hg2]. simpl in *.
    apply Hf; [done|]. eapply Forall_impl; [exact Hg2|].
    intros row Hrow. unfold has_keys. by rewrite Hrow.
Qed.

Lemma Reduce_groups_are_positional_witness :
  let a : TRow := {["a" := VInt 1; "b" := VInt 10]} in
  let a' : TRow := {["a" := VInt 1; "b" := VInt 11]} in
  let c : TRow := {["a" := VInt 2; "b" := VInt 20]} in
  let b : TRow := {["a" := VInt 1; "b" := VInt 30]} in
  ∃ gs1 ga gs2 gb gs3,
    groupby ["a"] (from_list ([] ++ a :: [a'; c] ++ b :: []))
    = groups_of (gs1 ++ ([VInt 1], ga) :: gs2 ++ ([VInt 1], gb) :: gs3)
    ∧ gs2 ≠ []
    ∧ contiguous_groups ["a"] ([] ++ a :: [a'; c] ++ b :: [])
        (gs1 ++ ([VInt 1], ga) :: gs2 ++ ([VInt 1], gb) :: gs3)
    ∧ Reduce (Count "n") ["a"] (from_list ([] ++ a :: [a'; c] ++ b :: []))
      = chain ((fun kg => Count "n" (VStr <$> ["a"]) (from_list kg.2))
                 <$> (gs1 ++ ([VInt 1], ga) :: gs2 ++ ([VInt 1], gb) :: gs3)).
Proof.
  intros a a' c b.
  destruct (Reduce_groups_are_positional (Count "n") ["a"] [] [a'; c] [] a b c
              [VInt 1])
    as (gs1 & ga & gs2 & gb & gs3 & H1 & _ & H2 & H3 & _ & H4 & _).
  - discriminate.
  - repeat constructor.
  - reflexivity.
  - reflexivity.
  - apply list_elem_of_further, list_elem_of_here.
  - vm_compute. discriminate.
  - exists gs1, ga, gs2, gb, gs3.
    split; [exact H1|]. split; [exact H2|]. split; [exact H3|exact H4].
Defined.

(** ** The order on values *)

Lemma ascii_compare_refl a : Ascii.compare a a = Eq.
Proof. apply N.compare_refl. Qed.

Lemma string_compare_refl s : String.compare s s = Eq.
Proof. induction s as [|a s IH]; simpl; [done|]. by rewrite ascii_compare_refl. Qed.

Lemma string_compare_trans s t u :
  String.compare s t = Lt → String.compare t u = Lt → String.compare s u = Lt.
Proof.
  revert t u. induction s as [|a s IH]; intros [|b t] [|c u]; simpl; try done.
  destruct (Ascii.compare a b) eqn:E1; [| |done];
    destruct (Ascii.compare b c) eqn:E2; try done.
  - apply Ascii.compare_eq_iff in E1, E2. subst.
    rewrite ascii_compare_refl. apply IH.
  - apply Ascii.compare_eq_iff in E1. subst. by rewrite E2.
  - apply Ascii.compare_eq_iff in E2. subst. by rewrite E1.
  - unfold Ascii.compare in *. rewrite N.compare_lt_iff in E1, E2.
    assert (N.compare (Ascii.N_of_ascii a) (Ascii.N_of_ascii c) = Lt) as ->; [|done].
    apply N.compare_lt_iff. lia.
Qed.

Lemma py_lt_same_kind x y : same_kind x y = true → py_lt x y = Ok (value_ltb x y).
Proof. by destruct x, y. Qed.

Lemma py_lt_other_kind x y : same_kind x y = false → py_lt x y = Err TypeError.
Proof. by destruct x, y. Qed.

Lemma value_ltb_irrefl x : value_ltb x x = false.
Proof.
  destruct x as [z|s]; simpl; [apply Z.ltb_irrefl|].
  unfold String.ltb. by rewrite string_compare_refl.
Qed.

Lemma value_ltb_trans x y z :
  value_ltb x y = true → value_ltb y z = true → value_ltb x z = true.
Proof.
  destruct x as [a|s], y as [b|t], z as [c|u]; simpl; try done.
  - rewrite !Z.ltb_lt. lia.
  - unfold String.ltb. intros H1 H2.
    destruct (String.compare s t) eqn:E1; try done.
    destruct (String.compare t u) eqn:E2; try done.
    by rewrite (string_compare_trans _ _ _ E1 E2).
Qed.

Lemma value_ltb_total x y :
  value_ltb x y = false → value_ltb y x = false → x = y.
Proof.
  destruct x as [a|s], y as [b|t]; simpl; try done.
  - rewrite !Z.ltb_ge. intros. f_equal. lia.
  - unfold String.ltb. rewrite (String.compare_antisym t s).
    destruct (String.compare s t) eqn:E; simpl; try done.
    intros _ _. f_equal. by apply String.compare_eq_iff.
Qed.

Lemma value_ltb_asym x y : value_ltb x y = true → value_ltb y x = false.
Proof.
  intros H. destruct (value_ltb y x) eqn:E; [|done].
  by rewrite <- (value_ltb_irrefl x), <- (value_ltb_trans _ _ _ H E).
Qed.

Lemma value_le_refl x : value_le x x.
Proof. apply value_ltb_irrefl. Qed.

Lemma value_le_trans x y z : value_le x y → value_le y z → value_le x z.
Proof.
  unfold value_le. intros H1 H2.
  destruct (value_ltb z x) eqn:E; [|done].
  destruct (value_ltb y z) eqn:E2.
  - by rewrite (value_ltb_trans _ _ _ E2 E) in H1.
  - by rewrite (value_ltb_total _ _ E2 H2), E in H1.
Qed.

Lemma value_lt_le x y : value_ltb x y = true → value_le x y.
Proof. apply value_ltb_asym. Qed.

Lemma value_le_total x y : value_le x y ∨ value_le y x.
Proof.
  unfold value_le. destruct (value_ltb y x) eqn:E; [|by left].
  right. by apply value_ltb_asym.
Qed.

(** ** TopN *)

Lemma same_kind_trans w x y :
  same_kind w x = true → same_kind w y = true → same_kind x y = true.
Proof. by destruct w, x, y. Qed.

Lemma item_lt_ok x y :
  same_kind x.1 y.1 = true → heapq.item_lt x y = Ok (item_ltb x y).
Proof.
  intros Hk. unfold heapq.item_lt, item_ltb. case_decide; [done|].
  by apply py_lt_same_kind.
Qed.

Lemma item_le_iff x y :
  item_le x y ↔ (x.1 = y.1 ∧ (x.2 ≤ y.2)%nat)
                ∨ (x.1 ≠ y.1 ∧ value_ltb x.1 y.1 = true).
Proof.
  unfold item_le, item_ltb. case_decide as Hd.
  - rewrite Nat.ltb_ge. split; [intros; left; by split|].
    intros [[_ ?]|[Hne _]]; [done|]. by destruct Hne.
  - split.
    + intros Hlt. right. split; [congruence|].
      destruct (value_ltb x.1 y.1) eqn:E; [done|].
      destruct Hd. by apply value_ltb_total.
    + intros [[He _]|[_ Hlt]]; [by destruct Hd|]. by apply value_ltb_asym.
Qed.

Lemma item_le_trans x y z : item_le x y → item_le y z → item_le x z.
Proof.
  rewrite !item_le_iff.
  intros [[E1 L1]|[N1 L1]] [[E2 L2]|[N2 L2]].
  - left. split; [congruence|lia].
  - right. rewrite E1. by split.
  - right. rewrite <- E2. by split.
  - right. pose proof (value_ltb_trans _ _ _ L1 L2) as L3. split; [|done].
    intros E. rewrite E, value_ltb_irrefl in L3. done.
Qed.

Lemma item_lt_le x y : item_ltb x y = true → item_le x y.
Proof.
  intros H. apply item_le_iff. unfold item_ltb in H. case_decide.
  - left. split; [done|]. apply Nat.ltb_lt in H. lia.
  - right. by split.
Qed.

Lemma item_le_value x y : item_le x y → value_le x.1 y.1.
Proof.
  rewrite item_le_iff. intros [[-> _]|[_ H]]; [apply value_le_refl|].
  by apply value_lt_le.
Qed.

Lemma heapq_insert_ok w x heap :
  same_kind w x.1 = true →
  Forall (fun y : heapq.item => same_kind w y.1 = true) heap →
  StronglySorted item_le heap →
  ∃ heap', heapq.insert x heap = Ok heap'
           ∧ heap' ≡ₚ x :: heap
           ∧ StronglySorted item_le heap'.
Proof.
  intros Hx Hk Hs. induction heap as [|y heap IH]; simpl.
  - exists [x]. split; [done|]. split; [done|]. repeat constructor.
  - inversion Hk as [|? ? Hy Hk']; subst. inversion Hs as [|? ? Hs' Hall]; subst.
    rewrite item_lt_ok by (by apply (same_kind_trans w)). simpl.
    destruct (item_ltb x y) eqn:E.
    + exists (x :: y :: heap). split; [done|]. split; [done|].
      constructor; [done|]. apply item_lt_le in E. constructor; [done|].
      eapply Forall_impl; [exact Hall|]. intros z. by apply item_le_trans.
    + destruct (IH Hk' Hs') as (heap' & -> & Hp & Hs''). simpl.
      exists (y :: heap'). split; [done|]. split.
      * rewrite Hp. apply perm_swap.
      * constructor; [done|]. rewrite Hp. by constructor.
Qed.

Lemma getitem_kind column w row :
  (∃ v, row !! column = Some v ∧ same_kind w v = true) →
  getitem row column = Ok (column_value column row)
  ∧ same_kind w (column_value column row) = true.
Proof. intros (v & Hv & Hk). unfold getitem, column_value. by rewrite Hv. Qed.

Lemma insert_desc_ok column w row sorted :
  kind_rows column w (row :: sorted) →
  descending column sorted →
  ∃ out, insert_desc column row sorted = Ok out
         ∧ out ≡ₚ row :: sorted
         ∧ descending column out.
Proof.
  intros Hk Hs. inversion Hk as [|? ? Hrow Hk']; subst. clear Hk.
  apply getitem_kind in Hrow as [Hrow Hkrow].
  induction sorted as [|row' rest IH]; simpl.
  - exists [row]. split; [done|]. split; [done|]. repeat constructor.
  - inversion Hk' as [|? ? Hrow' Hk'']; subst.
    apply getitem_kind in Hrow' as [Hrow' Hkrow'].
    inversion Hs as [|? ? Hs' Hall]; subst.
    rewrite Hrow, Hrow'. simpl.
    rewrite py_lt_same_kind by (by apply (same_kind_trans w)). simpl.
    destruct (value_ltb _ _) eqn:E.
    + destruct (IH Hs' Hk'') as (out & -> & Hp & Hs''). simpl.
      exists (row' :: out). split; [done|]. split.
      * rewrite Hp. apply perm_swap.
      * constructor; [done|]. rewrite Hp. constructor; [|done].
        by apply value_lt_le.
    + exists (row :: row' :: rest). split; [done|]. split; [done|].
      constructor; [done|]. constructor; [done|].
      eapply Forall_impl; [exact Hall|]. intros r Hr. simpl in *.
      by eapply value_le_trans.
Qed.

Lemma sort_desc_ok column w rows :
  kind_rows column w rows →
  ∃ out, sort_desc column rows = Ok out ∧ out ≡ₚ rows ∧ descending column out.
Proof.
  induction 1 as [|row rows Hrow Hk IH]; simpl.
  - exists []. split; [done|]. split; [done|]. constructor.
  - destruct IH as (sorted & -> & Hp & Hs). simpl.
    destruct (insert_desc_ok column w row sorted) as (out & Hout & Hp' & Hs'); [|done|].
    + constructor; [done|]. unfold kind_rows. by rewrite Hp.
    + exists out. split; [done|]. split; [|done]. by rewrite Hp', Hp.
Qed.

Lemma insert_delete_perm {A} (l : list A) i x y :
  l !! i = Some x → <[i := y]> l ≡ₚ y :: delete i l.
Proof.
  revert i. induction l as [|z l IH]; intros [|i] Hi; try done.
  simpl in *. change (delete (S i) (z :: l)) with (z :: delete i l).
  rewrite (IH i Hi). apply perm_swap.
Qed.

Lemma imap_insert_perm {A B} (f : nat → A → B) (l : list A) i x y :
  l !! i = Some x → imap f (<[i := y]> l) ≡ₚ f i y :: delete i (imap f l).
Proof.
  revert f i. induction l as [|z l IH]; intros f [|i] Hi; try done.
  simpl in *. change (delete (S i) (f 0%nat z :: imap (f ∘ S) l))
    with (f 0%nat z :: delete i (imap (f ∘ S) l)).
  rewrite (IH (f ∘ S) i Hi). apply perm_swap.
Qed.

Lemma item_le_refl x : item_le x x.
Proof. apply item_le_iff. left. by split. Qed.

Lemma heap_least column least tl topn :
  StronglySorted item_le (least :: tl) →
  least :: tl ≡ₚ heap_items column topn →
  ∃ r, topn !! least.2 = Some r
       ∧ least.1 = column_value column r
       ∧ Forall (fun r' => value_le least.1 (column_value column r')) topn.
Proof.
  intros Hs Hp. inversion Hs as [|? ? _ Hall]; subst.
  assert (least ∈ heap_items column topn) as Hin by (rewrite <- Hp; left).
  apply elem_of_lookup_imap_1 in Hin as (i & r & -> & Hi).
  exists r. split; [done|]. split; [done|].
  apply Forall_forall. intros r' Hr'.
  apply list_elem_of_lookup in Hr' as [j Hj].
  pose proof (elem_of_lookup_imap_2 (fun i row => (column_value column row, i))
                _ _ _ Hj) as Hin'.
  fold (heap_items column topn) in Hin'. rewrite <- Hp in Hin'.
  apply elem_of_cons in Hin' as [<-|Hin'].
  - apply value_le_refl.
  - apply (item_le_value (column_value column r, i) (column_value column r', j)).
    by apply (proj1 (Forall_forall _ _) Hall).
Qed.

Lemma all_below_nil_l column high : all_below column [] high.
Proof. constructor. Qed.

Lemma all_below_perm column low high high' :
  high ≡ₚ high' → all_below column low high → all_below column low high'.
Proof.
  intros Hp H. eapply Forall_impl; [exact H|]. intros d. simpl. by rewrite Hp.
Qed.

Lemma kind_rows_perm column w rows rows' :
  rows ≡ₚ rows' → kind_rows column w rows → kind_rows column w rows'.
Proof. intros Hp. unfold kind_rows. by rewrite Hp. Qed.

Lemma topn_loop_ok column n w rows :
  (1 ≤ n)%Z →
  kind_rows column w rows →
  ∀ heap topn seen dropped,
    length heap = length topn →
    length topn = Nat.min (Z.to_nat n) (length seen) →
    StronglySorted item_le heap →
    heap ≡ₚ heap_items column topn →
    kind_rows column w topn →
    seen ≡ₚ topn ++ dropped →
    all_below column dropped topn →
    ∃ out dropped',
      topn_loop column n (from_list rows) heap topn = Ok out
      ∧ length out = Nat.min (Z.to_nat n) (length (seen ++ rows))
      ∧ kind_rows column w out
      ∧ seen ++ rows ≡ₚ out ++ dropped'
      ∧ all_below column dropped' out.
Proof.
  intros Hn Hk. induction Hk as [|row rows Hrow Hk IH];
    intros heap topn seen dropped Hlen Hmin Hs Hp Hkt Hseen Hbelow.
  { exists topn, dropped. rewrite app_nil_r. by repeat split. }
  apply getitem_kind in Hrow as [Hrow Hkrow].
  assert (Forall (fun y : heapq.item => same_kind w y.1 = true) heap) as Hkh.
  { rewrite Hp. apply Forall_forall. intros x Hx.
    apply elem_of_lookup_imap_1 in Hx as (i & r & -> & Hi).
    apply list_elem_of_lookup_2 in Hi.
    apply (proj1 (Forall_forall _ _) Hkt) in Hi as (v & Hv & Hkv).
    simpl. unfold column_value. by rewrite Hv. }
  pose proof (Permutation_length Hseen) as Hl. rewrite length_app in Hl.
  replace (seen ++ row :: rows) with ((seen ++ [row]) ++ rows)
    by (by rewrite <- app_assoc).
  simpl. case_bool_decide as Hfull.
  - (* the heap is not full yet *)
    rewrite Hrow. simpl. unfold heapq.heappush.
    destruct (heapq_insert_ok w (column_value column row, length heap) heap)
      as (heap' & -> & Hp' & Hs'); [done..|]. simpl.
    assert (dropped = []) as -> by (apply length_zero_iff_nil; lia).
    apply (IH heap' (topn ++ [row]) (seen ++ [row]) []).
    + rewrite Hp', length_app. simpl. lia.
    + rewrite !length_app. simpl. lia.
    + done.
    + rewrite Hp', Hp. unfold heap_items. rewrite imap_app. simpl.
      rewrite length_imap, Nat.add_0_r. apply Permutation_cons_append.
    + apply Forall_app. split; [done|]. constructor; [|done].
      unfold getitem in Hrow. destruct (row !! column) as [v|] eqn:E; [|done].
      exists v. split; [done|]. unfold column_value in Hkrow. by rewrite E in Hkrow.
    + rewrite Hseen, !app_nil_r. done.
    + apply all_below_nil_l.
  - (* the heap is full *)
    rewrite Hrow. simpl.
    destruct heap as [|least tl]; [simpl in *; lia|]. simpl.
    destruct (heap_least column least tl topn Hs Hp) as (r & Hr & Hlv & Hleast).
    inversion Hkh as [|? ? Hkl Hktl]; subst.
    inversion Hs as [|? ? Hstl _]; subst.
    rewrite py_lt_same_kind by (by apply (same_kind_trans w)). simpl.
    destruct (value_ltb least.1 (column_value column row)) eqn:E.
    + unfold heapq.heapreplace. simpl.
      destruct (heapq_insert_ok w (column_value column row, least.2) tl)
        as (heap' & -> & Hp' & Hs'); [done..|]. simpl.
      pose proof (lookup_lt_Some _ _ _ Hr) as Hlt.
      unfold setitem. rewrite decide_True by done. simpl.
      pose proof (delete_Permutation _ _ _ Hr) as Hdel.
      pose proof (insert_delete_perm topn least.2 r row Hr) as Hins.
      apply (IH heap' (<[least.2 := row]> topn) (seen ++ [row]) (r :: dropped)).
      * rewrite Hp', length_insert. simpl in *. lia.
      * rewrite length_insert, length_app. simpl in *. lia.
      * done.
      * rewrite Hp'. unfold heap_items.
        rewrite (imap_insert_perm _ _ _ _ _ Hr). constructor.
        apply (Permutation_cons_inv (a := least)). rewrite Hp.
        unfold heap_items. rewrite <- delete_Permutation; [done|].
        rewrite list_lookup_imap, Hr. simpl. rewrite <- Hlv. by destruct least.
      * apply (kind_rows_perm _ _ (row :: delete least.2 topn)); [done|].
        apply (kind_rows_perm _ _ _ _ Hdel) in Hkt.
        inversion Hkt; subst. constructor; [|done].
        unfold getitem in Hrow. destruct (row !! column) as [v|] eqn:E'; [|done].
        exists v. split; [done|]. unfold column_value in Hkrow. by rewrite E' in Hkrow.
      * rewrite Hseen, Hins. rewrite Hdel at 1.
        rewrite <- Permutation_cons_append. simpl.
        by rewrite <- Permutation_middle.
      * apply (all_below_perm _ _ (row :: delete least.2 topn)); [done|].
        apply (all_below_perm _ _ _ _ Hdel) in Hbelow.
        rewrite Hdel in Hleast. inversion Hleast as [|? ? _ Hleast']; subst.
        constructor.
        -- constructor; [rewrite <- Hlv; by apply value_lt_le|].
           by rewrite <- Hlv.
        -- eapply Forall_impl; [exact Hbelow|]. intros d Hd.
           inversion Hd as [|? ? Hdr Hd']; subst. constructor; [|done].
           eapply value_le_trans; [exact Hdr|]. rewrite <- Hlv. by apply value_lt_le.
    + apply (IH (least :: tl) topn (seen ++ [row]) (row :: dropped)).
      * done.
      * rewrite length_app. simpl in *. lia.
      * done.
      * done.
      * done.
      * rewrite Hseen. rewrite <- app_assoc.
        apply Permutation_app_head. symmetry. apply Permutation_cons_append.
      * constructor; [|done].
        eapply Forall_impl; [exact Hleast|]. intros r' Hr'. simpl in *.
        eapply value_le_trans; [|exact Hr']. exact E.
Qed.

(** C2 (as the code has it): for [n >= 1] and a group whose rows all hold
    values of one kind in [column], [TopN(column, n)] returns [min n |group|]
    rows of the group, every row it leaves out has a value at most that of
    every row it returns, and the rows come out in descending order of the
    value; on the rows [{v:5,id:a}, {v:5,id:b}, {v:3,id:c}], [TopN(v, 2)]
    returns [{v:5,id:a}, {v:5,id:b}] in that order. *)
Theorem TopN_largest (column : string) (n : Z) (w : value)
    (group_key : list value) (rows : list TRow) :
  (1 ≤ n)%Z →
  kind_rows column w rows →
  (∃ out dropped,
     TopN column n group_key (from_list rows) = from_list out
     ∧ length out = Nat.min (Z.to_nat n) (length rows)
     ∧ rows ≡ₚ out ++ dropped
     ∧ all_below column dropped out
     ∧ descending column out)
  ∧ TopN "v" 2 group_key
      (from_list [ {["v" := VInt 5; "id" := VStr "a"]};
                   {["v" := VInt 5; "id" := VStr "b"]};
                   {["v" := VInt 3; "id" := VStr "c"]} ])
    = from_list [ {["v" := VInt 5; "id" := VStr "a"]};
                  {["v" := VInt 5; "id" := VStr "b"]} ].
Proof.
  intros Hn Hk. split; [|by vm_compute].
  destruct (topn_loop_ok column n w rows Hn Hk [] [] [] [])
    as (topn & dropped & Hloop & Hlen & Hkt & Hp & Hbelow);
    [done|simpl; lia|constructor|done|constructor|done|constructor|].
  destruct (sort_desc_ok column w topn Hkt) as (out & Hsort & Hp' & Hdesc).
  exists out, dropped. unfold TopN. rewrite Hloop. simpl. rewrite Hsort. simpl.
  split; [done|]. split; [by rewrite Hp'|]. split; [by rewrite Hp'|].
  split; [|done]. by apply (all_below_perm _ _ topn).
Qed.

Lemma TopN_largest_witness :
  ∃ out dropped,
    TopN "v" 2 [] (from_list [ {["v" := VInt 3]}; {["v" := VInt 7]}; {["v" := VInt 5]} ])
    = from_list out
    ∧ length out = 2%nat
    ∧ [ {["v" := VInt 3]}; {["v" := VInt 7]}; {["v" := VInt 5]} ] ≡ₚ out ++ dropped
    ∧ all_below "v" dropped out
    ∧ descending "v" out.
Proof.
  apply (TopN_largest "v" 2 (VInt 0) []
           [ {["v" := VInt 3]}; {["v" := VInt 7]}; {["v" := VInt 5]} ]).
  - lia.
  - repeat constructor; eexists; (split; [reflexivity|reflexivity]).
Defined.

(** C2 (as stated) fails on ties: of two rows with the same value the one
    that came first is the one that is replaced. With [{v:3,id:a}],
    [{v:3,id:b}], [{v:5,id:c}] and [n = 2], the heap holds [(3, 0)] and
    [(3, 1)] when the third row arrives, its least item is [(3, 0)], and the
    row in slot 0, the earlier one, leaves. It also fails for [n = 0] on a
    non-empty group: [heap[0]] is read on an empty heap. *)
Lemma TopN_replaces_earlier_tie :
  let a : TRow := {["v" := VInt 3; "id" := VStr "a"]} in
  let b : TRow := {["v" := VInt 3; "id" := VStr "b"]} in
  let c : TRow := {["v" := VInt 5; "id" := VStr "c"]} in
  TopN "v" 2 [] (from_list [a; b; c]) = from_list [c; b]
  ∧ TopN "v" 2 [] (from_list [a; b; c]) ≠ from_list [c; a]
  ∧ TopN "v" 0 [] (from_list [a]) = Raise IndexError.
Proof.
  intros a b c. split; [by vm_compute|]. split; [|by vm_compute].
  vm_compute. discriminate.
Qed.

(** ** Joiners *)

Lemma to_list_from_list l : to_list (from_list l) = Ok l.
Proof. induction l as [|row l IH]; simpl; [done|]. by rewrite IH. Qed.

Lemma join_rest_from_list sa sb la list_b columns :
  join_rest sa sb (from_list la) list_b columns
  = chain ((fun a => join_row_list sa sb a list_b columns) <$> la).
Proof. induction la as [|a la IH]; csimpl; [done|]. by rewrite IH. Qed.

Lemma joiner_matched s sa sb keys a0 la b0 lb :
  joiner_of s sa sb keys (from_list (a0 :: la)) (from_list (b0 :: lb))
  = match s with
    | Right =>
        chain ((fun b => join_row_list sa sb b (a0 :: la)
                           (separate_columns b0 a0 keys)) <$> (b0 :: lb))
    | _ =>
        chain ((fun a => join_row_list sa sb a (b0 :: lb)
                           (separate_columns a0 b0 keys)) <$> (a0 :: la))
    end.
Proof.
  destruct s; unfold joiner_of, InnerJoiner, LeftJoiner, RightJoiner, OuterJoiner;
    rewrite to_list_from_list; cbn [lift from_list];
    unfold join_both; rewrite join_rest_from_list; reflexivity.
Qed.

(** C10: in each of the four strategies a matched pair of groups is joined
    with one division of the columns, the one computed from the first row of
    the left group and the first row of the right group ([RightJoiner] calls
    [join_both] with the two sides exchanged), and that division serves for
    every pair of rows. Hence, in each strategy, there are groups whose later
    rows lack a column of the first rows, on which the join ends with a
    [KeyError], and groups whose later rows have columns that the first rows
    lack, on which every output row silently leaves those columns out. *)
Theorem joiner_columns_from_first_rows (s : strategy) (sa sb : string) :
  (∀ keys a0 la b0 lb,
     joiner_of s sa sb keys (from_list (a0 :: la)) (from_list (b0 :: lb))
     = match s with
       | Right =>
           chain ((fun b => join_row_list sa sb b (a0 :: la)
                              (separate_columns b0 a0 keys)) <$> (b0 :: lb))
       | _ =>
           chain ((fun a => join_row_list sa sb a (b0 :: lb)
                              (separate_columns a0 b0 keys)) <$> (a0 :: la))
       end)
  ∧ (∃ keys la lb e,
       raised (joiner_of s sa sb keys (from_list la) (from_list lb))
       = Some (KeyError e))
  ∧ (∃ keys la lb a b,
       a ∈ la ∧ b ∈ lb ∧ "x" ∈ dom a ∧ "y" ∈ dom b
       ∧ joiner_of s sa sb keys (from_list la) (from_list lb)
         = from_list [ {["id" := VInt 1]}; {["id" := VInt 1]};
                       {["id" := VInt 1]}; {["id" := VInt 1]} ]).
Proof.
  split; [intros; apply joiner_matched|]. split.
  - exists ["id"],
      [ {["id" := VInt 1; "x" := VInt 5]}; {["id" := VInt 1]} ],
      [ {["id" := VInt 1; "y" := VInt 6]}; {["id" := VInt 1]} ].
    destruct s; eexists; vm_compute; reflexivity.
  - exists ["id"],
      [ {["id" := VInt 1]}; {["id" := VInt 1; "x" := VInt 5]} ],
      [ {["id" := VInt 1]}; {["id" := VInt 1; "y" := VInt 6]} ],
      {["id" := VInt 1; "x" := VInt 5]}, {["id" := VInt 1; "y" := VInt 6]}.
    split; [set_solver|]. split; [set_solver|].
    split; [set_solver|]. split; [set_solver|].
    destruct s; vm_compute; reflexivity.
Qed.

(** *** The row built for a pair of rows *)

Lemma string_length_app (s t : string) :
  String.length (s +:+ t) = (String.length s + String.length t)%nat.
Proof. induction s as [|a s IH]; simpl; [done|]. by rewrite IH. Qed.

Lemma string_app_inj_r (s c c' : string) : c +:+ s = c' +:+ s → c = c'.
Proof.
  revert c'. induction c as [|x c IH]; intros [|y c'] H; [done| | |].
  - apply (f_equal String.length) in H.
    rewrite !string_length_app in H. simpl in H. lia.
  - apply (f_equal String.length) in H.
    rewrite !string_length_app in H. simpl in H. lia.
  - simpl in H. injection H as -> H. f_equal. by apply IH.
Qed.

Lemma copy_columns_lookup cols (row new_row : TRow) :
  Forall (fun c => is_Some (row !! c)) cols →
  ∃ out, copy_columns cols row new_row = Ok out
         ∧ ∀ k, out !! k = if decide (k ∈ cols) then row !! k else new_row !! k.
Proof.
  intros Hc. revert new_row.
  induction Hc as [|col rest [v Hv] _ IH]; intros new_row.
  - exists new_row. split; [done|]. intros k. rewrite decide_False; [done|].
    apply not_elem_of_nil.
  - cbn [copy_columns]. unfold getitem. rewrite Hv. simpl.
    destruct (IH (<[col := v]> new_row)) as (out & -> & Hout).
    exists out. split; [done|]. intros k. rewrite Hout.
    destruct (decide (k ∈ rest)) as [Hin|Hnin].
    + rewrite decide_True; [done|]. by right.
    + destruct (decide (k = col)) as [->|Hne].
      * rewrite decide_True by left. by rewrite lookup_insert_eq.
      * rewrite decide_False by (rewrite elem_of_cons; naive_solver).
        by rewrite lookup_insert_ne.
Qed.

Lemma copy_common_lookup cols sa sb (row_a row_b new_row : TRow) :
  Forall (fun c => is_Some (row_a !! c) ∧ is_Some (row_b !! c)) cols →
  (∀ c c', c ∈ cols → c' ∈ cols → c +:+ sa ≠ c' +:+ sb) →
  ∃ out, copy_common cols sa sb row_a row_b new_row = Ok out
         ∧ (∀ c, c ∈ cols → out !! (c +:+ sa) = row_a !! c
                             ∧ out !! (c +:+ sb) = row_b !! c)
         ∧ (∀ k, (∀ c, c ∈ cols → k ≠ c +:+ sa ∧ k ≠ c +:+ sb) →
                 out !! k = new_row !! k).
Proof.
  intros Hc. revert new_row.
  induction Hc as [|col rest [[va Hva] [vb Hvb]] _ IH]; intros new_row Hclash; simpl.
  - exists new_row. split; [done|]. split; [|done].
    intros c Hin. by apply not_elem_of_nil in Hin.
  - unfold getitem. rewrite Hva, Hvb. simpl.
    destruct (IH (<[col +:+ sb := vb]> (<[col +:+ sa := va]> new_row)))
      as (out & -> & Hsuf & Hother).
    { intros c c' Hin Hin'. apply Hclash; by right. }
    exists out. split; [done|]. split.
    + intros c Hin. destruct (decide (c ∈ rest)) as [Hr|Hr]; [by apply Hsuf|].
      apply elem_of_cons in Hin as [->|Hin]; [|done].
      rewrite !Hother.
      * rewrite lookup_insert_ne, lookup_insert_eq, lookup_insert_eq; [done|].
        intros E. symmetry in E. revert E. apply Hclash; left.
      * intros c Hin. split; [apply not_eq_sym, Hclash; [by right|left]|].
        intros E. apply string_app_inj_r in E. by subst.
      * intros c Hin. split; [|apply Hclash; [left|by right]].
        intros E. apply string_app_inj_r in E. by subst.
    + intros k Hk. rewrite Hother.
      * rewrite !lookup_insert_ne; [done| |]; apply not_eq_sym, Hk; left.
      * intros c Hin. apply Hk. by right.
Qed.

Lemma join_row_ok sa sb keys (a b : TRow) :
  no_clash sa sb keys (dom a) (dom b) →
  ∃ out, join_row sa sb a b (separate_columns a b keys) = Ok out
         ∧ passes_through a b out
         ∧ suffixed keys sa sb a b out.
Proof.
  intros [Hclash1 Hclash2]. unfold join_row, separate_columns.
  set (common := dom a ∩ (dom b ∖ list_to_set keys)) in *.
  destruct (copy_columns_lookup (elements (dom a ∖ common)) a ∅)
    as (m1 & -> & Hm1).
  { apply Forall_forall. intros c Hc. apply elem_of_elements in Hc.
    apply elem_of_dom. set_solver. }
  destruct (copy_columns_lookup (elements ((dom b ∖ dom a) ∩ dom b)) b m1)
    as (m2 & Hm2e & Hm2).
  { apply Forall_forall. intros c Hc. apply elem_of_elements in Hc.
    apply elem_of_dom. set_solver. }
  cbn [mbind result_bind]. rewrite Hm2e.
  destruct (copy_common_lookup (elements common) sa sb a b m2)
    as (m3 & Hm3e & Hsuf & Hother).
  { apply Forall_forall. intros c Hc. apply elem_of_elements in Hc.
    rewrite <- !elem_of_dom. set_solver. }
  { intros c c'. rewrite !elem_of_elements. apply Hclash1. }
  cbn [mbind result_bind]. exists m3. split; [done|]. split; [split|].
  - intros c Ha Hb. rewrite Hother, Hm2, Hm1.
    + rewrite decide_False by (rewrite elem_of_elements; set_solver).
      rewrite decide_True by (rewrite elem_of_elements; set_solver). done.
    + intros c0 Hc0. apply elem_of_elements in Hc0.
      destruct (Hclash2 c0 c) as [H1 H2]; [done|set_solver|set_solver|].
      split; by apply not_eq_sym.
  - intros c Hb Ha. rewrite Hother, Hm2.
    + rewrite decide_True by (rewrite elem_of_elements; set_solver). done.
    + intros c0 Hc0. apply elem_of_elements in Hc0.
      destruct (Hclash2 c0 c) as [H1 H2]; [done|set_solver|set_solver|].
      split; by apply not_eq_sym.
  - intros c Ha Hb Hk. apply Hsuf. apply elem_of_elements.
    unfold common. rewrite elem_of_intersection, elem_of_difference.
    rewrite elem_of_list_to_set. done.
Qed.

Lemma separate_columns_dom (a a' b b' : TRow) keys :
  dom a = dom a' → dom b = dom b' →
  separate_columns a b keys = separate_columns a' b' keys.
Proof. unfold separate_columns. by intros -> ->. Qed.

Lemma joined_ok sa sb keys (a b : TRow) :
  no_clash sa sb keys (dom a) (dom b) →
  join_row sa sb a b (separate_columns a b keys) = Ok (joined sa sb keys a b)
  ∧ passes_through a b (joined sa sb keys a b)
  ∧ suffixed keys sa sb a b (joined sa sb keys a b).
Proof.
  intros Hc. destruct (join_row_ok sa sb keys a b Hc) as (out & Hout & H1 & H2).
  unfold joined. by rewrite Hout.
Qed.

Lemma join_row_list_uniform sa sb keys (a0 b0 a : TRow) (lb : list TRow) :
  dom a = dom a0 →
  Forall (fun b => dom b = dom b0) lb →
  no_clash sa sb keys (dom a0) (dom b0) →
  join_row_list sa sb a lb (separate_columns a0 b0 keys)
  = from_list (joined sa sb keys a <$> lb).
Proof.
  intros Ha Hb Hc. induction Hb as [|b lb Hb _ IH]; [done|].
  rewrite fmap_cons. cbn [join_row_list from_list]. rewrite IH.
  assert (join_row sa sb a b (separate_columns a0 b0 keys)
          = Ok (joined sa sb keys a b)) as ->; [|done].
  rewrite <- (separate_columns_dom a a0 b b0) by done.
  apply joined_ok. by rewrite Ha, Hb.
Qed.

Lemma chain_from_list (ls : list (list TRow)) :
  chain (from_list <$> ls) = from_list (concat ls).
Proof.
  induction ls as [|l ls IH]; csimpl; [done|]. by rewrite IH, from_list_app.
Qed.

Lemma no_clash_sym sa sb keys DA DB :
  no_clash sa sb keys DA DB → no_clash sa sb keys DB DA.
Proof.
  unfold no_clash.
  assert (DB ∩ (DA ∖ list_to_set keys) = DA ∩ (DB ∖ list_to_set keys)) as ->
    by set_solver.
  intros [H1 H2]. split; [done|]. intros c c' Hc Hc'. apply H2; set_solver.
Qed.

Lemma joiner_uniform s sa sb keys (la lb : list TRow) DA DB :
  la ≠ [] → lb ≠ [] →
  Forall (fun a => dom a = DA) la →
  Forall (fun b => dom b = DB) lb →
  no_clash sa sb keys DA DB →
  joiner_of s sa sb keys (from_list la) (from_list lb)
  = from_list (match s with
               | Right => cross (joined sa sb keys) lb la
               | _ => cross (joined sa sb keys) la lb
               end).
Proof.
  intros Hla Hlb HA HB Hc.
  destruct la as [|a0 la]; [done|]. destruct lb as [|b0 lb]; [done|].
  rewrite joiner_matched.
  inversion HA as [|? ? Ha0 _]; subst. inversion HB as [|? ? Hb0 _]; subst.
  assert (∀ (l1 l2 : list TRow) x0 y0,
            Forall (fun x => dom x = dom x0) l1 →
            Forall (fun y => dom y = dom y0) l2 →
            no_clash sa sb keys (dom x0) (dom y0) →
            chain ((fun x => join_row_list sa sb x l2 (separate_columns x0 y0 keys))
                     <$> l1)
            = from_list (cross (joined sa sb keys) l1 l2)) as Hgen.
  { intros l1 l2 x0 y0 H1 H2 Hcl. unfold cross. rewrite <- chain_from_list.
    f_equal. rewrite <- list_fmap_compose. apply Forall_fmap_ext_1.
    eapply Forall_impl; [exact H1|]. intros x Hx. simpl.
    by apply join_row_list_uniform. }
  destruct s; try (by apply Hgen).
  apply Hgen; [done|done|]. by apply no_clash_sym.
Qed.

(** C1 (as the code has it): for a matched pair of groups in which all left
    rows have one set of columns, all right rows have one set of columns,
    and the suffixed names are new, every strategy emits one row for each
    pair of a left row and a right row (the whole cross-product; [Right] with
    the right rows in the outer loop, the others with the left rows in the
    outer loop); in every such row the columns that only the left row has
    hold the left row's values and the columns that only the right row has
    hold the right row's values, and, for [Inner], [Left] and [Outer], each
    column of both rows that is not a join key appears under its name plus
    the left suffix with the left row's value and under its name plus the
    right suffix with the right row's value. *)
Theorem joiner_cross_product (s : strategy) (sa sb : string) (keys : list string)
    (la lb : list TRow) (DA DB : gset string) :
  la ≠ [] → lb ≠ [] →
  Forall (fun a => dom a = DA) la →
  Forall (fun b => dom b = DB) lb →
  no_clash sa sb keys DA DB →
  ∃ f : TRow → TRow → TRow,
    joiner_of s sa sb keys (from_list la) (from_list lb)
    = from_list (match s with
                 | Right => cross (fun b a => f a b) lb la
                 | _ => cross f la lb
                 end)
    ∧ ∀ a b, a ∈ la → b ∈ lb →
        passes_through a b (f a b)
        ∧ (s ≠ Right → suffixed keys sa sb a b (f a b)).
Proof.
  intros Hla Hlb HA HB Hc.
  exists (match s with
          | Right => fun a b => joined sa sb keys b a
          | _ => joined sa sb keys
          end).
  split.
  - rewrite (joiner_uniform s sa sb keys la lb DA DB) by done. by destruct s.
  - intros a b Ha Hb.
    apply (proj1 (Forall_forall _ _) HA) in Ha.
    apply (proj1 (Forall_forall _ _) HB) in Hb.
    rewrite <- Ha, <- Hb in Hc.
    destruct (joined_ok sa sb keys a b Hc) as (_ & Hp & Hs).
    destruct (joined_ok sa sb keys b a (no_clash_sym _ _ _ _ _ Hc))
      as (_ & [Hp1 Hp2] & _).
    destruct s; try (split; [done|by intros _]).
    split; [by split|]. by intros [].
Qed.

Lemma joiner_cross_product_witness :
  ∃ f : TRow → TRow → TRow,
    joiner_of Inner "_1" "_2" ["id"]
      (from_list [ {["id" := VInt 1; "x" := VInt 10]} ])
      (from_list [ {["id" := VInt 1; "x" := VInt 20]} ])
    = from_list (cross f [ {["id" := VInt 1; "x" := VInt 10]} ]
                         [ {["id" := VInt 1; "x" := VInt 20]} ])
    ∧ ∀ a b, a ∈ [ ({["id" := VInt 1; "x" := VInt 10]} : TRow) ] →
             b ∈ [ ({["id" := VInt 1; "x" := VInt 20]} : TRow) ] →
        passes_through a b (f a b)
        ∧ (Inner ≠ Right → suffixed ["id"] "_1" "_2" a b (f a b)).
Proof.
  apply (joiner_cross_product Inner "_1" "_2" ["id"]
           [ {["id" := VInt 1; "x" := VInt 10]} ]
           [ {["id" := VInt 1; "x" := VInt 20]} ]
           {["id"; "x"]} {["id"; "x"]}).
  - discriminate.
  - discriminate.
  - repeat constructor; set_solver.
  - repeat constructor; set_solver.
  - assert (({["id"; "x"]} : gset string) ∩ ({["id"; "x"]} ∖ list_to_set ["id"])
            = {["x"]}) as Hcommon by set_solver.
    unfold no_clash. rewrite Hcommon. split.
    + intros c c' Hc Hc'. apply elem_of_singleton in Hc, Hc'. subst. discriminate.
    + intros c c' Hc Hc' Hn. apply elem_of_singleton in Hc. subst.
      assert (c' = "id") as -> by set_solver. split; discriminate.
Defined.

(** C1 (as stated) fails when the rows of a group differ in their columns:
    the columns are divided once, from the first rows. Joining the left group
    [{id:1}, {id:1, x:5}] with the right group [{id:1}] on [id], the second
    left row has a column [x] that the right row lacks, and the row emitted
    for that pair has no [x]. *)
Lemma joiner_drops_later_columns :
  let a1 : TRow := {["id" := VInt 1]} in
  let a2 : TRow := {["id" := VInt 1; "x" := VInt 5]} in
  let b1 : TRow := {["id" := VInt 1]} in
  InnerJoiner "_1" "_2" ["id"] (from_list [a1; a2]) (from_list [b1])
  = from_list [ {["id" := VInt 1]}; {["id" := VInt 1]} ]
  ∧ ¬ passes_through a2 b1 {["id" := VInt 1]}.
Proof.
  intros a1 a2 b1. split; [by vm_compute|].
  intros [H _].
  assert (({["id" := VInt 1]} : TRow) !! "x" = a2 !! "x") as E
    by (apply H; unfold a2, b1; set_solver).
  vm_compute in E. discriminate.
Qed.

(** ** Join *)

Lemma py_lt_value_ltb x y b : py_lt x y = Ok b → b = value_ltb x y.
Proof. destruct x, y; simpl; congruence. Qed.

Lemma tuple_lt_ltb x y b : tuple_lt x y = Ok b → b = tuple_ltb x y.
Proof.
  revert y. induction x as [|a x IH]; intros [|c y]; simpl; try congruence.
  case_decide; [apply IH|apply py_lt_value_ltb].
Qed.

Lemma comparable_lt ka kb :
  comparable ka kb →
  tuple_lt ka kb = Ok (tuple_ltb ka kb) ∧ tuple_lt kb ka = Ok (tuple_ltb kb ka).
Proof.
  intros [H1 H2]. unfold is_ok in *.
  destruct (tuple_lt ka kb) as [b1|] eqn:E1; [|done].
  destruct (tuple_lt kb ka) as [b2|] eqn:E2; [|done].
  by rewrite (tuple_lt_ltb _ _ _ E1), (tuple_lt_ltb _ _ _ E2).
Qed.

Lemma tuple_ltb_irrefl x : tuple_ltb x x = false.
Proof. induction x as [|a x IH]; simpl; [done|]. by rewrite decide_True. Qed.

Lemma tuple_ltb_trans x y z :
  tuple_ltb x y = true → tuple_ltb y z = true → tuple_ltb x z = true.
Proof.
  revert y z. induction x as [|a x IH]; intros [|b y] [|c z]; simpl; try done.
  intros H1 H2. repeat case_decide; subst; try done.
  - by apply (IH y).
  - by rewrite (value_ltb_asym _ _ H1) in H2.
  - by apply (value_ltb_trans _ b).
Qed.

Lemma tuple_ltb_total x y :
  tuple_ltb x y = false → tuple_ltb y x = false → x = y.
Proof.
  revert y. induction x as [|a x IH]; intros [|b y]; simpl; try done.
  intros H1 H2. repeat case_decide; subst; try done.
  - f_equal. by apply IH.
  - exfalso. eauto using value_ltb_total.
Qed.

Lemma tuple_ltb_asym x y : tuple_ltb x y = true → tuple_ltb y x = false.
Proof.
  intros H. destruct (tuple_ltb y x) eqn:E; [|done].
  by rewrite <- (tuple_ltb_irrefl x), <- (tuple_ltb_trans _ _ _ H E).
Qed.

Lemma tuple_ltb_le_trans x y z :
  tuple_ltb y x = false → tuple_ltb y z = true → tuple_ltb x z = true.
Proof.
  intros H1 H2. destruct (tuple_ltb x y) eqn:E.
  - by apply (tuple_ltb_trans _ y).
  - by rewrite (tuple_ltb_total _ _ E H1).
Qed.

Lemma join_groups_calls joiner keys (GA GB : keyed_groups) :
  (∀ A B, A ∈ GA → B ∈ GB → comparable A.1 B.1) →
  join_groups joiner keys (groups_of GA) (groups_of GB)
  = chain (run_call joiner keys <$> merge_calls GA GB).
Proof.
  revert GB. induction GA as [|[ka ga] GA IHA]; intros GB.
  - intros _. induction GB as [|[kb gb] GB IHB]; [done|].
    cbn [groups_of join_groups merge_calls]. rewrite fmap_cons.
    cbn [chain run_call]. rewrite grouper_groups_of. f_equal. apply IHB.
  - induction GB as [|[kb gb] GB IHB]; intros Hcmp.
    + cbn [groups_of join_groups merge_calls]. rewrite fmap_cons.
      cbn [chain run_call]. rewrite grouper_groups_of. f_equal.
      apply (IHA []). intros A B _ HB. by apply not_elem_of_nil in HB.
    + cbn [groups_of join_groups merge_calls].
      destruct (comparable_lt ka kb) as [-> ->].
      { apply (Hcmp (ka, ga) (kb, gb)); left. }
      cbn [lift]. destruct (tuple_ltb ka kb).
      * rewrite fmap_cons. cbn [chain run_call]. rewrite grouper_groups_of.
        f_equal. apply (IHA ((kb, gb) :: GB)).
        intros A B HA HB. apply Hcmp; [by right|done].
      * cbn [lift]. destruct (tuple_ltb kb ka).
        -- rewrite fmap_cons. cbn [chain run_call]. rewrite grouper_groups_of.
           f_equal. apply IHB. intros A B HA HB. apply Hcmp; [done|by right].
        -- rewrite fmap_cons. cbn [chain run_call]. rewrite !grouper_groups_of.
           f_equal. apply IHA. intros A B HA HB. apply Hcmp; by right.
Qed.

Lemma runs_ascending keys rows :
  key_sorted keys rows → ascending (runs keys rows).
Proof.
  induction 1 as [|row rest Hs IH Hall]; simpl; [constructor|].
  destruct (runs keys rest) as [|[k' g] gs] eqn:E.
  { repeat constructor. }
  pose proof E as E'. apply runs_head in E' as (r2 & rest' & -> & ->).
  inversion IH as [|? ? IH' Hlt]; subst.
  inversion Hall as [|? ? Hr2 _]; subst.
  case_decide as Hd.
  - constructor; [done|]. exact Hlt.
  - assert (tuple_ltb (key_of keys row) (key_of keys r2) = true) as Hrow.
    { destruct (tuple_ltb (key_of keys row) (key_of keys r2)) eqn:E2; [done|].
      destruct Hd. by apply tuple_ltb_total. }
    constructor; [done|]. constructor; [done|].
    eapply Forall_impl; [exact Hlt|]. intros B HB. simpl in *.
    by apply (tuple_ltb_trans _ (key_of keys r2)).
Qed.

Lemma elem_of_concat {A} (ls : list (list A)) x :
  x ∈ concat ls ↔ ∃ l, x ∈ l ∧ l ∈ ls.
Proof.
  induction ls as [|l ls IH]; simpl.
  - split; [by intros ?%not_elem_of_nil|]. by intros (l & _ & ?%not_elem_of_nil).
  - rewrite elem_of_app, IH. split.
    + intros [H|(l' & H1 & H2)]; [exists l; split; [done|left]|].
      exists l'. split; [done|by right].
    + intros (l' & H1 & H2). apply elem_of_cons in H2 as [->|H2]; [by left|].
      right. by exists l'.
Qed.

Lemma elem_of_rows_of (gs : keyed_groups) row :
  row ∈ rows_of gs ↔ ∃ kg, kg ∈ gs ∧ row ∈ kg.2.
Proof.
  unfold rows_of. rewrite elem_of_concat. split.
  - intros (g & Hrow & Hg). apply list_elem_of_fmap in Hg as (kg & -> & Hkg).
    by exists kg.
  - intros (kg & Hkg & Hrow). exists kg.2. split; [done|].
    apply list_elem_of_fmap. by exists kg.
Qed.

Lemma runs_group keys rows kg :
  Forall (has_keys keys) rows →
  kg ∈ runs keys rows →
  kg.2 ≠ [] ∧ ∀ row, row ∈ kg.2 → row ∈ rows ∧ key_of keys row = kg.1.
Proof.
  intros Hk Hin. destruct (runs_contiguous keys rows Hk) as (Hrows & Hall & _).
  pose proof (proj1 (Forall_forall _ _) Hall kg Hin) as [Hne Hg].
  split; [done|]. intros row Hrow. split.
  - rewrite <- Hrows. apply elem_of_rows_of. by exists kg.
  - apply key_of_ok. by apply (proj1 (Forall_forall _ _) Hg).
Qed.

Lemma runs_cover keys rows row :
  row ∈ rows → ∃ kg, kg ∈ runs keys rows ∧ row ∈ kg.2.
Proof. rewrite <- (rows_of_runs keys rows) at 1. apply elem_of_rows_of. Qed.

Lemma matched_pairs_cons A GA GB :
  matched_pairs (A :: GA) GB
  = ((fun B => (A.2, B.2)) <$> filter (fun B => B.1 = A.1) GB) ++ matched_pairs GA GB.
Proof. done. Qed.

Lemma filter_key_none (k : list value) (GB : keyed_groups) :
  Forall (fun B => B.1 ≠ k) GB → filter (fun B => B.1 = k) GB = [].
Proof.
  induction 1 as [|B GB HB _ IH]; [done|].
  by rewrite filter_cons_False.
Qed.

Lemma matched_pairs_nil_r GA : matched_pairs GA [] = [].
Proof. induction GA as [|A GA IH]; [done|]. by rewrite matched_pairs_cons, IH. Qed.

Lemma matched_pairs_cons_r_ne GA B GB :
  Forall (fun A => A.1 ≠ B.1) GA →
  matched_pairs GA (B :: GB) = matched_pairs GA GB.
Proof.
  induction 1 as [|A GA HA _ IH]; [done|].
  rewrite !matched_pairs_cons, IH, filter_cons_False; [done|].
  simpl. congruence.
Qed.

Lemma ascending_ne k (GB : keyed_groups) :
  Forall (fun B => tuple_ltb k B.1 = true) GB → Forall (fun B => B.1 ≠ k) GB.
Proof.
  intros H. eapply Forall_impl; [exact H|].
  intros B HB E. simpl in HB. by rewrite E, tuple_ltb_irrefl in HB.
Qed.

Lemma merge_calls_nil_cons kb gb GB :
  merge_calls [] ((kb, gb) :: GB) = OnlyRight gb :: merge_calls [] GB.
Proof. reflexivity. Qed.

Lemma merge_calls_cons_nil ka ga GA :
  merge_calls ((ka, ga) :: GA) [] = OnlyLeft ga :: merge_calls GA [].
Proof. reflexivity. Qed.

Lemma merge_calls_cons_cons ka ga GA kb gb GB :
  merge_calls ((ka, ga) :: GA) ((kb, gb) :: GB)
  = if tuple_ltb ka kb then OnlyLeft ga :: merge_calls GA ((kb, gb) :: GB)
    else if tuple_ltb kb ka then OnlyRight gb :: merge_calls ((ka, ga) :: GA) GB
    else Both ga gb :: merge_calls GA GB.
Proof. reflexivity. Qed.

Lemma merge_calls_matched GA GB :
  ascending GA → ascending GB →
  omap both_of (merge_calls GA GB) = matched_pairs GA GB.
Proof.
  intros HA. revert GB. induction HA as [|[ka ga] GA HA IHA HltA]; intros GB HB.
  - induction HB as [|[kb gb] GB HB IHB HltB]; [done|].
    rewrite merge_calls_nil_cons. simpl. apply IHB.
  - induction HB as [|[kb gb] GB HB IHB HltB].
    + rewrite merge_calls_cons_nil. cbn [omap list_omap both_of].
      rewrite (IHA []) by constructor.
      by rewrite !matched_pairs_nil_r.
    + rewrite merge_calls_cons_cons. destruct (tuple_ltb ka kb) eqn:E1.
      * cbn [omap list_omap both_of].
        rewrite (IHA ((kb, gb) :: GB)) by (by constructor).
        rewrite matched_pairs_cons, filter_key_none; [done|].
        apply ascending_ne. constructor; [done|].
        eapply Forall_impl; [exact HltB|]. intros B HBlt. simpl in *.
        by apply (tuple_ltb_trans _ kb).
      * destruct (tuple_ltb kb ka) eqn:E2.
        -- cbn [omap list_omap both_of]. rewrite IHB.
           rewrite matched_pairs_cons_r_ne; [done|].
           apply ascending_ne. constructor; [done|].
           eapply Forall_impl; [exact HltA|]. intros A HAlt. simpl in *.
           by apply (tuple_ltb_trans _ ka).
        -- cbn [omap list_omap both_of]. rewrite (IHA GB HB).
           assert (ka = kb) as -> by (by apply tuple_ltb_total).
           rewrite matched_pairs_cons, filter_cons_True by done.
           rewrite filter_key_none by (by apply ascending_ne).
           rewrite matched_pairs_cons_r_ne by (by apply ascending_ne).
           done.
Qed.

Lemma merge_calls_left GA GB A :
  A ∈ GA →
  OnlyLeft A.2 ∈ merge_calls GA GB
  ∨ ∃ B, B ∈ GB ∧ B.1 = A.1 ∧ Both A.2 B.2 ∈ merge_calls GA GB.
Proof.
  revert GB. induction GA as [|[ka ga] GA IHA]; intros GB HA.
  { by apply not_elem_of_nil in HA. }
  induction GB as [|[kb gb] GB IHB].
  - rewrite merge_calls_cons_nil. apply elem_of_cons in HA as [->|HA]; [left; left|].
    destruct (IHA [] HA) as [H|(B & HB & _)]; [left; by right|].
    by apply not_elem_of_nil in HB.
  - rewrite merge_calls_cons_cons. destruct (tuple_ltb ka kb) eqn:E1.
    + apply elem_of_cons in HA as [->|HA]; [left; left|].
      destruct (IHA ((kb, gb) :: GB) HA) as [H|(B & HB & Hk & H)];
        [left; by right|].
      right. exists B. split; [done|]. split; [done|]. by right.
    + destruct (tuple_ltb kb ka) eqn:E2.
      * destruct IHB as [H|(B & HB & Hk & H)]; [left; by right|].
        right. exists B. split; [by right|]. split; [done|]. by right.
      * apply elem_of_cons in HA as [->|HA].
        { right. exists (kb, gb). split; [left|]. split; [|left].
          simpl. by apply tuple_ltb_total. }
        destruct (IHA GB HA) as [H|(B & HB & Hk & H)]; [left; by right|].
        right. exists B. split; [by right|]. split; [done|]. by right.
Qed.

Lemma merge_calls_right GA GB B :
  B ∈ GB →
  OnlyRight B.2 ∈ merge_calls GA GB
  ∨ ∃ A, A ∈ GA ∧ A.1 = B.1 ∧ Both A.2 B.2 ∈ merge_calls GA GB.
Proof.
  revert GB. induction GA as [|[ka ga] GA IHA]; intros GB.
  { induction GB as [|[kb gb] GB IHB]; intros HB.
    - by apply not_elem_of_nil in HB.
    - rewrite merge_calls_nil_cons. apply elem_of_cons in HB as [->|HB]; [left; left|].
      destruct (IHB HB) as [H|(A & HA & _)]; [left; by right|].
      by apply not_elem_of_nil in HA. }
  induction GB as [|[kb gb] GB IHB]; intros HB.
  { by apply not_elem_of_nil in HB. }
  rewrite merge_calls_cons_cons. destruct (tuple_ltb ka kb) eqn:E1.
  - destruct (IHA ((kb, gb) :: GB) HB) as [H|(A & HA & Hk & H)]; [left; by right|].
    right. exists A. split; [by right|]. split; [done|]. by right.
  - destruct (tuple_ltb kb ka) eqn:E2.
    + apply elem_of_cons in HB as [->|HB]; [left; left|].
      destruct (IHB HB) as [H|(A & HA & Hk & H)]; [left; by right|].
      right. exists A. split; [done|]. split; [done|]. by right.
    + apply elem_of_cons in HB as [->|HB].
      { right. exists (ka, ga). split; [left|]. split; [|left].
        simpl. by apply tuple_ltb_total. }
      destruct (IHA GB HB) as [H|(A & HA & Hk & H)]; [left; by right|].
      right. exists A. split; [by right|]. split; [done|]. by right.
Qed.

Lemma merge_calls_groups GA GB c :
  c ∈ merge_calls GA GB →
  match c with
  | OnlyLeft ga => ∃ k, (k, ga) ∈ GA
  | OnlyRight gb => ∃ k, (k, gb) ∈ GB
  | Both ga gb => (∃ k, (k, ga) ∈ GA) ∧ (∃ k, (k, gb) ∈ GB)
  end.
Proof.
  revert GB. induction GA as [|[ka ga] GA IHA]; intros GB.
  { induction GB as [|[kb gb] GB IHB]; intros Hc.
    - by apply not_elem_of_nil in Hc.
    - rewrite merge_calls_nil_cons in Hc. apply elem_of_cons in Hc as [->|Hc]; [exists kb; left|].
      specialize (IHB Hc). destruct c; set_solver. }
  induction GB as [|[kb gb] GB IHB]; intros Hc.
  - rewrite merge_calls_cons_nil in Hc.
    apply elem_of_cons in Hc as [->|Hc]; [exists ka; left|].
    specialize (IHA [] Hc). destruct c; set_solver.
  - rewrite merge_calls_cons_cons in Hc. destruct (tuple_ltb ka kb) eqn:E1.
    + apply elem_of_cons in Hc as [->|Hc]; [exists ka; left|].
      specialize (IHA _ Hc). destruct c; set_solver.
    + destruct (tuple_ltb kb ka) eqn:E2.
      * apply elem_of_cons in Hc as [->|Hc]; [exists kb; left|].
        specialize (IHB Hc). destruct c; set_solver.
      * apply elem_of_cons in Hc as [->|Hc].
        { split; [exists ka|exists kb]; left. }
        specialize (IHA _ Hc). destruct c; set_solver.
Qed.

Lemma run_call_inner sa sb keys DA DB c :
  no_clash sa sb keys DA DB →
  call_uniform DA DB c →
  run_call (InnerJoiner sa sb) keys c = from_list (inner_rows sa sb keys c).
Proof.
  intros Hc Hu. destruct c as [ga|gb|ga gb].
  - reflexivity.
  - simpl. unfold InnerJoiner. rewrite to_list_from_list. by destruct gb.
  - destruct Hu as (Hga & Hgb & HA & HB).
    apply (joiner_uniform Inner sa sb keys ga gb DA DB); done.
Qed.

Lemma run_call_outer sa sb keys DA DB c :
  no_clash sa sb keys DA DB →
  call_uniform DA DB c →
  run_call (OuterJoiner sa sb) keys c = from_list (outer_rows sa sb keys c).
Proof.
  intros Hc Hu. destruct c as [ga|gb|ga gb].
  - reflexivity.
  - simpl. unfold OuterJoiner. rewrite to_list_from_list. by destruct gb.
  - destruct Hu as (Hga & Hgb & HA & HB).
    apply (joiner_uniform Outer sa sb keys ga gb DA DB); done.
Qed.

Lemma chain_calls (joiner : Joiner) keys (rows_c : call → list TRow) cs :
  Forall (fun c => run_call joiner keys c = from_list (rows_c c)) cs →
  chain (run_call joiner keys <$> cs) = from_list (concat (rows_c <$> cs)).
Proof.
  induction 1 as [|c cs Hc _ IH]; csimpl; [done|].
  by rewrite Hc, IH, from_list_app.
Qed.

Lemma inner_rows_matched sa sb keys cs :
  concat (inner_rows sa sb keys <$> cs)
  = concat ((fun p => cross (joined sa sb keys) p.1 p.2) <$> omap both_of cs).
Proof.
  induction cs as [|c cs IH]; [done|].
  destruct c as [ga|gb|ga gb]; csimpl; by rewrite ?IH.
Qed.

Lemma elem_of_cross {A B C} (f : A → B → C) la lb a b :
  a ∈ la → b ∈ lb → f a b ∈ cross f la lb.
Proof.
  intros Ha Hb. unfold cross. apply elem_of_concat. exists (f a <$> lb).
  split; [by apply list_elem_of_fmap_2|].
  by apply (list_elem_of_fmap_2 (fun a => f a <$> lb)).
Qed.

Lemma elem_of_matched_pairs (GA GB : keyed_groups) A B :
  A ∈ GA → B ∈ GB → B.1 = A.1 → (A.2, B.2) ∈ matched_pairs GA GB.
Proof.
  intros HA HB Hk. unfold matched_pairs. apply elem_of_concat.
  eexists. split; [|apply list_elem_of_fmap; exists A; split; [reflexivity|done]].
  simpl. apply list_elem_of_fmap. exists B. split; [done|].
  by apply list_elem_of_filter.
Qed.

Lemma calls_uniform keys A B DA DB c :
  Forall (has_keys keys) A → Forall (has_keys keys) B →
  Forall (fun a => dom a = DA) A → Forall (fun b => dom b = DB) B →
  c ∈ merge_calls (runs keys A) (runs keys B) →
  call_uniform DA DB c.
Proof.
  intros HkA HkB HA HB Hc. apply merge_calls_groups in Hc.
  destruct c as [ga|gb|ga gb]; [done|done|].
  destruct Hc as [[ka Hga] [kb Hgb]].
  destruct (runs_group keys A _ HkA Hga) as [Hne1 Hin1].
  destruct (runs_group keys B _ HkB Hgb) as [Hne2 Hin2].
  split; [done|]. split; [done|]. split; apply Forall_forall; intros r Hr.
  - apply (proj1 (Forall_forall _ _) HA). by apply Hin1.
  - apply (proj1 (Forall_forall _ _) HB). by apply Hin2.
Qed.

Lemma Join_calls (joiner : Joiner) keys A B :
  Forall (has_keys keys) A → Forall (has_keys keys) B →
  (∀ a b, a ∈ A → b ∈ B → comparable (key_of keys a) (key_of keys b)) →
  Join joiner keys (from_list A) (from_list B)
  = chain (run_call joiner keys <$> merge_calls (runs keys A) (runs keys B)).
Proof.
  intros HkA HkB Hcmp. unfold Join. rewrite !groupby_from_list by done.
  apply join_groups_calls. intros GA GB HGA HGB.
  destruct (runs_group keys A _ HkA HGA) as [Hne1 Hin1].
  destruct (runs_group keys B _ HkB HGB) as [Hne2 Hin2].
  destruct GA as [ka [|a ga]]; [done|]. destruct GB as [kb [|b gb]]; [done|].
  destruct (Hin1 a) as [Ha <-]; [left|]. destruct (Hin2 b) as [Hb <-]; [left|].
  by apply Hcmp.
Qed.

Lemma merge_calls_both GA GB ga gb :
  Both ga gb ∈ merge_calls GA GB → ∃ k, (k, ga) ∈ GA ∧ (k, gb) ∈ GB.
Proof.
  revert GB. induction GA as [|[ka ga'] GA IHA]; intros GB.
  { induction GB as [|[kb gb'] GB IHB]; intros Hc.
    - by apply not_elem_of_nil in Hc.
    - rewrite merge_calls_nil_cons in Hc. apply elem_of_cons in Hc as [?|Hc]; [done|].
      destruct (IHB Hc) as (k & H1 & H2). by apply not_elem_of_nil in H1. }
  induction GB as [|[kb gb'] GB IHB]; intros Hc.
  - rewrite merge_calls_cons_nil in Hc. apply elem_of_cons in Hc as [?|Hc]; [done|].
    destruct (IHA [] Hc) as (k & H1 & H2). by apply not_elem_of_nil in H2.
  - rewrite merge_calls_cons_cons in Hc. destruct (tuple_ltb ka kb) eqn:E1.
    + apply elem_of_cons in Hc as [?|Hc]; [done|].
      destruct (IHA _ Hc) as (k & H1 & H2). exists k. split; [by right|done].
    + destruct (tuple_ltb kb ka) eqn:E2.
      * apply elem_of_cons in Hc as [?|Hc]; [done|].
        destruct (IHB Hc) as (k & H1 & H2). exists k. split; [done|by right].
      * apply elem_of_cons in Hc as [Hc|Hc].
        { injection Hc as -> ->. assert (ka = kb) as -> by (by apply tuple_ltb_total).
          exists kb. split; left. }
        destruct (IHA _ Hc) as (k & H1 & H2). exists k. split; by right.
Qed.

Lemma calls_uniform_matched sa sb keys A B c :
  Forall (has_keys keys) A → Forall (has_keys keys) B →
  (∀ a a' b, a ∈ A → a' ∈ A → b ∈ B →
             key_of keys a' = key_of keys a → key_of keys b = key_of keys a →
             dom a' = dom a) →
  (∀ a b b', a ∈ A → b ∈ B → b' ∈ B →
             key_of keys b = key_of keys a → key_of keys b' = key_of keys a →
             dom b' = dom b) →
  (∀ a b, a ∈ A → b ∈ B → key_of keys b = key_of keys a →
          no_clash sa sb keys (dom a) (dom b)) →
  c ∈ merge_calls (runs keys A) (runs keys B) →
  ∃ DA DB, no_clash sa sb keys DA DB ∧ call_uniform DA DB c.
Proof.
  intros HkA HkB HA HB Hclash Hc.
  assert (no_clash sa sb keys ∅ ∅) as Hempty.
  { split; intros c0 c' Hc0; set_solver. }
  destruct c as [ga|gb|ga gb]; [by exists ∅, ∅|by exists ∅, ∅|].
  apply merge_calls_both in Hc as (k & Hga & Hgb).
  destruct (runs_group keys A _ HkA Hga) as [Hne1 Hin1].
  destruct (runs_group keys B _ HkB Hgb) as [Hne2 Hin2]. simpl in *.
  destruct ga as [|a0 ga]; [done|]. destruct gb as [|b0 gb]; [done|].
  destruct (Hin1 a0) as [Ha0 Hka0]; [left|].
  destruct (Hin2 b0) as [Hb0 Hkb0]; [left|].
  exists (dom a0), (dom b0). split; [apply Hclash; [done|done|congruence]|].
  split; [done|]. split; [done|]. split; apply Forall_forall; intros r Hr.
  - destruct (Hin1 r Hr) as [HrA Hkr]. apply (HA a0 r b0); [done|done|done|congruence|congruence].
  - destruct (Hin2 r Hr) as [HrB Hkr]. apply (HB a0 b0 r); [done|done|done|congruence|congruence].
Qed.

(** C6 (as the code has it): for two key-sorted streams whose rows carry the
    key columns with mutually comparable key tuples, in which the rows of
    every matched group (a group whose key tuple occurs on the other side)
    have one set of columns and the suffixed names of a matched pair of
    groups are new: the output of an Inner join is exactly the cross-products
    of the pairs of groups with equal key tuples, in key order, and nothing
    else; the output of an Outer join contains every row whose key tuple does
    not occur on the other side as it is, and the combined row of every left
    row and right row with equal key tuples. Groups with different key
    tuples may differ in their columns, and nothing is asked of the columns
    of a group without a partner. *)
Theorem Join_completeness (sa sb : string) (keys : list string)
    (A B : list TRow) :
  Forall (has_keys keys) A → Forall (has_keys keys) B →
  key_sorted keys A → key_sorted keys B →
  (∀ a b, a ∈ A → b ∈ B → comparable (key_of keys a) (key_of keys b)) →
  (∀ a a' b, a ∈ A → a' ∈ A → b ∈ B →
             key_of keys a' = key_of keys a → key_of keys b = key_of keys a →
             dom a' = dom a) →
  (∀ a b b', a ∈ A → b ∈ B → b' ∈ B →
             key_of keys b = key_of keys a → key_of keys b' = key_of keys a →
             dom b' = dom b) →
  (∀ a b, a ∈ A → b ∈ B → key_of keys b = key_of keys a →
          no_clash sa sb keys (dom a) (dom b)) →
  Join (InnerJoiner sa sb) keys (from_list A) (from_list B)
  = from_list (concat ((fun p => cross (joined sa sb keys) p.1 p.2)
                         <$> matched_pairs (runs keys A) (runs keys B)))
  ∧ ∃ out,
      Join (OuterJoiner sa sb) keys (from_list A) (from_list B) = from_list out
      ∧ (∀ a, a ∈ A → (∀ b, b ∈ B → key_of keys b ≠ key_of keys a) → a ∈ out)
      ∧ (∀ b, b ∈ B → (∀ a, a ∈ A → key_of keys a ≠ key_of keys b) → b ∈ out)
      ∧ (∀ a b, a ∈ A → b ∈ B → key_of keys a = key_of keys b →
                joined sa sb keys a b ∈ out).
Proof.
  intros HkA HkB HsA HsB Hcmp HA HB Hclash.
  set (cs := merge_calls (runs keys A) (runs keys B)).
  assert (Forall (fun c => ∃ DA DB, no_clash sa sb keys DA DB ∧ call_uniform DA DB c)
            cs) as Hu.
  { apply Forall_forall. intros c Hc. by apply (calls_uniform_matched sa sb keys A B). }
  assert (omap both_of cs = matched_pairs (runs keys A) (runs keys B)) as Hm.
  { apply merge_calls_matched; by apply runs_ascending. }
  split.
  - rewrite Join_calls by done. fold cs.
    rewrite (chain_calls _ _ (inner_rows sa sb keys)).
    + by rewrite inner_rows_matched, Hm.
    + eapply Forall_impl; [exact Hu|]. intros c (DA & DB & Hcl & Hcu).
      by apply (run_call_inner sa sb keys DA DB).
  - exists (concat (outer_rows sa sb keys <$> cs)).
    split; [|split; [|split]].
    + rewrite Join_calls by done. fold cs. apply chain_calls.
      eapply Forall_impl; [exact Hu|]. intros c (DA & DB & Hcl & Hcu).
      by apply (run_call_outer sa sb keys DA DB).
    + intros a Ha Hun. destruct (runs_cover keys A a Ha) as (GA & HGA & HaG).
      destruct (runs_group keys A _ HkA HGA) as [_ HinA].
      destruct (merge_calls_left _ (runs keys B) _ HGA) as [Hc|(GB & HGB & Hk & _)].
      * apply elem_of_concat. exists GA.2. split; [done|].
        by apply (list_elem_of_fmap_2 (outer_rows sa sb keys) _ (OnlyLeft GA.2)).
      * destruct (runs_group keys B _ HkB HGB) as [Hne HinB].
        destruct GB as [kb [|b gb]]; [done|].
        destruct (HinB b) as [Hb Hkb]; [left|]. destruct (HinA a HaG) as [_ Hka].
        destruct (Hun b Hb). simpl in *. congruence.
    + intros b Hb Hun. destruct (runs_cover keys B b Hb) as (GB & HGB & HbG).
      destruct (runs_group keys B _ HkB HGB) as [_ HinB].
      destruct (merge_calls_right (runs keys A) _ _ HGB) as [Hc|(GA & HGA & Hk & _)].
      * apply elem_of_concat. exists GB.2. split; [done|].
        by apply (list_elem_of_fmap_2 (outer_rows sa sb keys) _ (OnlyRight GB.2)).
      * destruct (runs_group keys A _ HkA HGA) as [Hne HinA].
        destruct GA as [ka [|a ga]]; [done|].
        destruct (HinA a) as [Ha Hka]; [left|]. destruct (HinB b HbG) as [_ Hkb].
        destruct (Hun a Ha). simpl in *. congruence.
    + intros a b Ha Hb Hk.
      destruct (runs_cover keys A a Ha) as (GA & HGA & HaG).
      destruct (runs_cover keys B b Hb) as (GB & HGB & HbG).
      destruct (runs_group keys A _ HkA HGA) as [_ HinA].
      destruct (runs_group keys B _ HkB HGB) as [_ HinB].
      destruct (HinA a HaG) as [_ Hka]. destruct (HinB b HbG) as [_ Hkb].
      assert ((GA.2, GB.2) ∈ omap both_of cs) as Hp.
      { rewrite Hm. apply elem_of_matched_pairs; [done|done|congruence]. }
      apply list_elem_of_omap in Hp as (c & Hc & Hboth).
      destruct c as [|?|ga gb]; try done. injection Hboth as -> ->.
      apply elem_of_concat. exists (cross (joined sa sb keys) GA.2 GB.2).
      split; [by apply elem_of_cross|].
      by apply (list_elem_of_fmap_2 (outer_rows sa sb keys) _ (Both GA.2 GB.2)).
Qed.

Lemma Join_completeness_witness :
  let A : list TRow := [ {["id" := VInt 1; "x" := VInt 5]};
                         {["id" := VInt 2; "y" := VInt 7]};
                         {["id" := VInt 3; "cost" := VInt 90]} ] in
  let B : list TRow := [ {["id" := VInt 1; "z" := VInt 0]};
                         {["id" := VInt 2; "w" := VInt 1]};
                         {["id" := VInt 4; "speed" := VInt 10]} ] in
  Join (InnerJoiner "_1" "_2") ["id"] (from_list A) (from_list B)
  = from_list (concat ((fun p => cross (joined "_1" "_2" ["id"]) p.1 p.2)
                         <$> matched_pairs (runs ["id"] A) (runs ["id"] B)))
  ∧ ∃ out,
      Join (OuterJoiner "_1" "_2") ["id"] (from_list A) (from_list B) = from_list out
      ∧ (∀ a, a ∈ A → (∀ b, b ∈ B → key_of ["id"] b ≠ key_of ["id"] a) → a ∈ out)
      ∧ (∀ b, b ∈ B → (∀ a, a ∈ A → key_of ["id"] a ≠ key_of ["id"] b) → b ∈ out)
      ∧ (∀ a b, a ∈ A → b ∈ B → key_of ["id"] a = key_of ["id"] b →
                joined "_1" "_2" ["id"] a b ∈ out).
Proof.
  intros A B.
  apply (Join_completeness "_1" "_2" ["id"] A B).
  - repeat constructor.
  - repeat constructor.
  - repeat constructor.
  - repeat constructor.
  - intros a b Ha Hb. unfold A, B in *.
    repeat (apply elem_of_cons in Ha as [->|Ha]);
      repeat (apply elem_of_cons in Hb as [->|Hb]);
      try (by apply not_elem_of_nil in Ha); try (by apply not_elem_of_nil in Hb);
      by split.
  - intros a a' b Ha Ha' Hb Hk' Hk. unfold A, B in *.
    repeat (apply elem_of_cons in Ha as [->|Ha]);
      repeat (apply elem_of_cons in Ha' as [->|Ha']);
      try (by apply not_elem_of_nil in Ha); try (by apply not_elem_of_nil in Ha');
      try done; by vm_compute in Hk'.
  - intros a b b' Ha Hb Hb' Hk Hk'. unfold A, B in *.
    repeat (apply elem_of_cons in Hb as [->|Hb]);
      repeat (apply elem_of_cons in Hb' as [->|Hb']);
      try (by apply not_elem_of_nil in Hb); try (by apply not_elem_of_nil in Hb');
      try done; vm_compute in Hk, Hk'; congruence.
  - intros a b Ha Hb Hk. unfold A, B in *.
    repeat (apply elem_of_cons in Ha as [->|Ha]);
      repeat (apply elem_of_cons in Hb as [->|Hb]);
      try (by apply not_elem_of_nil in Ha); try (by apply not_elem_of_nil in Hb);
      try (by vm_compute in Hk);
      unfold no_clash; split; intros c c' Hc; set_solver.
Defined.

(** C6 (as stated) fails when the rows of a group differ in their columns.
    Both streams below are sorted and grouped by [id]. The columns are
    divided from the first rows, [{id:1, x:5}] and [{id:1, z:0}]; the second
    left row has no [x], so the lookup [row_a['x']] ends the join after the
    first output row: the Inner join does not emit the cross-product of the
    matched groups, and no output row of the Outer join holds the second left
    row or its value [y = 7]. *)
Lemma Join_incomplete_on_mixed_columns :
  let A : list TRow := [ {["id" := VInt 1; "x" := VInt 5]};
                         {["id" := VInt 1; "y" := VInt 7]} ] in
  let B : list TRow := [ {["id" := VInt 1; "z" := VInt 0]} ] in
  Join (InnerJoiner "_1" "_2") ["id"] (from_list A) (from_list B)
  = Yield {["id" := VInt 1; "x" := VInt 5; "z" := VInt 0]}
          (Raise (KeyError (VStr "x")))
  ∧ Join (OuterJoiner "_1" "_2") ["id"] (from_list A) (from_list B)
    = Yield {["id" := VInt 1; "x" := VInt 5; "z" := VInt 0]}
            (Raise (KeyError (VStr "x")))
  ∧ ∀ out, out ∈ emitted (Join (OuterJoiner "_1" "_2") ["id"]
                            (from_list A) (from_list B)) →
           out !! "y" = None.
Proof.
  intros A B.
  assert (Join (OuterJoiner "_1" "_2") ["id"] (from_list A) (from_list B)
          = Yield {["id" := VInt 1; "x" := VInt 5; "z" := VInt 0]}
                  (Raise (KeyError (VStr "x")))) as HO by (by vm_compute).
  split; [by vm_compute|]. split; [exact HO|].
  intros out. rewrite HO. simpl. intros Hout.
  apply list_elem_of_singleton in Hout. subst. by vm_compute.
Qed.

(** ** External sort *)

Section external_sort_facts.

Context {A K : Type} `{EqDecision K}.
Variable key : A → K.
Variable ltb : K → K → bool.
Hypothesis ltb_irrefl : ∀ k, ltb k k = false.
Hypothesis ltb_trans : ∀ x y z, ltb x y = true → ltb y z = true → ltb x z = true.
Hypothesis ltb_total : ∀ x y, ltb x y = false → ltb y x = false → x = y.

Let lt (a b : A) : bool := ltb (key a) (key b).
Let sorted (l : list A) : Prop := StronglySorted (fun a b => lt b a = false) l.
Let of_key (k : K) (l : list A) : list A := filter (fun a => key a = k) l.

Local Lemma lt_asym a b : lt a b = true → lt b a = false.
Proof.
  unfold lt. intros H. destruct (ltb (key b) (key a)) eqn:E; [|done].
  by rewrite <- (ltb_irrefl (key a)), <- (ltb_trans _ _ _ H E).
Qed.

Local Lemma le_trans a b c : lt b a = false → lt c b = false → lt c a = false.
Proof.
  unfold lt. intros H1 H2. destruct (ltb (key c) (key a)) eqn:E; [|done].
  destruct (ltb (key a) (key b)) eqn:E2.
  - by rewrite (ltb_trans _ _ _ E E2) in H2.
  - by rewrite <- (ltb_total _ _ E2 H1), E in H2.
Qed.

Local Lemma lt_le_trans a b c : lt a b = true → lt c b = false → lt a c = true.
Proof.
  unfold lt. intros H1 H2. destruct (ltb (key b) (key c)) eqn:E.
  - by apply (ltb_trans _ (key b)).
  - by rewrite <- (ltb_total _ _ E H2).
Qed.

Local Lemma sorted_tail x l : sorted (x :: l) → sorted l.
Proof. by inversion 1. Qed.

Lemma insert_row_perm x run : external_sort.insert_row lt x run ≡ₚ x :: run.
Proof.
  induction run as [|y rest IH]; simpl; [done|].
  destruct (lt y x); [|done]. rewrite IH. apply perm_swap.
Qed.

Lemma insert_row_sorted x run :
  sorted run → sorted (external_sort.insert_row lt x run).
Proof.
  induction 1 as [|y rest Hs IH Hall]; simpl; [repeat constructor|].
  destruct (lt y x) eqn:E.
  - constructor; [done|]. rewrite insert_row_perm. constructor; [|done].
    by apply lt_asym.
  - constructor; [by constructor|]. constructor; [done|].
    eapply Forall_impl; [exact Hall|]. intros z Hz. simpl in *.
    by apply (le_trans _ y).
Qed.

Lemma insert_row_of_key k x run :
  of_key k (external_sort.insert_row lt x run) = of_key k (x :: run).
Proof.
  unfold of_key. induction run as [|y rest IH]; simpl; [done|].
  destruct (lt y x) eqn:E; [|done].
  rewrite (filter_cons _ y), IH, !(filter_cons _ x), (filter_cons _ y).
  destruct (decide (key y = k)) as [Hy|Hy], (decide (key x = k)) as [Hx|Hx];
    try done.
  unfold lt in E. by rewrite Hy, Hx, ltb_irrefl in E.
Qed.

Lemma sort_run_perm run : external_sort.sort_run lt run ≡ₚ run.
Proof.
  induction run as [|x run IH]; simpl; [done|].
  by rewrite insert_row_perm, IH.
Qed.

Lemma sort_run_sorted run : sorted (external_sort.sort_run lt run).
Proof.
  induction run as [|x run IH]; simpl; [constructor|].
  by apply insert_row_sorted.
Qed.

Lemma sort_run_of_key k run : of_key k (external_sort.sort_run lt run) = of_key k run.
Proof.
  induction run as [|x run IH]; simpl; [done|].
  rewrite insert_row_of_key. unfold of_key in *.
  by rewrite !(filter_cons _ x), IH.
Qed.

Lemma partition_runs_concat fuel run_size (rows : list A) :
  (1 ≤ run_size)%nat → (length rows ≤ fuel)%nat →
  concat (external_sort.partition_runs fuel run_size rows) = rows.
Proof.
  intros Hn. revert rows. induction fuel as [|fuel IH]; intros rows Hlen.
  - by destruct rows; simpl in *; [|lia].
  - destruct rows as [|x rows]; [done|].
    cbn [external_sort.partition_runs concat]. rewrite IH.
    + apply take_drop.
    + rewrite length_drop. simpl in *. lia.
Qed.

Lemma pop_least_None runs :
  external_sort.pop_least lt runs = None → concat runs = [].
Proof.
  induction runs as [|[|x run] rest IH]; simpl; [done| |].
  - destruct (external_sort.pop_least lt rest) as [[y rest']|]; [done|]. auto.
  - destruct (external_sort.pop_least lt rest) as [[y rest']|]; [|done].
    by destruct (lt y x).
Qed.

Lemma pop_least_Some runs x runs' :
  Forall sorted runs →
  external_sort.pop_least lt runs = Some (x, runs') →
  ∃ pre run post,
    runs = pre ++ (x :: run) :: post
    ∧ runs' = pre ++ run :: post
    ∧ Forall (fun y => lt x y = true) (concat pre)
    ∧ Forall (fun y => lt y x = false) (run ++ concat post).
Proof.
  intros Hs. revert x runs'.
  induction Hs as [|run0 rest Hrun0 Hs IH]; intros x runs'; simpl; [done|].
  destruct run0 as [|x0 run0].
  - destruct (external_sort.pop_least lt rest) as [[y rest']|]; [|done].
    intros Heq; injection Heq as Hx Hr; subst x runs'. destruct (IH _ _ eq_refl) as (pre & run & post & -> & -> & H1 & H2).
    by exists ([] :: pre), run, post.
  - inversion Hrun0 as [|? ? Hrun0' Hx0]; subst.
    destruct (external_sort.pop_least lt rest) as [[y rest']|] eqn:E.
    + destruct (IH _ _ eq_refl) as (pre & run & post & -> & -> & H1 & H2).
      destruct (lt y x0) eqn:Elt; intros Heq; injection Heq as Hx Hr; subst x runs'.
      * exists ((x0 :: run0) :: pre), run, post. split; [done|]. split; [done|].
        split; [|done]. simpl. constructor; [done|]. apply Forall_app. split; [|done].
        eapply Forall_impl; [exact Hx0|]. intros z Hz. simpl in *.
        by apply (lt_le_trans _ x0).
      * exists [], run0, (pre ++ (y :: run) :: post). split; [done|]. split; [done|].
        split; [constructor|]. apply Forall_app. split; [done|].
        rewrite concat_app. simpl. apply Forall_app. split.
        { eapply Forall_impl; [exact H1|]. intros z Hz. simpl in *.
          apply (le_trans _ y); [done|by apply lt_asym]. }
        constructor; [done|].
        eapply Forall_impl; [exact H2|]. intros z Hz. simpl in *.
        by apply (le_trans _ y).
    + intros Heq; injection Heq as Hx Hr; subst x runs'. exists [], run0, rest. split; [done|]. split; [done|].
      split; [constructor|]. apply Forall_app. split; [done|].
      by rewrite (pop_least_None _ E).
Qed.

Lemma of_key_above k x (l : list A) :
  key x = k → Forall (fun y => lt x y = true) l → of_key k l = [].
Proof.
  intros Hk. unfold of_key. induction 1 as [|y l Hy _ IH]; [done|].
  rewrite filter_cons_False; [done|]. intros E.
  unfold lt in Hy. by rewrite Hk, E, ltb_irrefl in Hy.
Qed.

Lemma kway_merge_spec fuel runs :
  Forall sorted runs →
  (length (concat runs) ≤ fuel)%nat →
  sorted (external_sort.kway_merge lt fuel runs)
  ∧ external_sort.kway_merge lt fuel runs ≡ₚ concat runs
  ∧ ∀ k, of_key k (external_sort.kway_merge lt fuel runs) = of_key k (concat runs).
Proof.
  revert runs. induction fuel as [|fuel IH]; intros runs Hs Hlen.
  - assert (concat runs = []) as -> by (apply length_zero_iff_nil; lia).
    simpl. split; [constructor|]. by split.
  - simpl. destruct (external_sort.pop_least lt runs) as [[x runs']|] eqn:E.
    + destruct (pop_least_Some _ _ _ Hs E) as (pre & run & post & -> & -> & H1 & H2).
      rewrite concat_app in *. simpl in *.
      destruct (IH (pre ++ run :: post)) as (IH1 & IH2 & IH3).
      { apply Forall_app in Hs as [Hpre Hpost]. apply Forall_app. split; [done|].
        inversion Hpost as [|? ? Hrun Hpost']; subst.
        constructor; [by apply sorted_tail in Hrun|done]. }
      { rewrite concat_app. simpl. rewrite !length_app in *. simpl in *.
        rewrite ?length_app in Hlen. lia. }
      rewrite concat_app in IH2, IH3. simpl in *.
      split; [|split].
      * constructor; [done|]. rewrite IH2. apply Forall_app. split; [|done].
        eapply Forall_impl; [exact H1|]. intros z. apply lt_asym.
      * rewrite IH2. apply Permutation_middle.
      * intros k. unfold of_key in *. rewrite filter_cons, IH3, !filter_app, filter_cons.
        rewrite !filter_app. case_decide as Hk; [|done].
        pose proof (of_key_above k x (concat pre) Hk H1) as Hpre.
        unfold of_key in Hpre. by rewrite Hpre.
    + rewrite (pop_least_None _ E). split; [constructor|]. by split.
Qed.

Lemma sorted_runs_perm (parts : list (list A)) :
  concat (external_sort.sort_run lt <$> parts) ≡ₚ concat parts.
Proof.
  induction parts as [|p parts IH]; csimpl; [done|].
  by rewrite sort_run_perm, IH.
Qed.

Lemma sorted_runs_of_key k (parts : list (list A)) :
  of_key k (concat (external_sort.sort_run lt <$> parts)) = of_key k (concat parts).
Proof.
  induction parts as [|p parts IH]; csimpl; [done|].
  unfold of_key in *. rewrite !filter_app, IH. f_equal. apply sort_run_of_key.
Qed.

Lemma sort_rows_spec run_size (rows : list A) :
  (1 ≤ run_size)%nat →
  sorted (external_sort.sort_rows lt run_size rows)
  ∧ ∀ k, of_key k (external_sort.sort_rows lt run_size rows) = of_key k rows.
Proof.
  intros Hn. unfold external_sort.sort_rows.
  pose proof (partition_runs_concat (length rows) run_size rows Hn (le_n _)) as Hparts.
  destruct (kway_merge_spec (length rows)
              (external_sort.sort_run lt
                 <$> external_sort.partition_runs (length rows) run_size rows))
    as (H1 & H2 & H3).
  - apply Forall_fmap, Forall_forall. intros p _. apply sort_run_sorted.
  - by rewrite sorted_runs_perm, Hparts.
  - split; [done|]. intros k. by rewrite H3, sorted_runs_of_key, Hparts.
Qed.

Lemma sorted_stable_unique (l1 l2 : list A) :
  sorted l1 → sorted l2 → (∀ k, of_key k l1 = of_key k l2) → l1 = l2.
Proof.
  intros Hs1. revert l2. induction Hs1 as [|x l1 Hs1 IH Hx]; intros l2 Hs2 Hk.
  - destruct l2 as [|y l2]; [done|]. specialize (Hk (key y)).
    unfold of_key in Hk. by rewrite filter_nil, filter_cons_True in Hk.
  - destruct l2 as [|y l2].
    { specialize (Hk (key x)). unfold of_key in Hk.
      by rewrite filter_nil, filter_cons_True in Hk. }
    inversion Hs2 as [|? ? Hs2' Hy]; subst.
    assert (key y = key x) as Hyx.
    { destruct (decide (key y = key x)) as [|Hne]; [done|]. exfalso.
      assert (x ∈ l2) as Hxin.
      { assert (x ∈ of_key (key x) (y :: l2)) as Hin.
        { rewrite <- Hk. unfold of_key. rewrite filter_cons_True by done. left. }
        unfold of_key in Hin. rewrite filter_cons_False in Hin by done.
        by apply list_elem_of_filter in Hin as [_ ?]. }
      assert (y ∈ l1) as Hyin.
      { assert (y ∈ of_key (key y) (x :: l1)) as Hin.
        { rewrite Hk. unfold of_key. rewrite filter_cons_True by done. left. }
        unfold of_key in Hin. rewrite filter_cons_False in Hin by done.
        by apply list_elem_of_filter in Hin as [_ ?]. }
      apply (proj1 (Forall_forall _ _) Hy) in Hxin.
      apply (proj1 (Forall_forall _ _) Hx) in Hyin.
      unfold lt in *. apply Hne. by apply ltb_total. }
    assert (x = y) as <-.
    { specialize (Hk (key x)). unfold of_key in Hk.
      rewrite !filter_cons_True in Hk by done. by injection Hk. }
    f_equal. apply IH; [done|]. intros k. specialize (Hk k).
    unfold of_key in *. rewrite !filter_cons in Hk.
    case_decide; [by injection Hk|done].
Qed.

Lemma sort_rows_run_size n m (rows : list A) :
  (1 ≤ n)%nat → (1 ≤ m)%nat →
  external_sort.sort_rows lt n rows = external_sort.sort_rows lt m rows.
Proof.
  intros Hn Hm.
  destruct (sort_rows_spec n rows Hn) as [Hs1 Hk1].
  destruct (sort_rows_spec m rows Hm) as [Hs2 Hk2].
  apply sorted_stable_unique; [done|done|]. intros k. by rewrite Hk1, Hk2.
Qed.

Lemma sort_rows_perm run_size (rows : list A) :
  (1 ≤ run_size)%nat → external_sort.sort_rows lt run_size rows ≡ₚ rows.
Proof.
  intros Hn. unfold external_sort.sort_rows.
  pose proof (partition_runs_concat (length rows) run_size rows Hn (le_n _)) as Hparts.
  destruct (kway_merge_spec (length rows)
              (external_sort.sort_run lt
                 <$> external_sort.partition_runs (length rows) run_size rows))
    as (_ & H2 & _).
  - apply Forall_fmap, Forall_forall. intros p _. apply sort_run_sorted.
  - by rewrite sorted_runs_perm, Hparts.
  - by rewrite H2, sorted_runs_perm, Hparts.
Qed.

End external_sort_facts.

Lemma same_kind_refl v : same_kind v v = true.
Proof. by destruct v. Qed.

Lemma same_kinds_refl k : same_kinds k k = true.
Proof. induction k as [|v k IH]; simpl; [done|]. by rewrite same_kind_refl, IH. Qed.

Lemma same_kinds_lt k1 k2 :
  same_kinds k1 k2 = true → tuple_lt k1 k2 = Ok (tuple_ltb k1 k2).
Proof.
  revert k2. induction k1 as [|v1 k1 IH]; intros [|v2 k2]; simpl; try done.
  intros [Hv Hk]%andb_prop. case_decide; [by apply IH|by apply py_lt_same_kind].
Qed.

Lemma same_kinds_trans k0 k1 k2 :
  same_kinds k0 k1 = true → same_kinds k0 k2 = true → same_kinds k1 k2 = true.
Proof.
  revert k1 k2. induction k0 as [|v0 k0 IH]; intros [|v1 k1] [|v2 k2]; simpl;
    try done.
  intros [Hv1 Hk1]%andb_prop [Hv2 Hk2]%andb_prop.
  by rewrite (same_kind_trans v0 v1 v2), (IH k1 k2).
Qed.

Lemma key_tuples_elem keys rows ks row :
  key_tuples keys rows = Ok ks → row ∈ rows → key_of keys row ∈ ks.
Proof.
  revert ks. induction rows as [|r rows IH]; intros ks; simpl.
  { intros _ H. by apply not_elem_of_nil in H. }
  destruct (key_tuple keys r) as [k|] eqn:Ek; simpl; [|done].
  destruct (key_tuples keys rows) as [ks'|]; simpl; [|done].
  intros [= <-] [->|Hin]%elem_of_cons.
  - rewrite (key_of_ok _ _ _ Ek). left.
  - right. by apply IH.
Qed.

Lemma orderable_pairs keys rows ks r1 r2 :
  key_tuples keys rows = Ok ks → orderable ks = true →
  r1 ∈ rows → r2 ∈ rows →
  same_kinds (key_of keys r1) (key_of keys r2) = true.
Proof.
  intros Hks Hord H1 H2.
  apply (key_tuples_elem _ _ _ _ Hks) in H1, H2.
  destruct ks as [|k0 ks]; [by apply not_elem_of_nil in H1|].
  assert (∀ k, k ∈ k0 :: ks → same_kinds k0 k = true) as Hall.
  { intros k [->|Hk]%elem_of_cons; [apply same_kinds_refl|].
    simpl in Hord. rewrite forallb_forall in Hord. apply Hord.
    by apply list_elem_of_In. }
  apply (same_kinds_trans k0); by apply Hall.
Qed.

(** C5: on an input whose rows carry the key columns with values that can be
    ordered, the external sort yields the rows in ascending order of their
    key tuples, the rows of each key tuple in the order in which the input
    has them, and it yields the same sequence for every run size (one row
    per run, or any number of rows per run); the order by which it sorts is
    the one that Python's comparison of the key tuples gives on these
    rows. *)
Theorem ExternalSort_stable (keys : list string) (rows : list TRow)
    (ks : list (list value)) :
  key_tuples keys rows = Ok ks →
  orderable ks = true →
  ∃ out,
    (∀ run_size, (1 ≤ run_size)%nat →
       ExternalSort run_size keys (from_list rows) = from_list out)
    ∧ key_sorted keys out
    ∧ out ≡ₚ rows
    ∧ (∀ k, filter (fun row => key_of keys row = k) out
            = filter (fun row => key_of keys row = k) rows)
    ∧ ∀ r1 r2, r1 ∈ rows → r2 ∈ rows →
        tuple_lt (key_of keys r1) (key_of keys r2)
        = Ok (tuple_ltb (key_of keys r1) (key_of keys r2)).
Proof.
  intros Hks Hord.
  set (lt := fun r1 r2 : TRow => tuple_ltb (key_of keys r1) (key_of keys r2)).
  exists (external_sort.sort_rows lt 1 rows).
  destruct (sort_rows_spec (key_of keys) tuple_ltb tuple_ltb_irrefl
              tuple_ltb_trans tuple_ltb_total 1 rows (le_n 1)) as [Hs Hk].
  split; [|split; [exact Hs|split; [|split; [exact Hk|]]]].
  - intros n Hn. unfold ExternalSort.
    rewrite to_list_from_list. cbn [lift]. rewrite Hks. cbn [lift]. rewrite Hord.
    f_equal.
    by apply (sort_rows_run_size (key_of keys) tuple_ltb tuple_ltb_irrefl
                tuple_ltb_trans tuple_ltb_total).
  - by apply (sort_rows_perm (key_of keys) tuple_ltb tuple_ltb_irrefl
                tuple_ltb_trans tuple_ltb_total).
  - intros r1 r2 H1 H2. apply same_kinds_lt. by apply (orderable_pairs keys rows ks).
Qed.

Lemma ExternalSort_stable_witness :
  let rows : list TRow :=
    [ {["a" := VInt 2; "tag" := VInt 1]}; {["a" := VInt 1; "tag" := VInt 2]};
      {["a" := VInt 2; "tag" := VInt 3]}; {["a" := VInt 1; "tag" := VInt 4]} ] in
  ∃ out,
    (∀ run_size, (1 ≤ run_size)%nat →
       ExternalSort run_size ["a"] (from_list rows) = from_list out)
    ∧ key_sorted ["a"] out
    ∧ out ≡ₚ rows
    ∧ (∀ k, filter (fun row => key_of ["a"] row = k) out
            = filter (fun row => key_of ["a"] row = k) rows)
    ∧ ∀ r1 r2, r1 ∈ rows → r2 ∈ rows →
        tuple_lt (key_of ["a"] r1) (key_of ["a"] r2)
        = Ok (tuple_ltb (key_of ["a"] r1) (key_of ["a"] r2)).
Proof.
  intros rows.
  apply (ExternalSort_stable ["a"] rows
           [[VInt 2]; [VInt 1]; [VInt 2]; [VInt 1]]); reflexivity.
Defined.

(** ** Graph *)

Lemma call_stage_Raise op_one e :
  match op_one with
  | ReduceStage reducer [] => ∀ e, reducer [] (Raise e) = Raise e
  | _ => True
  end →
  call_stage op_one (Raise e) = Raise e.
Proof.
  destruct op_one as [mapper|reducer keys|run_size keys]; simpl; [done| |done].
  destruct keys; [intros H; apply H|done].
Qed.

Lemma Join_Raise_left joiner keys e rows_b :
  Join joiner keys (Raise e) rows_b = Raise e.
Proof. unfold Join. simpl. by destruct (groupby keys rows_b). Qed.

Lemma Join_Raise_right joiner keys rows_a e :
  ∃ e', Join joiner keys rows_a (Raise e) = Raise e'.
Proof.
  unfold Join. simpl. destruct (groupby keys rows_a); simpl; eauto.
Qed.

Lemma run_first_source_absent graph (kwargs : TSources) :
  reducers_pull graph →
  kwargs !! first_source graph = None →
  run graph kwargs = Raise (KeyError (VStr (first_source graph))).
Proof.
  induction graph as [name|op_one pipeline IH|joiner keys g1 IH1 g2 IH2]; simpl.
  - by intros _ ->.
  - intros [Hop Hp] Hn. rewrite IH by done. by apply call_stage_Raise.
  - intros [H1 H2] Hn. rewrite IH1 by done. apply Join_Raise_left.
Qed.

Lemma subgraph_refl graph : subgraph graph graph.
Proof. destruct graph; by left. Qed.

Lemma Join_Raise_right_first joiner keys rows_a e :
  Join joiner keys rows_a (Raise e) = Raise e
  ∨ ∃ e', Join joiner keys rows_a (Raise e) = Raise e'
          ∧ (rows_a = Raise e'
             ∨ ∃ row rest, rows_a = Yield row rest ∧ key_tuple keys row = Err e').
Proof.
  unfold Join. destruct rows_a as [|row rest|e']; simpl.
  - by left.
  - destruct (key_tuple keys row) as [k|e'] eqn:Ek.
    + left. destruct (groupby keys rest) as [|k' g next|e'']; [done| |done].
      by destruct (decide (k = k')).
    + right. exists e'. split; [done|]. right. by exists row, rest.
  - right. exists e'. split; [done|]. by left.
Qed.

Lemma run_source_absent graph (kwargs : TSources) :
  reducers_pull graph →
  sources graph ⊈ dom kwargs →
  ∃ e, run graph kwargs = Raise e
       ∧ ((∃ name, name ∈ sources graph ∧ (name ∉ dom kwargs)
                   ∧ e = KeyError (VStr name))
          ∨ (∃ joiner keys graph_one graph_two,
               subgraph (JoinGraphs joiner keys graph_one graph_two) graph
               ∧ sources graph_one ⊆ dom kwargs
               ∧ sources graph_two ⊈ dom kwargs
               ∧ (run graph_one kwargs = Raise e
                  ∨ ∃ row rest, run graph_one kwargs = Yield row rest
                                ∧ key_tuple keys row = Err e))).
Proof.
  induction graph as [name|op_one pipeline IH|joiner keys g1 IH1 g2 IH2]; simpl.
  - intros _ Hn. destruct (kwargs !! name) as [rows|] eqn:E.
    { destruct Hn. apply singleton_subseteq_l, elem_of_dom. eauto. }
    eexists. split; [done|]. left. exists name.
    split; [by apply elem_of_singleton|]. split; [by apply not_elem_of_dom|done].
  - intros [Hop Hp] Hn. destruct (IH Hp Hn) as (e & -> & He).
    exists e. split; [by apply call_stage_Raise|].
    destruct He as [He|(j & ks & a & b & Hsub & Hrest)]; [by left|].
    right. exists j, ks, a, b. split; [by right|done].
  - intros [H1 H2] Hn.
    destruct (decide (sources g1 ⊆ dom kwargs)) as [Hg1|Hg1].
    + assert (sources g2 ⊈ dom kwargs) as Hg2 by set_solver.
      destruct (IH2 H2 Hg2) as (e & -> & He).
      destruct (Join_Raise_right_first joiner keys (run g1 kwargs) e)
        as [->|(e' & -> & He')].
      * exists e. split; [done|].
        destruct He as [(name & Hin & Hout & ->)|(j & ks & a & b & Hsub & Hrest)].
        -- left. exists name. split; [set_solver|done].
        -- right. exists j, ks, a, b. split; [right; by right|done].
      * exists e'. split; [done|]. right. exists joiner, keys, g1, g2.
        split; [by left|done].
    + destruct (IH1 H1 Hg1) as (e & -> & He).
      exists e. split; [apply Join_Raise_left|].
      destruct He as [(name & Hin & Hout & ->)|(j & ks & a & b & Hsub & Hrest)].
      * left. exists name. split; [set_solver|done].
      * right. exists j, ks, a, b. split; [right; by left|done].
Qed.

(** C8 (as the code has it): there is no [MissingSource] exception; a source
    reader fails with [KeyError(name)] exactly when its name is absent from
    the mapping given to [run]; the failure comes with the first pull of the
    reader, so a run whose first-read source is absent fails with that
    [KeyError] before it yields a row. A run with any referenced source
    absent fails before it yields a row: with the [KeyError] of an absent
    source, or, when a join in the pipeline has all the sources of its left
    input and lacks one of its right input, with what the first pull of that
    left input raises (an exception of the left pipeline, or the [KeyError]
    of a join key that its first row lacks), since a join asks its left input
    for its first group before its right input. *)
Theorem run_missing_source (graph : Operation) (kwargs : TSources) :
  (∀ name, run (graph_from_iter name) kwargs = Raise (KeyError (VStr name))
           ↔ name ∉ dom kwargs)
  ∧ (reducers_pull graph →
     first_source graph ∉ dom kwargs →
     run graph kwargs = Raise (KeyError (VStr (first_source graph))))
  ∧ (reducers_pull graph →
     sources graph ⊈ dom kwargs →
     ∃ e, run graph kwargs = Raise e
          ∧ ((∃ name, name ∈ sources graph ∧ (name ∉ dom kwargs)
                      ∧ e = KeyError (VStr name))
             ∨ (∃ joiner keys graph_one graph_two,
                  subgraph (JoinGraphs joiner keys graph_one graph_two) graph
                  ∧ sources graph_one ⊆ dom kwargs
                  ∧ sources graph_two ⊈ dom kwargs
                  ∧ (run graph_one kwargs = Raise e
                     ∨ ∃ row rest, run graph_one kwargs = Yield row rest
                                   ∧ key_tuple keys row = Err e)))).
Proof.
  split; [|split].
  - intros name. simpl. rewrite not_elem_of_dom.
    destruct (kwargs !! name) as [rows|]; [|done].
    split; [|done]. by destruct rows.
  - intros Hp Hn. apply run_first_source_absent; [done|].
    by apply not_elem_of_dom.
  - apply run_source_absent.
Qed.

Lemma run_missing_source_witness :
  let joined_graph :=
    graph_join (graph_from_iter "a") (InnerJoiner "_1" "_2") (graph_from_iter "b")
               ["id"] in
  let kwargs : TSources := {["a" := [ {["x" := VInt 1]} ]]} in
  run (graph_map (graph_from_iter "input") DummyMapper) ∅
  = Raise (KeyError (VStr "input"))
  ∧ ∃ e, run joined_graph kwargs = Raise e
         ∧ ((∃ name, name ∈ sources joined_graph ∧ (name ∉ dom kwargs)
                     ∧ e = KeyError (VStr name))
            ∨ (∃ joiner keys graph_one graph_two,
                 subgraph (JoinGraphs joiner keys graph_one graph_two) joined_graph
                 ∧ sources graph_one ⊆ dom kwargs
                 ∧ sources graph_two ⊈ dom kwargs
                 ∧ (run graph_one kwargs = Raise e
                    ∨ ∃ row rest, run graph_one kwargs = Yield row rest
                                  ∧ key_tuple keys row = Err e))).
Proof.
  intros joined_graph kwargs. split.
  - apply (proj1 (proj2 (run_missing_source
                           (graph_map (graph_from_iter "input") DummyMapper) ∅))).
    + split; exact I.
    + simpl. set_solver.
  - apply (proj2 (proj2 (run_missing_source joined_graph kwargs))).
    + split; exact I.
    + unfold kwargs. simpl. rewrite dom_singleton_L. set_solver.
Defined.

(** C8 (as stated) fails in both directions. A run that refers to an absent
    source need not fail on it: in the join below the left pipeline fails
    with [TypeError] (the product of two strings) on its first row, before
    the right source ["b"] is looked up. A run can raise [KeyError] with all
    its sources supplied: [Project(['x'])] on a row without [x]. *)
Lemma run_missing_source_not_iff :
  let left := graph_map (graph_from_iter "a") (Product ["s"; "t"] "product") in
  let joined_graph := graph_join left (InnerJoiner "_1" "_2") (graph_from_iter "b") ["id"] in
  let kwargs1 : TSources :=
    {["a" := [ {["id" := VInt 1; "s" := VStr "x"; "t" := VStr "y"]} ]]} in
  let projected := graph_map (graph_from_iter "a") (Project ["x"]) in
  let kwargs2 : TSources := {["a" := [ {["id" := VInt 1]} ]]} in
  ("b" ∈ sources joined_graph ∧ ("b" ∉ dom kwargs1)
   ∧ run joined_graph kwargs1 = Raise TypeError)
  ∧ (sources projected ⊆ dom kwargs2
     ∧ run projected kwargs2 = Raise (KeyError (VStr "x"))).
Proof.
  intros left joined_graph kwargs1 projected kwargs2.
  split; [split; [|split]|split].
  - simpl. set_solver.
  - unfold kwargs1. set_solver.
  - by vm_compute.
  - unfold kwargs2. simpl. set_solver.
  - by vm_compute.
Qed.

(** ** Repeated runs *)

Lemma exec_reads_only {X : Type} (p : prog X) (st : store) :
  reads_only p → data (exec p st).1.2 = data st.
Proof.
  intros H. revert st.
  induction H as [x|e|r next _ IH|r next _ IH|row next _ IH]; intros st; simpl;
    [done|done| |apply IH|by rewrite IH].
  specialize (IH st). by destruct (exec next st) as [[out st'] res].
Qed.

Lemma bind_reads_only {X Y : Type} (p : prog X) (f : X → prog Y) :
  reads_only p → (∀ x, reads_only (f x)) → reads_only (bind p f).
Proof.
  intros H Hf. induction H; simpl; [done| |by constructor..]. constructor.
Qed.

Lemma lift_obj_reads_only {X Y : Type} (r : result X) (f : X → prog Y) :
  (∀ x, reads_only (f x)) → reads_only (lift_obj r f).
Proof. intros Hf. destruct r; simpl; [done|constructor]. Qed.

Lemma emit_all_reads_only {X : Type} (rows : list ref) (next : prog X) :
  reads_only next → reads_only (emit_all rows next).
Proof. intros H. induction rows; simpl; [done|by constructor]. Qed.

Lemma Map_obj_reads_only (mapper : ObjMapper) (rows : TObjGenerator) :
  (∀ row, reads_only (mapper row)) → reads_only rows →
  reads_only (Map_obj mapper rows).
Proof.
  intros Hm H. induction H; simpl; try (by constructor).
  by apply bind_reads_only.
Qed.

Lemma turn_reads_only (reducer : ObjReducer) state row go_on stopped :
  reducer_reads_only reducer →
  (∀ state', reads_only (go_on state')) → reads_only stopped →
  reads_only (turn reducer state row go_on stopped).
Proof.
  intros [Hb Hl] Hg Hs. unfold turn. apply bind_reads_only; [done|].
  intros [state'|state']; [done|]. by apply bind_reads_only.
Qed.

Lemma reduce_all_reads_only (reducer : ObjReducer) state (rows : TObjGenerator) :
  reducer_reads_only reducer → reads_only rows →
  reads_only (reduce_all reducer state rows).
Proof.
  intros Hr H. revert state. induction H; intros state; simpl;
    try (by constructor).
  - apply Hr.
  - apply turn_reads_only; [done|done|constructor].
Qed.

Lemma reduce_groups_obj_reads_only (reducer : ObjReducer) keys at_row
    (rows : TObjGenerator) :
  reducer_reads_only reducer → reads_only rows →
  reads_only (reduce_groups_obj reducer keys at_row rows).
Proof.
  intros Hr H. revert at_row. induction H; intros at_row; simpl;
    try (by constructor).
  - destruct at_row; [constructor|apply Hr|constructor].
  - constructor. intros content. apply lift_obj_reads_only. intros k'.
    assert (reads_only
              (turn reducer (enter reducer (VStr <$> keys)) r
                 (fun state' => reduce_groups_obj reducer keys (InGroup k' state') next)
                 (reduce_groups_obj reducer keys (SkipGroup k') next))) as Hopen
      by (by apply turn_reads_only).
    destruct at_row as [|k state|k]; [done| |].
    + case_decide; [by apply turn_reads_only|].
      apply bind_reads_only; [apply Hr|done].
    + by case_decide.
Qed.

Lemma Reduce_obj_reads_only (reducer : ObjReducer) keys (rows : TObjGenerator) :
  reducer_reads_only reducer → reads_only rows →
  reads_only (Reduce_obj reducer keys rows).
Proof.
  intros Hr H. destruct keys; simpl.
  - by apply reduce_all_reads_only.
  - by apply reduce_groups_obj_reads_only.
Qed.

Lemma emit_new_reads_only (rows : TRowsGenerator) : reads_only (emit_new rows).
Proof. induction rows; simpl; repeat constructor; done. Qed.

Lemma ExternalSort_obj_reads_only run_size keys seen (rows : TObjGenerator) :
  reads_only rows → reads_only (ExternalSort_obj run_size keys seen rows).
Proof.
  intros H. revert seen. induction H; intros seen; simpl; try (by constructor).
  apply emit_new_reads_only.
Qed.

Lemma join_row_list_obj_reads_only {X : Type} a_suffix b_suffix row lst columns
    (next : prog X) :
  reads_only next →
  reads_only (join_row_list_obj a_suffix b_suffix row lst columns next).
Proof.
  intros H. induction lst as [|row_b rest IH]; simpl; [done|].
  constructor. intros content_a. constructor. intros content_b.
  apply lift_obj_reads_only. intros new_row. constructor. intros new.
  by constructor.
Qed.

Lemma unmatched_reads_only strategy_ side k r ga gb :
  reads_only (unmatched strategy_ side k r ga gb).
Proof. destruct strategy_, side; simpl; repeat constructor. Qed.

Lemma at_head_reads_only strategy_ ga gb : reads_only (at_head strategy_ ga gb).
Proof.
  unfold at_head. destruct (opened ga), (opened gb); try constructor;
    try apply unmatched_reads_only.
  apply lift_obj_reads_only. intros [|]; [apply unmatched_reads_only|].
  apply lift_obj_reads_only. intros [|]; [apply unmatched_reads_only|].
  destruct strategy_; constructor.
Qed.

Lemma group_over_reads_only strategy_ a_suffix b_suffix keys side what ga gb :
  reads_only (group_over strategy_ a_suffix b_suffix keys side what ga gb).
Proof.
  destruct what as [| | |acc [|]|lst columns]; simpl;
    try apply at_head_reads_only.
  - destruct side; [constructor|apply at_head_reads_only].
  - destruct (grouping_of (the_other side) ga gb); try constructor.
    destruct acc as [|first acc]; [constructor|].
    constructor. intros content. constructor. intros content_first.
    apply join_row_list_obj_reads_only. constructor.
  - destruct strategy_, side; try apply at_head_reads_only.
    apply emit_all_reads_only, at_head_reads_only.
Qed.

Lemma on_row_reads_only strategy_ a_suffix b_suffix keys side what ga gb k' r :
  reads_only (on_row strategy_ a_suffix b_suffix keys side what ga gb k' r).
Proof.
  unfold on_row.
  destruct what as [| | |acc matched|lst columns];
    try apply group_over_reads_only;
    destruct (grouping_of side ga gb); try constructor;
    case_decide; try apply group_over_reads_only; repeat constructor.
  all: apply join_row_list_obj_reads_only; constructor.
Qed.

Lemma on_end_reads_only strategy_ a_suffix b_suffix keys side what ga gb :
  reads_only (on_end strategy_ a_suffix b_suffix keys side what ga gb).
Proof. apply group_over_reads_only. Qed.

Lemma join_tail_reads_only strategy_ a_suffix b_suffix keys side at_row
    (rows : TObjGenerator) :
  reads_only rows →
  reads_only (join_tail strategy_ a_suffix b_suffix keys side at_row rows).
Proof.
  intros H. revert at_row.
  induction H; intros [side' what ga gb|]; simpl; try constructor;
    destruct (negb (bool_decide (side' = side))); try (by constructor).
  - apply bind_reads_only; [apply on_end_reads_only|constructor].
  - constructor. intros content. apply lift_obj_reads_only. intros k'.
    apply bind_reads_only; [apply on_row_reads_only|done].
Qed.

Lemma join_loop_Finished strategy_ a_suffix b_suffix keys (rows_a rows_b : TObjGenerator) :
  join_loop strategy_ a_suffix b_suffix keys rows_a Finished rows_b = Ret tt.
Proof. by destruct rows_a, rows_b. Qed.

Lemma join_loop_pull_a strategy_ a_suffix b_suffix keys (rows_a rows_b : TObjGenerator)
    what ga gb :
  join_loop strategy_ a_suffix b_suffix keys rows_a (Pull InputA what ga gb) rows_b
  = match rows_a with
    | Ret _ =>
        bind (on_end strategy_ a_suffix b_suffix keys InputA what ga gb)
             (fun at_row' =>
                join_tail strategy_ a_suffix b_suffix keys InputB at_row' rows_b)
    | Throw e => Throw e
    | Emit row rest =>
        Get row (fun content =>
          lift_obj (key_tuple keys content) (fun k' =>
            bind (on_row strategy_ a_suffix b_suffix keys InputA what ga gb k' row)
                 (fun at_row' =>
                    join_loop strategy_ a_suffix b_suffix keys rest at_row' rows_b)))
    | Get r next =>
        Get r (fun content =>
          join_loop strategy_ a_suffix b_suffix keys (next content)
                    (Pull InputA what ga gb) rows_b)
    | Put r content next =>
        Put r content
          (join_loop strategy_ a_suffix b_suffix keys next (Pull InputA what ga gb)
                     rows_b)
    | Make content next =>
        Make content (fun l =>
          join_loop strategy_ a_suffix b_suffix keys (next l)
                    (Pull InputA what ga gb) rows_b)
    end.
Proof. by destruct rows_a, rows_b. Qed.

Lemma join_loop_pull_b strategy_ a_suffix b_suffix keys (rows_a rows_b : TObjGenerator)
    what ga gb :
  join_loop strategy_ a_suffix b_suffix keys rows_a (Pull InputB what ga gb) rows_b
  = match rows_b with
    | Ret _ =>
        bind (on_end strategy_ a_suffix b_suffix keys InputB what ga gb)
             (fun at_row' =>
                join_tail strategy_ a_suffix b_suffix keys InputA at_row' rows_a)
    | Throw e => Throw e
    | Emit row rest =>
        Get row (fun content =>
          lift_obj (key_tuple keys content) (fun k' =>
            bind (on_row strategy_ a_suffix b_suffix keys InputB what ga gb k' row)
                 (fun at_row' =>
                    join_loop strategy_ a_suffix b_suffix keys rows_a at_row' rest)))
    | Get r next =>
        Get r (fun content =>
          join_loop strategy_ a_suffix b_suffix keys rows_a (Pull InputB what ga gb)
                    (next content))
    | Put r content next =>
        Put r content
          (join_loop strategy_ a_suffix b_suffix keys rows_a (Pull InputB what ga gb)
                     next)
    | Make content next =>
        Make content (fun l =>
          join_loop strategy_ a_suffix b_suffix keys rows_a (Pull InputB what ga gb)
                    (next l))
    end.
Proof. by destruct rows_a, rows_b. Qed.

Lemma join_loop_reads_only_b strategy_ a_suffix b_suffix keys (rows_a : TObjGenerator) :
  reads_only rows_a →
  (∀ what ga gb rows_b,
     reads_only rows_b →
     reads_only (join_loop strategy_ a_suffix b_suffix keys rows_a
                           (Pull InputA what ga gb) rows_b)) →
  ∀ rows_b, reads_only rows_b →
  ∀ at_row,
    reads_only (join_loop strategy_ a_suffix b_suffix keys rows_a at_row rows_b).
Proof.
  intros HA Hpull_a rows_b HB.
  induction HB as [y|e|r next HB IHB|r next HB IHB|row next HB IHB];
    intros [[|] what ga gb|];
    try (rewrite join_loop_Finished; constructor);
    try (apply Hpull_a; by constructor);
    rewrite join_loop_pull_b.
  - apply bind_reads_only; [apply on_end_reads_only|].
    intros at_row'. by apply join_tail_reads_only.
  - constructor.
  - constructor. intros content. apply lift_obj_reads_only. intros k'.
    apply bind_reads_only; [apply on_row_reads_only|]. intros at_row'. apply IHB.
  - constructor. intros content. apply IHB.
  - constructor. intros l. apply IHB.
Qed.

Lemma join_loop_reads_only strategy_ a_suffix b_suffix keys
    (rows_a rows_b : TObjGenerator) at_row :
  reads_only rows_a → reads_only rows_b →
  reads_only (join_loop strategy_ a_suffix b_suffix keys rows_a at_row rows_b).
Proof.
  intros HA. revert at_row rows_b.
  induction HA as [x|e|r next HA IHA|r next HA IHA|row next HA IHA];
    intros at_row rows_b HB; revert at_row;
    apply join_loop_reads_only_b; try done; try (by constructor);
    intros what ga gb rows_b' HB'; rewrite join_loop_pull_a.
  - apply bind_reads_only; [apply on_end_reads_only|].
    intros at_row'. by apply join_tail_reads_only.
  - constructor.
  - constructor. intros content. apply lift_obj_reads_only. intros k'.
    apply bind_reads_only; [apply on_row_reads_only|]. intros at_row'. by apply IHA.
  - constructor. intros content. by apply IHA.
  - constructor. intros l. by apply IHA.
Qed.


Lemma pipeline_obj_reads_only (graph : ObjOperation) (kwargs : TObjSources) :
  never_assigns graph → reads_only (pipeline_obj graph kwargs).
Proof.
  induction graph as [name|mapper pipeline IH|reducer keys pipeline IH
                      |run_size keys pipeline IH|joiner sa sb keys g1 IH1 g2 IH2];
    simpl.
  - intros _. destruct (kwargs !! name); [|constructor].
    apply emit_all_reads_only. constructor.
  - intros [Hm Hp]. apply Map_obj_reads_only; [done|by apply IH].
  - intros [Hr Hp]. apply Reduce_obj_reads_only; [done|by apply IH].
  - intros Hp. apply ExternalSort_obj_reads_only. by apply IH.
  - intros [H1 H2]. apply join_loop_reads_only; [by apply IH1|by apply IH2].
Qed.

Lemma DummyMapper_obj_reads_only row : reads_only (DummyMapper_obj row).
Proof. repeat constructor. Qed.

Lemma Filter_obj_reads_only condition row : reads_only (Filter_obj condition row).
Proof. constructor. intros content. destruct (condition content); repeat constructor. Qed.

Lemma Project_obj_reads_only columns row : reads_only (Project_obj columns row).
Proof.
  constructor. intros content. apply lift_obj_reads_only. intros new_row.
  repeat constructor.
Qed.

Lemma sort_keys_reads_only column topn keyed next :
  (∀ keyed', reads_only (next keyed')) →
  reads_only (sort_keys column topn keyed next).
Proof.
  intros H. revert keyed. induction topn as [|row rest IH]; intros keyed; simpl;
    [done|].
  constructor. intros content. by apply lift_obj_reads_only.
Qed.

(** None of the reducers of the library assigns to a dict. *)
Lemma library_reducers_read_only (column result_column : string) (n : Z) :
  reducer_reads_only FirstReducer_obj
  ∧ reducer_reads_only (Count_obj column)
  ∧ reducer_reads_only (Sum_obj column)
  ∧ reducer_reads_only (CountUnique_obj column result_column)
  ∧ reducer_reads_only (TopN_obj column n).
Proof.
  repeat split; simpl.
  - intros. repeat constructor.
  - intros. constructor.
  - intros [[gk new_row] count] row. constructor. intros content.
    apply lift_obj_reads_only. intros. constructor.
  - intros [[gk new_row] count]. repeat constructor.
  - intros [[gk new_row] s] row. constructor. intros content.
    repeat (apply lift_obj_reads_only; intros). constructor.
  - intros [[gk new_row] s]. repeat constructor.
  - intros [[gk new_row] values_set] row. constructor. intros content.
    repeat (apply lift_obj_reads_only; intros). case_decide; constructor.
  - intros [[gk new_row] values_set]. repeat constructor.
  - intros [heap topn] row. constructor. intros content.
    apply lift_obj_reads_only. intros. constructor.
  - intros [heap topn]. apply sort_keys_reads_only. intros keyed.
    apply lift_obj_reads_only. intros sorted. apply emit_all_reads_only. constructor.
Qed.

Lemma run_obj_data_after (graph : ObjOperation) (kwargs : TObjSources)
    (rows : list TRow) :
  never_assigns graph → data_after (run_obj graph kwargs rows) = rows.
Proof.
  intros H. unfold data_after, run_obj.
  pose proof (exec_reads_only (pipeline_obj graph kwargs) (mk_store rows [])
                (pipeline_obj_reads_only graph kwargs H)) as Hd.
  by destruct (exec (pipeline_obj graph kwargs) (mk_store rows [])) as [[out st] res].
Qed.

(** C4 (as the code has it): for every pipeline built from named sources,
    [Map], [Reduce], sort and [Join] with a joiner of the library, in which
    no mapper and no reducer assigns to a dict (as [DummyMapper], [Filter],
    [Project] and all reducers of the library), and for all dicts that the
    source factories hand out: a run leaves the caller's dicts as they were,
    also when it raises, and a second run over them gives what the first
    gave. *)
Theorem runs_independent_without_updates (graph : ObjOperation)
    (kwargs : TObjSources) (rows : list TRow) :
  never_assigns graph →
  data_after (run_obj graph kwargs rows) = rows
  ∧ run_obj graph kwargs (data_after (run_obj graph kwargs rows))
    = run_obj graph kwargs rows.
Proof.
  intros H. rewrite (run_obj_data_after graph kwargs rows H). by split.
Qed.

Lemma runs_independent_without_updates_witness :
  let graph :=
    ObjJoin Outer "_1" "_2" ["a"]
      (ObjReduce FirstReducer_obj ["a"]
         (ObjMap (Filter_obj (fun row => bool_decide (row !! "b" ≠ Some (VInt 2))))
            (ObjRead "input")))
      (ObjReduce (Count_obj "n") ["a"] (ObjSort 2 ["a"] (ObjRead "other"))) in
  let kwargs : TObjSources := {["input" := [0; 1; 2; 3]%nat; "other" := [3; 0]%nat]} in
  let rows : list TRow := [ {["a" := VInt 1; "b" := VInt 1]};
                            {["a" := VInt 1; "b" := VInt 2]};
                            {["a" := VInt 2; "b" := VInt 3]};
                            {["a" := VInt 2; "b" := VInt 4]} ] in
  data_after (run_obj graph kwargs rows) = rows
  ∧ run_obj graph kwargs (data_after (run_obj graph kwargs rows))
    = run_obj graph kwargs rows.
Proof.
  intros graph kwargs rows.
  apply (runs_independent_without_updates graph kwargs rows).
  simpl. split; [split; [|split]|split].
  - apply (library_reducers_read_only "n" "n" 0).
  - apply Filter_obj_reads_only.
  - exact I.
  - apply (library_reducers_read_only "n" "n" 0).
  - exact I.
Defined.

(** C4 (as stated) fails: a mapper that assigns to its row changes the
    caller's dict, and the next run starts from the changed dict. With the
    single row [{a:2, b:3}] and [Product(['a','b'], 'a')], the first run
    returns [{a:6, b:3}] and leaves the caller's row as [{a:6, b:3}]; the
    second run over the same source returns [{a:18, b:3}]. *)
Lemma second_run_sees_first :
  let graph := ObjMap (Product_obj ["a"; "b"] "a") (ObjRead "input") in
  let kwargs : TObjSources := {["input" := [0%nat]]} in
  let rows : list TRow := [ {["a" := VInt 2; "b" := VInt 3]} ] in
  let first := run_obj graph kwargs rows in
  let second := run_obj graph kwargs (data_after first) in
  results first = ([ {["a" := VInt 6; "b" := VInt 3]} ], None)
  ∧ data_after first = [ {["a" := VInt 6; "b" := VInt 3]} ]
  ∧ data_after first ≠ rows
  ∧ results second = ([ {["a" := VInt 18; "b" := VInt 3]} ], None)
  ∧ results second ≠ results first.
Proof.
  intros graph kwargs rows first second.
  split; [by vm_compute|]. split; [by vm_compute|]. split; [|split].
  - vm_compute. discriminate.
  - by vm_compute.
  - vm_compute. discriminate.
Qed.

(** ** A note on [RightJoiner]

    [RightJoiner] calls [join_both] with the right rows in the place of the
    left rows. The columns that keep their name are not affected, but the
    left suffix then marks the value of the right row and the right suffix
    the value of the left row, unlike in [LeftJoiner] on the same groups. *)
Lemma RightJoiner_exchanges_suffixes :
  let a : TRow := {["id" := VInt 1; "x" := VInt 10]} in
  let b : TRow := {["id" := VInt 1; "x" := VInt 20]} in
  LeftJoiner "_1" "_2" ["id"] (from_list [a]) (from_list [b])
  = from_list [ {["id" := VInt 1; "x_1" := VInt 10; "x_2" := VInt 20]} ]
  ∧ RightJoiner "_1" "_2" ["id"] (from_list [a]) (from_list [b])
    = from_list [ {["id" := VInt 1; "x_1" := VInt 20; "x_2" := VInt 10]} ].
Proof. intros a b. split; by vm_compute. Qed.

(** * Further properties of the operations *)

(** ** Map and the mappers *)

(** X1: [Map] with [DummyMapper] gives back its input, row for row, and
    fails where the input fails. *)
Theorem Map_DummyMapper (rows : TRowsGenerator) : Map DummyMapper rows = rows.
Proof. induction rows as [|row rest IH|e]; simpl; congruence. Qed.

(** X2: two [Map] stages in a row do what one [Map] stage does whose mapper
    sends each row through the first mapper and the rows it yields through
    the second; the same holds for the graphs that [Graph.map] builds. *)
Theorem Map_Map (mapper1 mapper2 : Mapper) (rows : TRowsGenerator)
    (graph : Operation) (kwargs : TSources) :
  Map mapper2 (Map mapper1 rows) = Map (fun row => Map mapper2 (mapper1 row)) rows
  ∧ run (graph_map (graph_map graph mapper1) mapper2) kwargs
    = run (graph_map graph (fun row => Map mapper2 (mapper1 row))) kwargs.
Proof.
  assert (∀ g, Map mapper2 (Map mapper1 g)
               = Map (fun row => Map mapper2 (mapper1 row)) g) as H.
  { induction g as [|row rest IH|e]; simpl; [done| |done].
    by rewrite Map_yield_from, IH. }
  split; [apply H|]. simpl. apply H.
Qed.

(** X3: [Map] with [Filter] yields the rows that satisfy the condition, in
    input order, and fails exactly where the input fails. *)
Theorem Map_Filter (condition : TRow → bool) (rows : TRowsGenerator) :
  emitted (Map (Filter condition) rows)
  = filter (fun row => condition row = true) (emitted rows)
  ∧ raised (Map (Filter condition) rows) = raised rows.
Proof.
  induction rows as [|row rest [IH1 IH2]|e]; simpl; [done| |done].
  unfold Filter at 1 3. destruct (condition row) eqn:E; simpl.
  - rewrite filter_cons_True by done. by rewrite IH1.
  - rewrite filter_cons_False by (by rewrite E). done.
Qed.

(** X4: [Project] succeeds exactly when the row has all the listed columns;
    the row it yields then has the listed columns and no other, each with the
    value of the input row. When a listed column is missing, [Project] raises
    [KeyError] for the first such column. *)
Theorem Project_columns (columns : list string) (row : TRow) :
  (Forall (fun c => c ∈ dom row) columns →
   ∃ new_row, Project columns row = Yield new_row Done
              ∧ dom new_row = list_to_set columns
              ∧ ∀ c, c ∈ columns → new_row !! c = row !! c)
  ∧ (∀ pre c post,
       columns = pre ++ c :: post →
       Forall (fun c' => c' ∈ dom row) pre → c ∉ dom row →
       Project columns row = Raise (KeyError (VStr c))).
Proof.
  split.
  - intros Hall.
    assert (∃ new_row, project_row columns row = Ok new_row
                       ∧ dom new_row = list_to_set columns
                       ∧ ∀ c, c ∈ columns → new_row !! c = row !! c)
      as (new_row & Hp & Hd & Hl).
    { induction Hall as [|col cols Hcol _ (m & Hm & Hd & Hl)]; simpl.
      - exists ∅. split; [done|]. split; [set_solver|].
        intros c Hc. by apply not_elem_of_nil in Hc.
      - apply elem_of_dom in Hcol as [v Hv]. unfold getitem. rewrite Hv. simpl.
        rewrite Hm. simpl. exists (<[col := v]> m). split; [done|]. split.
        + rewrite dom_insert_L, Hd. done.
        + intros c Hc. destruct (decide (c = col)) as [->|Hne].
          * by rewrite lookup_insert_eq.
          * rewrite lookup_insert_ne by done. apply Hl.
            by apply elem_of_cons in Hc as [?|?]. }
    exists new_row. unfold Project. by rewrite Hp.
  - intros pre c post -> Hpre Hc. unfold Project.
    assert (project_row (pre ++ c :: post) row = Err (KeyError (VStr c))) as ->;
      [|done].
    induction Hpre as [|col cols Hcol _ IH]; simpl.
    + apply not_elem_of_dom in Hc. unfold getitem. by rewrite Hc.
    + apply elem_of_dom in Hcol as [v Hv]. unfold getitem at 1. rewrite Hv. simpl.
      by rewrite IH.
Qed.

Lemma Project_columns_witness :
  ∃ new_row, Project ["b"] {["a" := VInt 1; "b" := VInt 2]} = Yield new_row Done
             ∧ dom new_row = list_to_set ["b"]
             ∧ ∀ c, c ∈ ["b"] → new_row !! c
                                 = ({["a" := VInt 1; "b" := VInt 2]} : TRow) !! c.
Proof.
  apply (proj1 (Project_columns ["b"] {["a" := VInt 1; "b" := VInt 2]})).
  repeat constructor; set_solver.
Defined.

Lemma product_loop_ints columns (row : TRow) (zs : list Z) (acc : Z) :
  Forall2 (holds_int row) columns zs →
  product_loop columns row (VInt acc) = Ok (VInt (acc * product_of zs)%Z).
Proof.
  intros H. revert acc. induction H as [|col z cols zs Hz _ IH]; intros acc; simpl.
  - f_equal. f_equal. lia.
  - unfold holds_int in Hz. unfold getitem. rewrite Hz. simpl. rewrite IH.
    f_equal. f_equal. lia.
Qed.

(** X5: on a row that holds integers in the listed columns, [Product] yields
    the row with the product of those integers put in the result column (1
    for an empty list of columns), all other columns as they were. When a
    listed column is missing after columns that hold integers, it raises
    [KeyError] for that column. *)
Theorem Product_of_integers (columns : list string) (result_column : string)
    (row : TRow) (zs : list Z) :
  (Forall2 (holds_int row) columns zs →
   Product columns result_column row
   = Yield (<[result_column := VInt (product_of zs)]> row) Done)
  ∧ (∀ c post, Forall2 (holds_int row) columns zs → c ∉ dom row →
       Product (columns ++ c :: post) result_column row
       = Raise (KeyError (VStr c))).
Proof.
  split.
  - intros H. unfold Product. rewrite (product_loop_ints _ _ zs) by done.
    simpl. do 3 f_equal. lia.
  - intros c post H Hc. unfold Product.
    assert (∀ acc, product_loop (columns ++ c :: post) row (VInt acc)
                   = Err (KeyError (VStr c))) as ->; [|done].
    induction H as [|col z cols zs' Hz _ IH]; intros acc; simpl.
    + apply not_elem_of_dom in Hc. unfold getitem. by rewrite Hc.
    + unfold holds_int in Hz. unfold getitem at 1. rewrite Hz. simpl. apply IH.
Qed.

Lemma Product_of_integers_witness :
  Product ["a"; "b"] "p" {["a" := VInt 2; "b" := VInt 3]}
  = Yield (<["p" := VInt (product_of [2; 3]%Z)]> {["a" := VInt 2; "b" := VInt 3]}) Done.
Proof.
  apply (proj1 (Product_of_integers ["a"; "b"] "p"
                  {["a" := VInt 2; "b" := VInt 3]} [2; 3]%Z)).
  repeat constructor.
Defined.

(** ** The reducers *)

Lemma has_keys_dom keys (row : TRow) :
  has_keys keys row ↔ Forall (fun c => c ∈ dom row) keys.
Proof.
  unfold has_keys. induction keys as [|c keys IH]; simpl.
  - split; [constructor|done].
  - unfold getitem. destruct (row !! c) as [v|] eqn:E; simpl.
    + destruct (key_tuple keys row) as [k|]; simpl in *.
      * split; [|done]. intros _. constructor; [|by apply IH].
        apply elem_of_dom. eauto.
      * split; [done|]. intros H. inversion H; subst. by apply IH.
    + split; [done|]. intros H. inversion H as [|? ? Hc _]; subst.
      apply elem_of_dom in Hc as [v Hv]. congruence.
Qed.

Lemma key_columns_names keys (row : TRow) :
  has_keys keys row →
  ∃ m, key_columns (VStr <$> keys) row = Ok m
       ∧ (m = ∅ → keys = [])
       ∧ ∀ col, m !! col = if decide (col ∈ keys) then row !! col else None.
Proof.
  rewrite has_keys_dom. induction 1 as [|c keys Hc _ (m & Hm & _ & Hl)].
  - exists ∅. split; [done|]. split; [done|]. intros col.
    rewrite lookup_empty. by rewrite decide_False by apply not_elem_of_nil.
  - csimpl. apply elem_of_dom in Hc as [v Hv]. unfold getitem. rewrite Hv. simpl.
    rewrite Hm. simpl. exists (<[c := v]> m). split; [done|]. split.
    + intros E. by apply insert_non_empty in E.
    + intros col. destruct (decide (col = c)) as [->|Hne].
      * rewrite lookup_insert_eq, decide_True by left. done.
      * rewrite lookup_insert_ne, Hl by done.
        destruct (decide (col ∈ keys)) as [Hin|Hnin].
        -- rewrite decide_True by (by right). done.
        -- rewrite decide_False; [done|]. intros [?|?]%elem_of_cons; done.
Qed.

Lemma count_loop_rest group_key rows (m : TRow) (count : Z) :
  (m = ∅ → group_key = []) →
  count_loop group_key (from_list rows) m count
  = Ok (m, (count + Z.of_nat (length rows))%Z).
Proof.
  intros Hm. revert count. induction rows as [|row rows IH]; intros count; simpl.
  - do 2 f_equal. lia.
  - assert ((if decide (m = ∅) then key_columns group_key row else Ok m) = Ok m)
      as ->.
    { case_decide as E; [|done]. rewrite (Hm E). by rewrite E. }
    simpl. rewrite IH. do 2 f_equal. lia.
Qed.

(** X6: called on a non-empty group whose first row has the key columns,
    [Count] yields one row: the number of rows of the group in the result
    column, beside the key columns with the values of the first row. *)
Theorem Count_group (column : string) (keys : list string) (r0 : TRow)
    (rest : list TRow) :
  has_keys keys r0 →
  ∃ out,
    Count column (VStr <$> keys) (from_list (r0 :: rest)) = Yield out Done
    ∧ out !! column = Some (VInt (Z.of_nat (length (r0 :: rest))))
    ∧ ∀ col, col ≠ column →
        out !! col = if decide (col ∈ keys) then r0 !! col else None.
Proof.
  intros Hk. destruct (key_columns_names keys r0 Hk) as (m & Hm & He & Hl).
  exists (<[column := VInt (Z.of_nat (length (r0 :: rest)))]> m).
  split; [|split].
  - unfold Count. cbn [from_list count_loop]. rewrite decide_True by done.
    rewrite Hm. cbn [mbind result_bind].
    rewrite count_loop_rest by (intros E; by rewrite (He E)).
    cbn [lift]. do 3 f_equal. simpl. lia.
  - by rewrite lookup_insert_eq.
  - intros col Hne. by rewrite lookup_insert_ne, Hl.
Qed.

Lemma Count_group_witness :
  ∃ out,
    Count "d" (VStr <$> ["a"])
      (from_list [ {["a" := VInt 1; "b" := VInt 5]}; {["a" := VInt 1; "b" := VInt 6]} ])
    = Yield out Done
    ∧ out !! "d" = Some (VInt 2)
    ∧ ∀ col, col ≠ "d" →
        out !! col = if decide (col ∈ ["a"])
                     then ({["a" := VInt 1; "b" := VInt 5]} : TRow) !! col else None.
Proof.
  apply (Count_group "d" ["a"] {["a" := VInt 1; "b" := VInt 5]}
           [ {["a" := VInt 1; "b" := VInt 6]} ]).
  exact I.
Defined.

Lemma sum_loop_rest column group_key rows zs (m : TRow) (acc : Z) :
  (m = ∅ → group_key = []) →
  Forall2 (fun row z => holds_int row column z) rows zs →
  sum_loop column group_key (from_list rows) m (VInt acc)
  = Ok (m, VInt (acc + sum_of zs)%Z).
Proof.
  intros Hm H. revert acc. induction H as [|row z rows zs Hz _ IH]; intros acc; simpl.
  - do 3 f_equal. lia.
  - assert ((if decide (m = ∅) then key_columns group_key row else Ok m) = Ok m)
      as ->.
    { case_decide as E; [|done]. rewrite (Hm E). by rewrite E. }
    unfold holds_int in Hz. simpl. unfold getitem. rewrite Hz. simpl.
    rewrite IH. do 3 f_equal. lia.
Qed.

(** X7: called on a non-empty group whose first row has the key columns and
    whose rows hold integers in the summed column, [Sum] yields one row: the
    sum of those integers in that column, beside the key columns with the
    values of the first row. A string in the summed column of the first row
    makes it raise [TypeError] (the sum starts from the integer 0). *)
Theorem Sum_group (column : string) (keys : list string) (r0 : TRow)
    (rest : list TRow) :
  has_keys keys r0 →
  (∀ zs, Forall2 (fun row z => holds_int row column z) (r0 :: rest) zs →
     ∃ out,
       Sum column (VStr <$> keys) (from_list (r0 :: rest)) = Yield out Done
       ∧ out !! column = Some (VInt (sum_of zs))
       ∧ ∀ col, col ≠ column →
           out !! col = if decide (col ∈ keys) then r0 !! col else None)
  ∧ (∀ s, r0 !! column = Some (VStr s) →
       Sum column (VStr <$> keys) (from_list (r0 :: rest)) = Raise TypeError).
Proof.
  intros Hk. destruct (key_columns_names keys r0 Hk) as (m & Hm & He & Hl).
  split.
  - intros zs Hzs. inversion Hzs as [|? z0 ? zs' Hz0 Hrest]; subst.
    exists (<[column := VInt (sum_of (z0 :: zs'))]> m). split; [|split].
    + unfold Sum. cbn [from_list sum_loop]. rewrite decide_True by done.
      rewrite Hm. cbn [mbind result_bind]. unfold holds_int in Hz0.
      unfold getitem. rewrite Hz0. cbn [mbind result_bind py_add].
      rewrite (sum_loop_rest _ _ _ zs') by (done || intros E; by rewrite (He E)).
      cbn [lift]. do 3 f_equal; simpl; lia.
    + by rewrite lookup_insert_eq.
    + intros col Hne. by rewrite lookup_insert_ne, Hl.
  - intros s Hs. unfold Sum. cbn [from_list sum_loop]. rewrite decide_True by done.
    rewrite Hm. cbn [mbind result_bind]. unfold getitem. by rewrite Hs.
Qed.

Lemma Sum_group_witness :
  ∃ out,
    Sum "b" (VStr <$> ["a"])
      (from_list [ {["a" := VInt 1; "b" := VInt 2]}; {["a" := VInt 1; "b" := VInt 3]} ])
    = Yield out Done
    ∧ out !! "b" = Some (VInt (sum_of [2; 3]%Z))
    ∧ ∀ col, col ≠ "b" →
        out !! col = if decide (col ∈ ["a"])
                     then ({["a" := VInt 1; "b" := VInt 2]} : TRow) !! col else None.
Proof.
  assert (has_keys ["a"] {["a" := VInt 1; "b" := VInt 2]}) as Hk by exact I.
  apply (proj1 (Sum_group "b" ["a"] {["a" := VInt 1; "b" := VInt 2]}
                  [ {["a" := VInt 1; "b" := VInt 3]} ] Hk) [2; 3]%Z).
  repeat constructor.
Defined.

Lemma count_unique_loop_rest column group_key rows (vs : list value) (m : TRow)
    (seen : gset value) :
  (m = ∅ → group_key = []) →
  Forall2 (fun (row : TRow) v => row !! column = Some v) rows vs →
  count_unique_loop column group_key (from_list rows) m seen
  = Ok (m, list_to_set vs ∪ seen).
Proof.
  intros Hm H. revert seen.
  induction H as [|row v rows vs Hv _ IH]; intros seen; simpl.
  - do 2 f_equal. set_solver.
  - assert ((if decide (m = ∅)
             then match group_key with
                  | [] => Ok m
                  | _ :: _ => key_columns group_key row
                  end
             else Ok m) = Ok m) as ->.
    { case_decide as E; [|done]. by rewrite (Hm E). }
    simpl. unfold getitem. rewrite Hv. simpl. case_decide as Hin.
    + rewrite IH. do 2 f_equal. set_solver.
    + rewrite IH. do 2 f_equal. set_solver.
Qed.

(** X8: called on a non-empty group whose first row has the key columns and
    whose rows all have the counted column, [CountUnique] yields one row: the
    number of different values of that column in the result column, beside the
    key columns with the values of the first row. *)
Theorem CountUnique_group (column result_column : string) (keys : list string)
    (r0 : TRow) (rest : list TRow) (vs : list value) :
  has_keys keys r0 →
  Forall2 (fun (row : TRow) v => row !! column = Some v) (r0 :: rest) vs →
  ∃ out,
    CountUnique column result_column (VStr <$> keys) (from_list (r0 :: rest))
    = Yield out Done
    ∧ out !! result_column
      = Some (VInt (Z.of_nat (size (list_to_set vs : gset value))))
    ∧ ∀ col, col ≠ result_column →
        out !! col = if decide (col ∈ keys) then r0 !! col else None.
Proof.
  intros Hk Hvs. destruct (key_columns_names keys r0 Hk) as (m & Hm & He & Hl).
  inversion Hvs as [|? v0 ? vs' Hv0 Hrest]; subst.
  exists (<[result_column
            := VInt (Z.of_nat (size (list_to_set (v0 :: vs') : gset value)))]> m).
  split; [|split].
  - unfold CountUnique. cbn [from_list count_unique_loop].
    rewrite decide_True by done.
    assert (match VStr <$> keys with
            | [] => Ok ∅
            | _ :: _ => key_columns (VStr <$> keys) r0
            end = Ok m) as ->.
    { destruct keys; [|done]. exact Hm. }
    cbn [mbind result_bind]. unfold getitem. rewrite Hv0. cbn [mbind result_bind].
    rewrite decide_False by set_solver.
    rewrite (count_unique_loop_rest _ _ _ vs')
      by (done || intros E; by rewrite (He E)).
    cbn [lift].
    assert (list_to_set vs' ∪ ({[v0]} ∪ ∅) = (list_to_set (v0 :: vs') : gset value))
      as -> by set_solver.
    done.
  - by rewrite lookup_insert_eq.
  - intros col Hne. by rewrite lookup_insert_ne, Hl.
Qed.

Lemma CountUnique_group_witness :
  ∃ out,
    CountUnique "doc_id" "n_docs" (VStr <$> ["text"])
      (from_list [ {["text" := VStr "hello"; "doc_id" := VInt 1]};
                   {["text" := VStr "hello"; "doc_id" := VInt 2]};
                   {["text" := VStr "hello"; "doc_id" := VInt 2]} ])
    = Yield out Done
    ∧ out !! "n_docs"
      = Some (VInt (Z.of_nat (size (list_to_set [VInt 1; VInt 2; VInt 2] : gset value))))
    ∧ ∀ col, col ≠ "n_docs" →
        out !! col
        = if decide (col ∈ ["text"])
          then ({["text" := VStr "hello"; "doc_id" := VInt 1]} : TRow) !! col
          else None.
Proof.
  apply (CountUnique_group "doc_id" "n_docs" ["text"]
           {["text" := VStr "hello"; "doc_id" := VInt 1]}
           [ {["text" := VStr "hello"; "doc_id" := VInt 2]};
             {["text" := VStr "hello"; "doc_id" := VInt 2]} ]
           [VInt 1; VInt 2; VInt 2]).
  - exact I.
  - repeat constructor.
Defined.

Lemma chain_FirstReducer group_key (gs : keyed_groups) :
  Forall (fun kg => kg.2 ≠ []) gs →
  chain ((fun kg => FirstReducer group_key (from_list kg.2)) <$> gs)
  = from_list (omap (fun kg => head kg.2) gs)
  ∧ length (omap (fun kg : list value * list TRow => head kg.2) gs) = length gs.
Proof.
  induction 1 as [|[k g] gs Hg _ [IH1 IH2]]; [done|].
  destruct g as [|r g]; [done|]. rewrite fmap_cons. cbn [chain].
  rewrite IH1. cbn. by rewrite IH2.
Qed.

(** X9: over a stream of rows that all carry the key columns, [Reduce] with
    [FirstReducer] and a non-empty key list yields the first row of every
    contiguous group, in order, and so as many rows as there are groups. *)
Theorem Reduce_FirstReducer (keys : list string) (rows : list TRow) :
  keys ≠ [] →
  Forall (has_keys keys) rows →
  Reduce FirstReducer keys (from_list rows)
  = from_list (omap (fun kg => head kg.2) (runs keys rows))
  ∧ length (emitted (Reduce FirstReducer keys (from_list rows)))
    = length (runs keys rows).
Proof.
  intros Hne Hk.
  destruct (runs_contiguous _ _ Hk) as (_ & Hall & _).
  destruct (chain_FirstReducer (VStr <$> keys) (runs keys rows)) as [HR Hlen].
  { eapply Forall_impl; [exact Hall|]. by intros kg [? _]. }
  assert (Reduce FirstReducer keys (from_list rows)
          = from_list (omap (fun kg => head kg.2) (runs keys rows))) as HE.
  { unfold Reduce. destruct keys as [|col cols]; [done|].
    by rewrite groupby_from_list, reduce_groups_of. }
  split; [done|]. by rewrite HE, emitted_from_list.
Qed.

Lemma Reduce_FirstReducer_witness :
  Reduce FirstReducer ["a"]
    (from_list [ {["a" := VInt 1; "b" := VInt 1]}; {["a" := VInt 1; "b" := VInt 2]};
                 {["a" := VInt 2; "b" := VInt 3]}; {["a" := VInt 2; "b" := VInt 4]} ])
  = from_list (omap (fun kg => head kg.2)
                 (runs ["a"]
                    [ {["a" := VInt 1; "b" := VInt 1]}; {["a" := VInt 1; "b" := VInt 2]};
                      {["a" := VInt 2; "b" := VInt 3]}; {["a" := VInt 2; "b" := VInt 4]} ])).
Proof.
  apply (Reduce_FirstReducer ["a"]).
  - discriminate.
  - repeat constructor.
Defined.

(** X10: on an empty input, [Reduce] with a non-empty key list never calls
    the reducer and yields nothing, whatever the reducer; with an empty key
    list the reducer is called once on the empty stream, and then [Count],
    [Sum] and [CountUnique] yield one row with 0 in their result column,
    while [FirstReducer] and [TopN] yield nothing. *)
Theorem Reduce_empty_input (reducer : Reducer) (key : string) (keys : list string)
    (column : string) (n : Z) :
  Reduce reducer (key :: keys) Done = Done
  ∧ Reduce (Count column) [] Done = Yield {[column := VInt 0]} Done
  ∧ Reduce (Sum column) [] Done = Yield {[column := VInt 0]} Done
  ∧ Reduce (CountUnique "c" column) [] Done = Yield {[column := VInt 0]} Done
  ∧ Reduce FirstReducer [] Done = Done
  ∧ Reduce (TopN column n) [] Done = Done.
Proof.
  repeat split.
Qed.

(** ** The joiners *)

(** X11: [separate_columns] divides the columns of the two rows into three
    sets that do not overlap and together are all columns of the two rows:
    the columns to copy from the right row are those that only the right row
    has, the common columns are those of both rows that are not join keys,
    and the columns to copy from the left row are all other columns of the
    left row, the join keys that it has among them. *)
Theorem separate_columns_partition (row_a row_b : TRow) (keys : list string) :
  ∃ col_from_left col_from_right common_col : gset string,
    separate_columns row_a row_b keys = (col_from_left, col_from_right, common_col)
    ∧ col_from_left ∪ col_from_right ∪ common_col = dom row_a ∪ dom row_b
    ∧ col_from_left ## col_from_right
    ∧ col_from_left ## common_col
    ∧ col_from_right ## common_col
    ∧ col_from_right = dom row_b ∖ dom row_a
    ∧ (∀ c, c ∈ common_col ↔ c ∈ dom row_a ∧ c ∈ dom row_b ∧ c ∉ keys)
    ∧ (∀ c, c ∈ col_from_left ↔ c ∈ dom row_a ∧ (c ∈ dom row_b → c ∈ keys)).
Proof.
  eexists _, _, _. split; [reflexivity|].
  assert (∀ c, c ∈ (list_to_set keys : gset string) ↔ c ∈ keys) as Hk
    by (intros c; apply elem_of_list_to_set).
  split; [|split; [|split; [|split; [|split; [|split]]]]].
  - apply set_eq. intros c.
    rewrite !elem_of_union, !elem_of_intersection, !elem_of_difference,
      elem_of_intersection, elem_of_difference, Hk.
    destruct (decide (c ∈ dom row_a)), (decide (c ∈ dom row_b)),
      (decide (c ∈ keys)); tauto.
  - set_solver.
  - set_solver.
  - set_solver.
  - set_solver.
  - intros c. rewrite elem_of_intersection, elem_of_difference, Hk. tauto.
  - intros c. rewrite elem_of_difference, elem_of_intersection,
      elem_of_difference, Hk.
    destruct (decide (c ∈ keys)); tauto.
Qed.

Lemma join_row_union sa sb keys (a b : TRow) :
  (∀ c, c ∈ dom a → c ∈ dom b → c ∈ keys) →
  join_row sa sb a b (separate_columns a b keys) = Ok (a ∪ b).
Proof.
  intros Hshared. unfold join_row, separate_columns.
  assert (dom a ∩ (dom b ∖ list_to_set keys) = (∅ : gset string)) as ->.
  { apply set_eq. intros c. rewrite elem_of_intersection, elem_of_difference.
    rewrite elem_of_list_to_set. set_solver. }
  destruct (copy_columns_lookup (elements (dom a ∖ ∅)) a ∅) as (m1 & -> & Hm1).
  { apply Forall_forall. intros c Hc. apply elem_of_elements in Hc.
    apply elem_of_dom. set_solver. }
  destruct (copy_columns_lookup (elements ((dom b ∖ dom a) ∩ dom b)) b m1)
    as (m2 & Hm2e & Hm2).
  { apply Forall_forall. intros c Hc. apply elem_of_elements in Hc.
    apply elem_of_dom. set_solver. }
  cbn [mbind result_bind]. rewrite Hm2e. cbn [mbind result_bind].
  rewrite elements_empty. cbn [copy_common]. f_equal.
  apply map_eq. intros k. rewrite Hm2, Hm1.
  destruct (a !! k) as [va|] eqn:Ea.
  - rewrite (lookup_union_Some_l a b k va Ea).
    rewrite decide_False.
    2: { rewrite elem_of_elements. intros Hk.
         apply elem_of_intersection in Hk as [Hk _].
         apply elem_of_difference in Hk as [_ Hk]. apply Hk, elem_of_dom. eauto. }
    rewrite decide_True; [done|].
    rewrite elem_of_elements. apply elem_of_difference. split; [|set_solver].
    apply elem_of_dom. eauto.
  - rewrite (lookup_union_r a b k Ea).
    destruct (b !! k) as [vb|] eqn:Eb.
    + rewrite decide_True; [done|]. rewrite elem_of_elements.
      apply elem_of_intersection. split; [|apply elem_of_dom; eauto].
      apply elem_of_difference. split; [apply elem_of_dom; eauto|].
      by apply not_elem_of_dom.
    + rewrite decide_False.
      2: { rewrite elem_of_elements. intros Hk.
           apply elem_of_intersection in Hk as [_ Hk].
           apply elem_of_dom in Hk as [? ?]. congruence. }
      rewrite decide_False; [done|].
      rewrite elem_of_elements. intros Hk.
      apply elem_of_difference in Hk as [Hk _].
      apply elem_of_dom in Hk as [? ?]. congruence.
Qed.

(** X12: when the only columns that a left row and a right row share are join
    keys, the row that a join emits for the pair is the union of the two
    rows; the shared key columns hold the value of the left row, except in
    [RightJoiner], where they hold the value of the right row. *)
Theorem joiner_rows_sharing_keys_only (s : strategy) (sa sb : string)
    (keys : list string) (a b : TRow) :
  (∀ c, c ∈ dom a → c ∈ dom b → c ∈ keys) →
  joiner_of s sa sb keys (from_list [a]) (from_list [b])
  = from_list [match s with Right => b ∪ a | _ => a ∪ b end].
Proof.
  intros Hshared. rewrite joiner_matched.
  destruct s; cbn [fmap list_fmap chain join_row_list lift yield_from];
    rewrite join_row_union; try done.
  intros c Hb Ha. by apply Hshared.
Qed.

Lemma joiner_rows_sharing_keys_only_witness :
  joiner_of Inner "_1" "_2" ["id"]
    (from_list [ {["id" := VInt 1; "cost" := VInt 80]} ])
    (from_list [ {["id" := VInt 1; "speed" := VInt 5]} ])
  = from_list [ {["id" := VInt 1; "cost" := VInt 80]}
                ∪ {["id" := VInt 1; "speed" := VInt 5]} ].
Proof.
  apply (joiner_rows_sharing_keys_only Inner "_1" "_2" ["id"]
           {["id" := VInt 1; "cost" := VInt 80]} {["id" := VInt 1; "speed" := VInt 5]}).
  intros c Ha Hb.
  assert (c ∈ ({["id"; "cost"]} : gset string) ∩ {["id"; "speed"]}) as Hc
    by set_solver.
  assert (c = "id") as -> by set_solver. left.
Defined.

(** ** Join *)

Lemma merge_calls_nil_r GA :
  merge_calls GA [] = (fun A => OnlyLeft A.2) <$> GA.
Proof.
  induction GA as [|[ka ga] GA IH]; [done|].
  by rewrite merge_calls_cons_nil, IH.
Qed.

Lemma merge_calls_nil_l GB :
  merge_calls [] GB = (fun B => OnlyRight B.2) <$> GB.
Proof.
  induction GB as [|[kb gb] GB IH]; [done|].
  by rewrite merge_calls_nil_cons, IH.
Qed.

Lemma Join_only_left (joiner : Joiner) keys (f : list TRow → list TRow) A :
  Forall (has_keys keys) A →
  (∀ g, joiner keys (from_list g) Done = from_list (f g)) →
  Join joiner keys (from_list A) Done
  = from_list (concat (f <$> (snd <$> runs keys A))).
Proof.
  intros HkA Hj. change Done with (from_list []).
  rewrite Join_calls; [|done|constructor|].
  2: { intros a b _ Hb. by apply not_elem_of_nil in Hb. }
  change (runs keys []) with (@nil (list value * list TRow)).
  rewrite merge_calls_nil_r.
  induction (runs keys A) as [|[ka ga] GA IH]; [done|].
  csimpl. by rewrite Hj, IH, from_list_app.
Qed.

Lemma Join_only_right (joiner : Joiner) keys (f : list TRow → list TRow) B :
  Forall (has_keys keys) B →
  (∀ g, joiner keys Done (from_list g) = from_list (f g)) →
  Join joiner keys Done (from_list B)
  = from_list (concat (f <$> (snd <$> runs keys B))).
Proof.
  intros HkB Hj. change Done with (from_list []) at 1.
  rewrite Join_calls; [|constructor|done|].
  2: { intros a b Ha _. by apply not_elem_of_nil in Ha. }
  change (runs keys []) with (@nil (list value * list TRow)).
  rewrite merge_calls_nil_l.
  induction (runs keys B) as [|[kb gb] GB IH]; [done|].
  csimpl. by rewrite Hj, IH, from_list_app.
Qed.

Lemma concat_fmap_nil {A B} (l : list A) :
  concat ((fun _ => @nil B) <$> l) = [].
Proof. induction l; [done|]. by csimpl. Qed.

Lemma joiner_one_side (sa sb : string) (keys : list string) (g : list TRow) :
  InnerJoiner sa sb keys (from_list g) Done = Done
  ∧ InnerJoiner sa sb keys Done (from_list g) = Done
  ∧ LeftJoiner sa sb keys (from_list g) Done = from_list g
  ∧ LeftJoiner sa sb keys Done (from_list g) = Done
  ∧ RightJoiner sa sb keys (from_list g) Done = Done
  ∧ RightJoiner sa sb keys Done (from_list g) = from_list g
  ∧ OuterJoiner sa sb keys (from_list g) Done = from_list g
  ∧ OuterJoiner sa sb keys Done (from_list g) = from_list g.
Proof.
  unfold InnerJoiner, LeftJoiner, RightJoiner, OuterJoiner.
  rewrite !to_list_from_list. simpl. by destruct g.
Qed.

(** X13: a join with a side that has no rows. When the right stream is
    empty, [Outer] and [Left] return the left stream as it is, and [Inner]
    and [Right] return nothing; when the left stream is empty, [Outer] and
    [Right] return the right stream as it is, and [Inner] and [Left] return
    nothing. The rows of the other stream only need to have the key
    columns: no order and no common set of columns is required. *)
Theorem Join_empty_side (sa sb : string) (keys : list string) (rows : list TRow) :
  Forall (has_keys keys) rows →
  Join (OuterJoiner sa sb) keys (from_list rows) Done = from_list rows
  ∧ Join (LeftJoiner sa sb) keys (from_list rows) Done = from_list rows
  ∧ Join (InnerJoiner sa sb) keys (from_list rows) Done = Done
  ∧ Join (RightJoiner sa sb) keys (from_list rows) Done = Done
  ∧ Join (OuterJoiner sa sb) keys Done (from_list rows) = from_list rows
  ∧ Join (RightJoiner sa sb) keys Done (from_list rows) = from_list rows
  ∧ Join (InnerJoiner sa sb) keys Done (from_list rows) = Done
  ∧ Join (LeftJoiner sa sb) keys Done (from_list rows) = Done.
Proof.
  intros Hk.
  assert (concat (id <$> (snd <$> runs keys rows)) = rows) as Hid.
  { rewrite list_fmap_id. apply rows_of_runs. }
  pose proof (fun g => joiner_one_side sa sb keys g) as Hj.
  repeat split.
  - rewrite (Join_only_left _ keys id), Hid; [done|done|]. intros g. apply Hj.
  - rewrite (Join_only_left _ keys id), Hid; [done|done|]. intros g. apply Hj.
  - rewrite (Join_only_left _ keys (fun _ => [])), concat_fmap_nil; [done|done|].
    intros g. apply Hj.
  - rewrite (Join_only_left _ keys (fun _ => [])), concat_fmap_nil; [done|done|].
    intros g. apply Hj.
  - rewrite (Join_only_right _ keys id), Hid; [done|done|]. intros g. apply Hj.
  - rewrite (Join_only_right _ keys id), Hid; [done|done|]. intros g. apply Hj.
  - rewrite (Join_only_right _ keys (fun _ => [])), concat_fmap_nil; [done|done|].
    intros g. apply Hj.
  - rewrite (Join_only_right _ keys (fun _ => [])), concat_fmap_nil; [done|done|].
    intros g. apply Hj.
Qed.

Lemma Join_empty_side_witness :
  Forall (has_keys ["id"]) [ ({["id" := VInt 2]} : TRow); {["id" := VInt 1]} ]
  ∧ Join (LeftJoiner "_1" "_2") ["id"]
         (from_list [ {["id" := VInt 2]}; {["id" := VInt 1]} ]) Done
    = from_list [ {["id" := VInt 2]}; {["id" := VInt 1]} ].
Proof.
  assert (Forall (has_keys ["id"])
            [ ({["id" := VInt 2]} : TRow); {["id" := VInt 1]} ]) as Hk
    by (repeat constructor).
  split; [exact Hk|].
  exact (proj1 (proj2 (Join_empty_side "_1" "_2" ["id"] _ Hk))).
Defined.

Lemma groupby_Yield_ok keys row rest k :
  key_tuple keys row = Ok k →
  ∃ g next, groupby keys (Yield row rest) = GGroup k g next.
Proof.
  intros Hk. simpl. rewrite Hk.
  destruct (groupby keys rest) as [|k' g next|e]; [by eexists _, _| |by eexists _, _].
  destruct (decide (k = k')); by eexists _, _.
Qed.

(** X14: [Join] fails before it yields a row, whatever the joiner, when the
    first rows of the two streams do not give comparable key tuples: with the
    exception of the key lookup when the first left row lacks a key column,
    else with that of the first right row, else with the exception of the
    comparison of the two first key tuples (a [TypeError] for an integer
    against a string). *)
Theorem Join_fails_on_first_keys (joiner : Joiner) (keys : list string)
    (a b : TRow) (A B : TRowsGenerator) (e : exn) :
  key_tuple keys a = Err e
  ∨ (is_ok (key_tuple keys a) ∧ key_tuple keys b = Err e)
  ∨ (∃ ka kb, key_tuple keys a = Ok ka ∧ key_tuple keys b = Ok kb
              ∧ tuple_lt ka kb = Err e) →
  Join joiner keys (Yield a A) (Yield b B) = Raise e.
Proof.
  unfold Join. intros [Ha|[[Ha Hb]|(ka & kb & Ha & Hb & Hlt)]].
  - simpl. rewrite Ha. by destruct (match key_tuple keys b with Ok _ => _ | Err _ => _ end).
  - destruct (key_tuple keys a) as [ka|] eqn:Eka; [|done].
    destruct (groupby_Yield_ok keys a A ka Eka) as (g & next & ->).
    simpl. by rewrite Hb.
  - destruct (groupby_Yield_ok keys a A ka Ha) as (ga & na & ->).
    destruct (groupby_Yield_ok keys b B kb Hb) as (gb & nb & ->).
    simpl. by rewrite Hlt.
Qed.

Lemma Join_fails_on_first_keys_witness :
  Join (InnerJoiner "_1" "_2") ["id"]
    (Yield {["id" := VInt 1]} Done) (Yield {["id" := VStr "1"]} Done)
  = Raise TypeError.
Proof.
  apply Join_fails_on_first_keys. right. right.
  exists [VInt 1], [VStr "1"]. by vm_compute.
Defined.

Lemma partner_none k (G : keyed_groups) :
  Forall (fun B => B.1 ≠ k) G → partner k G = None.
Proof. intros H. unfold partner. by rewrite filter_key_none. Qed.

Lemma partner_cons_ne k B (G : keyed_groups) :
  B.1 ≠ k → partner k (B :: G) = partner k G.
Proof. intros H. unfold partner. by rewrite filter_cons_False. Qed.

Lemma partner_cons_eq k g (G : keyed_groups) :
  partner k ((k, g) :: G) = Some g.
Proof. unfold partner. by rewrite filter_cons_True. Qed.

Lemma one_sided_rows_cons sa sb keys A GA GB :
  one_sided_rows sa sb keys (A :: GA) GB
  = match partner A.1 GB with
    | Some gb => cross (joined sa sb keys) A.2 gb
    | None => A.2
    end ++ one_sided_rows sa sb keys GA GB.
Proof. done. Qed.

Lemma one_sided_rows_cons_ne sa sb keys GA B GB :
  Forall (fun A => A.1 ≠ B.1) GA →
  one_sided_rows sa sb keys GA (B :: GB) = one_sided_rows sa sb keys GA GB.
Proof.
  induction 1 as [|A GA HA _ IH]; [done|].
  rewrite !one_sided_rows_cons, IH, partner_cons_ne; [done|]. congruence.
Qed.

Lemma one_sided_rows_nil_r sa sb keys GA :
  one_sided_rows sa sb keys GA [] = rows_of GA.
Proof.
  induction GA as [|A GA IH]; [done|].
  rewrite one_sided_rows_cons, IH. done.
Qed.

Lemma ascending_above k k' (G : keyed_groups) :
  tuple_ltb k k' = true →
  Forall (fun B => tuple_ltb k' B.1 = true) G →
  Forall (fun B => B.1 ≠ k) G.
Proof.
  intros Hlt H. apply ascending_ne.
  eapply Forall_impl; [exact H|]. intros B HB. simpl in *.
  by apply (tuple_ltb_trans _ k').
Qed.

Lemma merge_calls_left_rows sa sb keys GA GB :
  ascending GA → ascending GB →
  concat (left_rows sa sb keys <$> merge_calls GA GB)
  = one_sided_rows sa sb keys GA GB.
Proof.
  intros HA. revert GB. induction HA as [|[ka ga] GA HA IHA HltA]; intros GB HB.
  - induction HB as [|[kb gb] GB HB IHB HltB]; [done|].
    rewrite merge_calls_nil_cons. rewrite fmap_cons; cbn [concat left_rows right_rows app]. apply IHB.
  - induction HB as [|[kb gb] GB HB IHB HltB].
    + rewrite merge_calls_cons_nil. rewrite fmap_cons; cbn [concat left_rows right_rows app].
      rewrite (IHA []) by constructor. by rewrite one_sided_rows_cons.
    + rewrite merge_calls_cons_cons. destruct (tuple_ltb ka kb) eqn:E1.
      * rewrite fmap_cons; cbn [concat left_rows right_rows app]. rewrite (IHA ((kb, gb) :: GB)) by (by constructor).
        rewrite one_sided_rows_cons, partner_none; [done|].
        constructor; [simpl; intros ->; by rewrite tuple_ltb_irrefl in E1|].
        by apply (ascending_above _ kb).
      * destruct (tuple_ltb kb ka) eqn:E2.
        -- rewrite fmap_cons; cbn [concat left_rows right_rows app]. rewrite IHB. rewrite one_sided_rows_cons_ne; [done|].
           constructor; [simpl; intros ->; by rewrite tuple_ltb_irrefl in E2|].
           by apply (ascending_above _ ka).
        -- rewrite fmap_cons; cbn [concat left_rows right_rows app]. rewrite (IHA GB HB).
           assert (ka = kb) as -> by (by apply tuple_ltb_total).
           rewrite one_sided_rows_cons. simpl. rewrite partner_cons_eq.
           rewrite one_sided_rows_cons_ne; [done|]. by apply ascending_ne.
Qed.

Lemma merge_calls_right_rows sa sb keys GA GB :
  ascending GA → ascending GB →
  concat (right_rows sa sb keys <$> merge_calls GA GB)
  = one_sided_rows sa sb keys GB GA.
Proof.
  intros HA. revert GB. induction HA as [|[ka ga] GA HA IHA HltA]; intros GB HB.
  - induction HB as [|[kb gb] GB HB IHB HltB]; [done|].
    rewrite merge_calls_nil_cons. rewrite fmap_cons; cbn [concat left_rows right_rows app]. rewrite IHB.
    by rewrite one_sided_rows_cons.
  - induction HB as [|[kb gb] GB HB IHB HltB].
    + rewrite merge_calls_cons_nil. rewrite fmap_cons; cbn [concat left_rows right_rows app].
      by rewrite (IHA []) by constructor.
    + rewrite merge_calls_cons_cons. destruct (tuple_ltb ka kb) eqn:E1.
      * rewrite fmap_cons; cbn [concat left_rows right_rows app]. rewrite (IHA ((kb, gb) :: GB)) by (by constructor).
        rewrite one_sided_rows_cons_ne; [done|].
        constructor; [simpl; intros ->; by rewrite tuple_ltb_irrefl in E1|].
        by apply (ascending_above _ kb).
      * destruct (tuple_ltb kb ka) eqn:E2.
        -- rewrite fmap_cons; cbn [concat left_rows right_rows app]. rewrite IHB.
           rewrite one_sided_rows_cons, partner_none; [done|].
           constructor; [simpl; intros ->; by rewrite tuple_ltb_irrefl in E2|].
           by apply (ascending_above _ ka).
        -- rewrite fmap_cons; cbn [concat left_rows right_rows app]. rewrite (IHA GB HB).
           assert (ka = kb) as -> by (by apply tuple_ltb_total).
           rewrite one_sided_rows_cons. simpl. rewrite partner_cons_eq.
           rewrite one_sided_rows_cons_ne; [done|]. by apply ascending_ne.
Qed.

Lemma run_call_left sa sb keys DA DB c :
  no_clash sa sb keys DA DB →
  call_uniform DA DB c →
  run_call (LeftJoiner sa sb) keys c = from_list (left_rows sa sb keys c).
Proof.
  intros Hc Hu. destruct c as [ga|gb|ga gb].
  - apply joiner_one_side.
  - apply joiner_one_side.
  - destruct Hu as (Hga & Hgb & HA & HB).
    apply (joiner_uniform Left sa sb keys ga gb DA DB); done.
Qed.

Lemma run_call_right sa sb keys DA DB c :
  no_clash sa sb keys DA DB →
  call_uniform DA DB c →
  run_call (RightJoiner sa sb) keys c = from_list (right_rows sa sb keys c).
Proof.
  intros Hc Hu. destruct c as [ga|gb|ga gb].
  - apply joiner_one_side.
  - apply joiner_one_side.
  - destruct Hu as (Hga & Hgb & HA & HB).
    apply (joiner_uniform Right sa sb keys ga gb DA DB); done.
Qed.

(** X15: the Left join and the Right join, under the conditions of the Inner
    join (key-sorted streams, rows with the key columns and mutually
    comparable key tuples, one set of columns per side, new suffixed names).
    The output of a Left join is, group by group of the left stream in key
    order, the cross-product of the group with the right group of the same
    key tuple, or the left group as it is when no right group has its key
    tuple; right rows without a partner do not appear. The Right join does
    the same from the groups of the right stream, and there the right row
    takes the place of the left row in the combination. *)
Theorem Join_one_sided (sa sb : string) (keys : list string)
    (A B : list TRow) (DA DB : gset string) :
  Forall (has_keys keys) A → Forall (has_keys keys) B →
  key_sorted keys A → key_sorted keys B →
  (∀ a b, a ∈ A → b ∈ B → comparable (key_of keys a) (key_of keys b)) →
  Forall (fun a => dom a = DA) A → Forall (fun b => dom b = DB) B →
  no_clash sa sb keys DA DB →
  Join (LeftJoiner sa sb) keys (from_list A) (from_list B)
  = from_list (one_sided_rows sa sb keys (runs keys A) (runs keys B))
  ∧ Join (RightJoiner sa sb) keys (from_list A) (from_list B)
    = from_list (one_sided_rows sa sb keys (runs keys B) (runs keys A)).
Proof.
  intros HkA HkB HsA HsB Hcmp HA HB Hclash.
  set (cs := merge_calls (runs keys A) (runs keys B)).
  assert (Forall (call_uniform DA DB) cs) as Hu.
  { apply Forall_forall. intros c Hc. by apply (calls_uniform keys A B). }
  split.
  - rewrite Join_calls by done. fold cs.
    rewrite (chain_calls _ _ (left_rows sa sb keys)).
    + unfold cs. rewrite merge_calls_left_rows; [done| |]; by apply runs_ascending.
    + eapply Forall_impl; [exact Hu|]. intros c. by apply run_call_left.
  - rewrite Join_calls by done. fold cs.
    rewrite (chain_calls _ _ (right_rows sa sb keys)).
    + unfold cs. rewrite merge_calls_right_rows; [done| |]; by apply runs_ascending.
    + eapply Forall_impl; [exact Hu|]. intros c. by apply run_call_right.
Qed.

Lemma Join_one_sided_witness :
  let A : list TRow := [ {["id" := VInt 1; "cost" := VInt 80]};
                         {["id" := VInt 3; "cost" := VInt 90]} ] in
  let B : list TRow := [ {["id" := VInt 1; "speed" := VInt 5]};
                         {["id" := VInt 2; "speed" := VInt 10]} ] in
  Join (LeftJoiner "_1" "_2") ["id"] (from_list A) (from_list B)
  = from_list (one_sided_rows "_1" "_2" ["id"] (runs ["id"] A) (runs ["id"] B))
  ∧ Join (RightJoiner "_1" "_2") ["id"] (from_list A) (from_list B)
    = from_list (one_sided_rows "_1" "_2" ["id"] (runs ["id"] B) (runs ["id"] A)).
Proof.
  intros A B.
  apply (Join_one_sided "_1" "_2" ["id"] A B {["id"; "cost"]} {["id"; "speed"]}).
  - repeat constructor.
  - repeat constructor.
  - repeat constructor.
  - repeat constructor.
  - intros a b Ha Hb. unfold A, B in *.
    repeat (apply elem_of_cons in Ha as [->|Ha]);
      repeat (apply elem_of_cons in Hb as [->|Hb]);
      try (by apply not_elem_of_nil in Ha); try (by apply not_elem_of_nil in Hb);
      by split.
  - repeat constructor; set_solver.
  - repeat constructor; set_solver.
  - unfold no_clash. split; intros c c' Hc; set_solver.
Defined.

(** ** Failures of the input *)

Lemma raised_yield_from x y :
  raised (yield_from x y) = match raised x with Some e => Some e | None => raised y end.
Proof. induction x as [|row x IH|e]; simpl; [done|exact IH|done]. Qed.

Lemma Map_raised_input (mapper : Mapper) rows e :
  raised rows = Some e → is_Some (raised (Map mapper rows)).
Proof.
  induction rows as [|row rows IH|e']; simpl; [done| |by eauto].
  intros H. rewrite raised_yield_from.
  destruct (raised (mapper row)); [by eauto|by apply IH].
Qed.

Lemma Map_raised_total (mapper : Mapper) rows :
  (∀ row, raised (mapper row) = None) →
  raised (Map mapper rows) = raised rows.
Proof.
  intros Hm. induction rows as [|row rows IH|e']; simpl; [done| |done].
  by rewrite raised_yield_from, Hm.
Qed.

Lemma groupby_ends_in_raise keys rows e :
  raised rows = Some e → ends_in_raise (groupby keys rows).
Proof.
  induction rows as [|row rows IH|e']; simpl; [done| |done].
  intros H. specialize (IH H).
  destruct (key_tuple keys row) as [k|]; [|done].
  destruct (groupby keys rows) as [|k' g next|e'']; [done| |done].
  by destruct (decide (k = k')).
Qed.

Lemma reduce_groups_raised reducer group_key gs :
  ends_in_raise gs → is_Some (raised (reduce_groups reducer group_key gs)).
Proof.
  induction gs as [|k g next IH|e]; simpl; [done| |by eauto].
  intros H. rewrite raised_yield_from.
  destruct (raised (reducer group_key (grouper g next))); [by eauto|by apply IH].
Qed.

(** X16: a failure of the input is not lost. When the input stream ends in
    an exception, the output of [Map] ends in an exception, whatever the
    mapper, and it is the exception of the input when the mapper itself does
    not raise; the output of [Reduce] with a non-empty key list and one of
    the reducers of the library ([Count], [Sum], [CountUnique],
    [FirstReducer], [TopN]), none of which catches an exception of its input,
    ends in an exception. With an empty key list this depends on the
    reducer: [FirstReducer] returns the first row and never pulls the
    failure that follows it. *)
Theorem input_failure_is_raised (mapper : Mapper) (column result_column : string)
    (n : Z) (key : string) (keys : list string) (rows : TRowsGenerator) (e : exn) :
  raised rows = Some e →
  is_Some (raised (Map mapper rows))
  ∧ ((∀ row, raised (mapper row) = None) → raised (Map mapper rows) = Some e)
  ∧ is_Some (raised (Reduce (Count column) (key :: keys) rows))
  ∧ is_Some (raised (Reduce (Sum column) (key :: keys) rows))
  ∧ is_Some (raised (Reduce (CountUnique column result_column) (key :: keys) rows))
  ∧ is_Some (raised (Reduce FirstReducer (key :: keys) rows))
  ∧ is_Some (raised (Reduce (TopN column n) (key :: keys) rows))
  ∧ ∀ row, Reduce FirstReducer [] (Yield row (Raise e)) = Yield row Done.
Proof.
  intros H. split; [by apply (Map_raised_input _ _ e)|]. split.
  { intros Hm. by rewrite Map_raised_total. }
  pose proof (groupby_ends_in_raise (key :: keys) rows e H) as Hg.
  unfold Reduce. repeat split; by apply reduce_groups_raised.
Qed.

Lemma input_failure_is_raised_witness :
  is_Some (raised (Reduce (Count "n") ["k"]
                     (Yield {["k" := VInt 1]} (Raise TypeError)))).
Proof.
  apply (input_failure_is_raised DummyMapper "n" "m" 1 "k" []
           (Yield {["k" := VInt 1]} (Raise TypeError)) TypeError).
  reflexivity.
Defined.

(** ** TopN *)

Lemma topn_loop_keeps_all column n w rows :
  kind_rows column w rows →
  ∀ heap topn,
    length heap = length topn →
    (Z.of_nat (length topn + length rows) ≤ n)%Z →
    StronglySorted item_le heap →
    Forall (fun y : heapq.item => same_kind w y.1 = true) heap →
    topn_loop column n (from_list rows) heap topn = Ok (topn ++ rows).
Proof.
  induction 1 as [|row rows Hrow Hk IH]; intros heap topn Hlen Hn Hs Hkh.
  { simpl. by rewrite app_nil_r. }
  apply getitem_kind in Hrow as [Hrow Hkrow].
  cbn [from_list topn_loop].
  rewrite bool_decide_eq_true_2 by (simpl in Hn; lia).
  rewrite Hrow. cbn [mbind result_bind].
  destruct (heapq_insert_ok w (column_value column row, length heap) heap)
    as (heap' & Hins & Hp & Hs'); [done|done|done|].
  unfold heapq.heappush. rewrite Hins. cbn [mbind result_bind].
  rewrite IH.
  - by rewrite <- app_assoc.
  - rewrite Hp, length_app. simpl. lia.
  - rewrite length_app. simpl in *. lia.
  - done.
  - rewrite Hp. by constructor.
Qed.

Lemma insert_desc_stable column row sorted out v :
  insert_desc column row sorted = Ok out →
  filter (fun r => column_value column r = v) out
  = filter (fun r => column_value column r = v) (row :: sorted).
Proof.
  revert out. induction sorted as [|row' rest IH]; intros out; simpl.
  { by intros [= <-]. }
  unfold getitem.
  destruct (row !! column) as [x|] eqn:Ex; [|done].
  destruct (row' !! column) as [x'|] eqn:Ex'; [|done]. simpl.
  destruct (py_lt x x') as [b|] eqn:Elt; [|done]. simpl.
  apply py_lt_value_ltb in Elt. subst b.
  destruct (value_ltb x x') eqn:E; [|by intros [= <-]].
  destruct (insert_desc column row rest) as [rest'|] eqn:Ei; [|done].
  simpl. intros [= <-]. specialize (IH rest' eq_refl).
  assert (x ≠ x') as Hne by (intros ->; by rewrite value_ltb_irrefl in E).
  rewrite (filter_cons _ row'), IH, !filter_cons.
  unfold column_value. rewrite Ex, Ex'. simpl.
  destruct (decide (x' = v)), (decide (x = v)); congruence.
Qed.

Lemma sort_desc_stable column rows out v :
  sort_desc column rows = Ok out →
  filter (fun r => column_value column r = v) out
  = filter (fun r => column_value column r = v) rows.
Proof.
  revert out. induction rows as [|row rows IH]; intros out; simpl.
  { by intros [= <-]. }
  destruct (sort_desc column rows) as [sorted|]; [|done]. simpl.
  intros Hi. rewrite (insert_desc_stable _ _ _ _ v Hi).
  by rewrite !filter_cons, (IH sorted eq_refl).
Qed.

(** X17: on a group of at most [n] rows whose values in [column] are of one
    kind, [TopN(column, n)] returns all rows of the group, in descending
    order of the value, and rows with the same value keep the order in which
    they came. *)
Theorem TopN_small_group (column : string) (n : Z) (w : value)
    (group_key : list value) (rows : list TRow) :
  (Z.of_nat (length rows) ≤ n)%Z →
  kind_rows column w rows →
  ∃ out,
    TopN column n group_key (from_list rows) = from_list out
    ∧ out ≡ₚ rows
    ∧ descending column out
    ∧ ∀ v, filter (fun r => column_value column r = v) out
           = filter (fun r => column_value column r = v) rows.
Proof.
  intros Hn Hk.
  destruct (sort_desc_ok column w rows Hk) as (out & Hsort & Hp & Hdesc).
  exists out. unfold TopN.
  rewrite (topn_loop_keeps_all column n w rows Hk [] []);
    [|done|simpl; lia|constructor|constructor].
  simpl. rewrite Hsort. simpl. split; [done|]. split; [done|]. split; [done|].
  intros v. by apply sort_desc_stable.
Qed.

Lemma TopN_small_group_witness :
  ∃ out,
    TopN "v" 3 []
      (from_list [ {["v" := VInt 3; "id" := VStr "a"]};
                   {["v" := VInt 5; "id" := VStr "b"]};
                   {["v" := VInt 3; "id" := VStr "c"]} ]) = from_list out
    ∧ out ≡ₚ [ {["v" := VInt 3; "id" := VStr "a"]};
               {["v" := VInt 5; "id" := VStr "b"]};
               {["v" := VInt 3; "id" := VStr "c"]} ]
    ∧ descending "v" out
    ∧ ∀ v, filter (fun r => column_value "v" r = v) out
           = filter (fun r => column_value "v" r = v)
               [ {["v" := VInt 3; "id" := VStr "a"]};
                 {["v" := VInt 5; "id" := VStr "b"]};
                 {["v" := VInt 3; "id" := VStr "c"]} ].
Proof.
  apply (TopN_small_group "v" 3 (VInt 0) []).
  - simpl. lia.
  - repeat constructor; eexists; (split; [by vm_compute|done]).
Defined.

(** X18: the failures of [TopN] on its first rows. A first row without
    [column] gives the [KeyError] of the column, for every [n]; for [n <= 0]
    a first row that has the column gives [IndexError], the lookup of the
    least element in the empty heap; for [n >= 1], a second row whose value
    is of the other kind than that of the first (an integer and a string)
    gives [TypeError]. *)
Theorem TopN_failures (column : string) (n : Z) (group_key : list value)
    (row : TRow) (rest : TRowsGenerator) (e : exn) :
  (row !! column = None ∧ e = KeyError (VStr column))
  ∨ (is_Some (row !! column) ∧ (n ≤ 0)%Z ∧ e = IndexError)
  ∨ ((1 ≤ n)%Z ∧ e = TypeError
     ∧ ∃ v row2 v2 rest',
         row !! column = Some v ∧ rest = Yield row2 rest'
         ∧ row2 !! column = Some v2 ∧ same_kind v v2 = false) →
  TopN column n group_key (Yield row rest) = Raise e.
Proof.
  unfold TopN.
  intros [[Hrow ->]|[([v Hrow] & Hn & ->)|(Hn & -> & v & row2 & v2 & rest' & Hrow
                                            & -> & Hrow2 & Hkind)]].
  - cbn [topn_loop]. unfold getitem. rewrite Hrow.
    by destruct (bool_decide _).
  - cbn [topn_loop].
    rewrite bool_decide_eq_false_2 by (simpl; lia).
    unfold getitem. by rewrite Hrow.
  - cbn [topn_loop].
    rewrite bool_decide_eq_true_2 by (simpl; lia).
    unfold getitem. rewrite Hrow. cbn [mbind result_bind heapq.heappush heapq.insert length].
    rewrite Hrow2.
    assert (py_lt v v2 = Err TypeError) as H12 by (by apply py_lt_other_kind).
    assert (py_lt v2 v = Err TypeError) as H21.
    { apply py_lt_other_kind. destruct v, v2; done. }
    assert (v2 ≠ v) as Hne by (intros ->; by rewrite same_kind_refl in Hkind).
    destruct (bool_decide (Z.of_nat 1 < n)%Z).
    + cbn [mbind result_bind heapq.heappush heapq.insert].
      unfold heapq.item_lt. cbn [fst snd].
      rewrite decide_False by done. by rewrite H21.
    + cbn [mbind result_bind heapq.top fst snd]. by rewrite H12.
Qed.

Lemma TopN_failures_witness :
  TopN "v" 0 [] (Yield {["v" := VInt 3]} Done) = Raise IndexError.
Proof.
  apply TopN_failures. right. left.
  split; [by exists (VInt 3)|]. split; [lia|done].
Defined.

(** ** Graph *)

(** X19: a run of a graph depends on the keyword arguments only through the
    sources that the graph reads: two sets of arguments that agree on the
    source names of the graph give the same output, so arguments that the
    graph does not name are ignored. *)
Theorem run_reads_only_its_sources (graph : Operation) (kwargs kwargs' : TSources) :
  (∀ name, name ∈ sources graph → kwargs !! name = kwargs' !! name) →
  run graph kwargs = run graph kwargs'.
Proof.
  induction graph as [name|op_one pipeline IH|joiner keys g1 IH1 g2 IH2];
    intros Hagree; simpl in *.
  - rewrite (Hagree name); [done|]. by apply elem_of_singleton.
  - by rewrite IH.
  - rewrite IH1, IH2; [done| |]; intros name Hname; apply Hagree;
      apply elem_of_union; by [> right | left].
Qed.

Lemma run_reads_only_its_sources_witness :
  run (graph_map (graph_from_iter "a") DummyMapper)
      {["a" := [ ({["x" := VInt 1]} : TRow) ]; "b" := []]}
  = run (graph_map (graph_from_iter "a") DummyMapper)
      {["a" := [ ({["x" := VInt 1]} : TRow) ]]}.
Proof.
  apply run_reads_only_its_sources.
  intros name Hname. simpl in Hname. apply elem_of_singleton in Hname as ->.
  reflexivity.
Defined.
